(** * Sprite-sheet tools: extrusion filter, frame extraction, atlas packer

    A shallow embedding of [tools/extrude_pixels.py] and
    [tools/import_aseprite_sheet.py], and the properties of the two
    scripts that the specification states.

    Conventions of the embedding:
    - a numpy array of shape [(h, w, ...)] is its shape together with its
      indexing function (see [ndarray]); cells outside the shape are never
      read by the embedded code;
    - Python [int]s are [Z]; [uint8] channel values are [Z] in [0, 255];
    - the [float32] accumulator of the extrusion filter is a rational
      number, every operation on it being followed by rounding to the
      nearest binary32 value ([F32.round]);
    - a raised exception is the [Err] case of [result]; the [while] loop of
      the packer runs on fuel, and [OutOfFuel] stands for a loop that is
      still running when the fuel is spent. *)

From Stdlib Require Import ZArith QArith String List Bool Lia Arith.
Import ListNotations.

Local Open Scope Z_scope.

(* ===================================================================== *)
(** * Exceptions *)

Inductive error : Type :=
| ValueError (msg : string)
| AssertionError (msg : string)
| IndexError (msg : string)
| OutOfFuel.

Inductive result (A : Type) : Type :=
| Ok (a : A)
| Err (e : error).

Arguments Ok {A} a.
Arguments Err {A} e.

Definition bind {A B : Type} (m : result A) (k : A -> result B) : result B :=
  match m with
  | Ok a => k a
  | Err e => Err e
  end.

Notation "x <- m ;; k" := (bind m (fun x => k))
  (at level 61, m at next level, right associativity).
Notation "' pat <- m ;; k" := (bind m (fun x => match x with pat => k end))
  (at level 61, pat pattern, m at next level, right associativity).

(** A loop whose body may raise. *)
Fixpoint for_each {S A : Type} (body : S -> A -> result S) (l : list A) (st : S)
  : result S :=
  match l with
  | [] => Ok st
  | a :: l' => st' <- body st a ;; for_each body l' st'
  end.

(* ===================================================================== *)
(** * numpy arrays *)

(** A two-dimensional array (the leading two axes of the scripts' arrays;
    the channel axis lives in the cell type). *)
Record ndarray (A : Type) : Type := mkArray {
  shape0 : nat;                 (* rows:    a.shape[0] *)
  shape1 : nat;                 (* columns: a.shape[1] *)
  item : nat -> nat -> A        (* a[r, c] for r < shape0, c < shape1 *)
}.

Arguments mkArray {A} shape0 shape1 item.
Arguments shape0 {A} n.
Arguments shape1 {A} n.
Arguments item {A} n r c.

(** [np.zeros((h, w, ...))], [zero] being the all-zero cell. *)
Definition zeros {A : Type} (zero : A) (h w : nat) : ndarray A :=
  mkArray h w (fun _ _ => zero).

(** An array literal, row by row; the width is that of the first row. *)
Definition of_rows {A : Type} (d : A) (rows : list (list A)) : ndarray A :=
  mkArray (length rows) (length (hd [] rows))
          (fun r c => nth c (nth r rows []) d).

(** The cells of an array, row by row (for display and comparison). *)
Definition to_rows {A : Type} (a : ndarray A) : list (list A) :=
  map (fun r => map (fun c => item a r c) (seq 0 (shape1 a))) (seq 0 (shape0 a)).

(** Python's slice normalisation for [a[lo:hi]] on an axis of length [n]:
    a negative bound counts from the end, then both are clipped to
    [0, n]; the slice is empty when the start is not below the stop.
    Returns the start and the length. *)
Definition slice_index (n : nat) (i : Z) : Z :=
  if i <? 0 then Z.max (i + Z.of_nat n) 0 else Z.min i (Z.of_nat n).

Definition slice_bounds (n : nat) (lo hi : Z) : nat * nat :=
  let start := slice_index n lo in
  let stop := slice_index n hi in
  (Z.to_nat start, Z.to_nat (stop - start)).

(** [a[y0:y1, x0:x1]] *)
Definition slice {A : Type} (a : ndarray A) (y0 y1 x0 x1 : Z) : ndarray A :=
  let '(r0, h) := slice_bounds (shape0 a) y0 y1 in
  let '(c0, w) := slice_bounds (shape1 a) x0 x1 in
  mkArray h w (fun r c => item a (r0 + r)%nat (c0 + c)%nat).

(** [a[i, j] = v] *)
Definition set_item {A : Type} (a : ndarray A) (i j : nat) (v : A) : ndarray A :=
  mkArray (shape0 a) (shape1 a)
          (fun r c => if ((r =? i) && (c =? j))%nat then v else item a r c).

Definition amap {A B : Type} (f : A -> B) (a : ndarray A) : ndarray B :=
  mkArray (shape0 a) (shape1 a) (fun r c => f (item a r c)).

(** Maximum of a list of [uint8] values (0 for the empty list, which the
    callers below exclude). *)
Definition list_max (l : list Z) : Z := fold_right Z.max 0 l.

(** The cells of a single-channel array in row-major order. *)
Definition flat (a : ndarray Z) : list Z :=
  flat_map (fun r => map (fun c => item a r c) (seq 0 (shape1 a)))
           (seq 0 (shape0 a)).

Definition zero_size_msg : string :=
  "zero-size array to reduction operation maximum which has no identity".

(** [a.max()]: numpy raises [ValueError] on an array without elements. *)
Definition amax (a : ndarray Z) : result Z :=
  if ((shape0 a =? 0) || (shape1 a =? 0))%nat
  then Err (ValueError zero_size_msg)
  else Ok (list_max (flat a)).

(** [a.max(0)]: the maximum of every column, and [a.max(1)]: of every row.
    Both are only taken of arrays that have elements. *)
Definition amax0 (a : ndarray Z) : list Z :=
  map (fun c => list_max (map (fun r => item a r c) (seq 0 (shape0 a))))
      (seq 0 (shape1 a)).

Definition amax1 (a : ndarray Z) : list Z :=
  map (fun r => list_max (map (fun c => item a r c) (seq 0 (shape1 a))))
      (seq 0 (shape0 a)).

(** [v.argmax()]: the index of the first occurrence of the maximum. *)
Fixpoint argmax_from (best : Z) (best_i : nat) (i : nat) (l : list Z) : nat :=
  match l with
  | [] => best_i
  | x :: l' =>
      if best <? x then argmax_from x i (S i) l'
      else argmax_from best best_i (S i) l'
  end.

Definition argmax (l : list Z) : nat :=
  match l with
  | [] => 0%nat
  | x :: l' => argmax_from x 0%nat 1%nat l'
  end.

Definition broadcast_msg : string := "could not broadcast input array".

(** [a[y0:y1, x0:x1, chans] = v]: [put old new] writes the value's
    channels into a cell.  The value must have the slice's shape (numpy
    would otherwise broadcast an axis of length one or raise; the scripts
    only assign equal shapes). *)
Definition assign {A B : Type} (put : A -> B -> A) (a : ndarray A)
           (y0 y1 x0 x1 : Z) (v : ndarray B) : result (ndarray A) :=
  let '(r0, h) := slice_bounds (shape0 a) y0 y1 in
  let '(c0, w) := slice_bounds (shape1 a) x0 x1 in
  if ((h =? shape0 v) && (w =? shape1 v))%nat then
    Ok (mkArray (shape0 a) (shape1 a) (fun r c =>
          if ((r0 <=? r) && (r <? r0 + h) && (c0 <=? c) && (c <? c0 + w))%nat
          then put (item a r c) (item v (r - r0)%nat (c - c0)%nat)
          else item a r c))
  else Err (ValueError broadcast_msg).

(** [a[y0:y1, x0:x1, chans] = k] for a scalar [k]. *)
Definition fill {A : Type} (put : A -> A) (a : ndarray A) (y0 y1 x0 x1 : Z)
  : ndarray A :=
  let '(r0, h) := slice_bounds (shape0 a) y0 y1 in
  let '(c0, w) := slice_bounds (shape1 a) x0 x1 in
  mkArray (shape0 a) (shape1 a) (fun r c =>
    if ((r0 <=? r) && (r <? r0 + h) && (c0 <=? c) && (c <? c0 + w))%nat
    then put (item a r c)
    else item a r c).

(* ===================================================================== *)
(** * Pixels *)

(** Four channels; the fourth, [c3], is alpha. *)
Record vec4 (A : Type) : Type := mkVec4 { c0 : A; c1 : A; c2 : A; c3 : A }.

Arguments mkVec4 {A} c0 c1 c2 c3.
Arguments c0 {A} v.
Arguments c1 {A} v.
Arguments c2 {A} v.
Arguments c3 {A} v.

Definition vmap {A B : Type} (f : A -> B) (v : vec4 A) : vec4 B :=
  mkVec4 (f (c0 v)) (f (c1 v)) (f (c2 v)) (f (c3 v)).

Definition vmap2 {A B C : Type} (f : A -> B -> C) (u : vec4 A) (v : vec4 B)
  : vec4 C :=
  mkVec4 (f (c0 u) (c0 v)) (f (c1 u) (c1 v)) (f (c2 u) (c2 v)) (f (c3 u) (c3 v)).

Abbreviation pixel := (vec4 Z).

Definition zero_pixel : pixel := mkVec4 0 0 0 0.

Definition is_uint8 (z : Z) : Prop := 0 <= z <= 255.

Definition pixel_ok (p : pixel) : Prop :=
  is_uint8 (c0 p) /\ is_uint8 (c1 p) /\ is_uint8 (c2 p) /\ is_uint8 (c3 p).

(** Every cell inside the shape holds [uint8] values. *)
Definition buffer_ok (a : ndarray pixel) : Prop :=
  forall r c, (r < shape0 a)%nat -> (c < shape1 a)%nat -> pixel_ok (item a r c).

(* ===================================================================== *)
(** * binary32 arithmetic on the values the filter meets *)

Module F32.

(** [a / b < 2 ^ e], for positive [a] and [b]. *)
Definition below_pow2 (a b e : Z) : bool :=
  a * 2 ^ Z.max 0 (- e) <? b * 2 ^ Z.max 0 e.

(** Round to the nearest value with a 24-bit significand, ties to even.
    Exponent range is not limited: the filter's values are 0 or lie in
    [1/4, 1020], far from binary32's overflow and subnormal ranges. *)
Definition round (q : Q) : Q :=
  let n := Qnum q in
  let b := Zpos (Qden q) in
  if n =? 0 then 0%Q
  else
    let a := Z.abs n in
    let e0 := Z.log2 a - Z.log2 b in
    let e := if below_pow2 a b e0 then e0 - 1 else e0 in
    let sh := 23 - e in
    let num := a * 2 ^ Z.max 0 sh in
    let den := b * 2 ^ Z.max 0 (- sh) in
    let m := num / den in
    let r := num mod den in
    let m' := if 2 * r <? den then m
              else if den <? 2 * r then m + 1
              else if Z.even m then m else m + 1 in
    Qred (Qmake (Z.sgn n * m' * 2 ^ Z.max 0 (- sh))
                (Z.to_pos (2 ^ Z.max 0 sh))).

Definition add (x y : Q) : Q := round (x + y).
Definition mul (x y : Q) : Q := round (x * y).
Definition div (x y : Q) : Q := round (x / y).

(** [x.astype(np.uint8)]: the fraction is dropped, the integer is taken
    modulo 256. *)
Definition astype_uint8 (x : Q) : Z :=
  Z.quot (Qnum x) (Zpos (Qden x)) mod 256.

(** Equality of two fractions, numerator and denominator. *)
Definition same (a b : Q) : bool :=
  (Qnum a =? Qnum b) && Pos.eqb (Qden a) (Qden b).

End F32.

(* ===================================================================== *)
(** * extrude_pixels.py *)

Module Extrude.

(** [steps = ((-1, 0), (0, -1), (1, 0), (0, 1))], as [(sx, sy)]. *)
Definition steps : list (Z * Z) := [(-1, 0); (0, -1); (1, 0); (0, 1)].

(** The state of the [for sx, sy in steps] loop. *)
Definition acc : Type := (vec4 Q * Z)%type.   (* new_color, n_new_colors *)

(** One iteration of [for sx, sy in steps] at pixel [(i, j)]. *)
Definition step_body (inp : ndarray pixel) (i j : Z) (st : acc) (s : Z * Z)
  : acc :=
  let '(new_color, n_new_colors) := st in
  let '(sx, sy) := s in
  let si := i + sy in
  let sj := j + sx in
  let n_rows := Z.of_nat (shape0 inp) in
  let n_cols := Z.of_nat (shape1 inp) in
  if (si <? 0) || (si >=? n_rows) then st
  else if (sj <? 0) || (sj >=? n_cols) then st
  else
    let p := item inp (Z.to_nat si) (Z.to_nat sj) in
    if c3 p >? 0
    then (vmap2 F32.add new_color (vmap inject_Z p), n_new_colors + 1)
    else st.

(** The body of [for j in range(n_cols)]; the state is [out_pixels] and
    the accumulator [new_color], which lives across iterations. *)
Definition pixel_body (inp : ndarray pixel) (i j : nat)
           (st : ndarray pixel * vec4 Q) : ndarray pixel * vec4 Q :=
  let '(out, new_color) := st in
  let a := c3 (item inp i j) in
  if a =? 0 then
    let new_color := vmap (fun x => F32.mul x 0) new_color in
    let '(new_color, n_new_colors) :=
      fold_left (step_body inp (Z.of_nat i) (Z.of_nat j)) steps (new_color, 0) in
    if n_new_colors =? 0 then (out, new_color)
    else
      let new_color := vmap (fun x => F32.div x (inject_Z n_new_colors)) new_color in
      (set_item out i j (vmap F32.astype_uint8 new_color), new_color)
  else st.

Definition row_body (inp : ndarray pixel) (st : ndarray pixel * vec4 Q) (i : nat)
  : ndarray pixel * vec4 Q :=
  fold_left (fun st j => pixel_body inp i j st) (seq 0 (shape1 inp)) st.

(** The two nested loops of [main] on a four-channel buffer: returns
    [out_pixels]. *)
Definition extrude (inp : ndarray pixel) : ndarray pixel :=
  let out_pixels := inp in                       (* np.copy(inp_pixels) *)
  let new_color := mkVec4 0%Q 0%Q 0%Q 0%Q in     (* np.zeros((4,)) *)
  fst (fold_left (row_body inp) (seq 0 (shape0 inp)) (out_pixels, new_color)).

(** A decoded image: three channels (no alpha) or four. *)
Inductive pixels : Type :=
| RGB (a : ndarray (Z * Z * Z))
| RGBA (a : ndarray pixel).

(** What [main] saves for one input file. *)
Definition process (img : pixels) : pixels :=
  match img with
  | RGB a => RGB a                               (* shape[2] == 3: saved as is *)
  | RGBA a => RGBA (extrude a)
  end.

End Extrude.

(* ===================================================================== *)
(** * import_aseprite_sheet.py *)

Definition _SPRITE_LAYER : string := "sprite".
Definition _MASK_LAYER_PREFIX : string := "mask_".

(** ** Python dictionaries, in insertion order *)

Definition dict (K V : Type) : Type := list (K * V).

Section Dict.
Context {K V : Type} (eqb : K -> K -> bool).

Fixpoint dict_get (d : dict K V) (k : K) : option V :=
  match d with
  | [] => None
  | (k', v) :: d' => if eqb k' k then Some v else dict_get d' k
  end.

(** [d[k] = f(d.get(k))]: an existing key keeps its position, a new key
    goes to the end. *)
Fixpoint dict_upd (d : dict K V) (k : K) (f : option V -> V) : dict K V :=
  match d with
  | [] => [(k, f None)]
  | (k', v) :: d' =>
      if eqb k' k then (k', f (Some v)) :: d'
      else (k', v) :: dict_upd d' k f
  end.

End Dict.

Definition from_option {A : Type} (d : A) (o : option A) : A :=
  match o with Some a => a | None => d end.

(** ** The dataclasses *)

(** The fields of the [to_meta] dictionaries. *)
Record Meta : Type := mkMeta {
  meta_name : string;
  meta_x : Z;
  meta_y : Z;
  meta_w : Z;
  meta_h : Z;
  meta_frame_idx : Z
}.

Module Sprite.

Record t : Type := mk {
  name : string;
  frame_idx : Z;
  image : ndarray pixel;
  tl : Z * Z
}.

Definition h (self : t) : Z := Z.of_nat (shape0 (image self)).
Definition w (self : t) : Z := Z.of_nat (shape1 (image self)).

Definition tr (self : t) : Z * Z := (fst (tl self) + w self, snd (tl self)).
Definition bl (self : t) : Z * Z := (fst (tl self), snd (tl self) + h self).

Definition get_neighbor_tls (self : t) : list (Z * Z) :=
  let bl := bl self in
  let tr := tr self in
  [(fst bl, snd bl + 1); (fst tr + 1, snd tr)].

Definition to_meta (self : t) : Meta :=
  let '(x, y) := tl self in
  let x := x + 1 in
  let y := y + 1 in
  let '(w, h) := (w self, h self) in
  let w := w - 2 in
  let h := h - 2 in
  mkMeta (name self) x y w h (frame_idx self).

(** [sprite.tl = tl] *)
Definition set_tl (self : t) (tl : Z * Z) : t :=
  mk (name self) (frame_idx self) (image self) tl.

(** [sprite.image.size]: the number of array elements, four per pixel. *)
Definition size (self : t) : Z := h self * w self * 4.

End Sprite.

Module Mask.

Record t : Type := mk {
  name : string;
  frame_idx : Z;
  tl : Z * Z;
  w : Z;
  h : Z
}.

Definition to_meta (self : t) : Meta :=
  let '(x, y) := tl self in
  mkMeta (name self) x y (w self) (h self) (frame_idx self).

End Mask.

(** ** Input *)

(** One entry of [meta["frames"]]: the four dot-separated parts of its
    [filename] (the index already read as an integer) and its [frame]
    rectangle. *)
Record Frame : Type := mkFrame {
  f_sprite_name : string;
  f_layer_name : string;
  f_tag : string;
  f_frame_idx : Z;
  f_x : Z;
  f_y : Z;
  f_w : Z;
  f_h : Z
}.

(** One [.json] file of the aseprite directory with its image, decoded
    into an array of four-channel pixels. *)
Record Source : Type := mkSource {
  meta_fp : string;
  src_sheet : ndarray pixel;
  layer_names : list string;
  frames : list Frame
}.

(** ** Extraction *)

Definition sprites_t : Type := dict string (list Sprite.t).
Definition masks_t : Type := dict string (dict string (dict Z Mask.t)).

(** [sprites[sprite_name].append(sprite)] on the [defaultdict(list)]. *)
Definition sprites_append (sprites : sprites_t) (k : string) (s : Sprite.t)
  : sprites_t :=
  dict_upd String.eqb sprites k (fun o => from_option [] o ++ [s]).

(** [masks[sprite_name][layer_name][frame_idx] = mask] on the nested
    [defaultdict]s. *)
Definition masks_set (masks : masks_t) (sprite_name layer_name : string)
           (frame_idx : Z) (mask : Mask.t) : masks_t :=
  dict_upd String.eqb masks sprite_name (fun o =>
    dict_upd String.eqb (from_option [] o) layer_name (fun o' =>
      dict_upd Z.eqb (from_option [] o') frame_idx (fun _ => mask))).

Definition invalid_layer_msg (layer_name : string) : string :=
  "Layer name: " ++ layer_name ++ " is not valid. "
  ++ "The layer name should be `sprite` (which represents the actual sprite) "
  ++ "or start with `mask_`.".

Definition missing_sprite_msg (meta_fp : string) : string :=
  meta_fp ++ " is missing the `sprite` layer".

(** [re.sub(r"^mask_", "", layer_name)] *)
Definition strip_mask_prefix (layer_name : string) : string :=
  if prefix _MASK_LAYER_PREFIX layer_name
  then substring 5 (String.length layer_name - 5) layer_name
  else layer_name.

(** [sheet[...].max(-1)] on one pixel: the largest of its channels. *)
Definition channel_max (p : pixel) : Z :=
  Z.max (Z.max (Z.max (c0 p) (c1 p)) (c2 p)) (c3 p).

(** [image = sheet[y : y + h, x : x + w, :].max(-1)] *)
Definition mask_image (sheet : ndarray pixel) (x y w h : Z) : ndarray Z :=
  amap channel_max (slice sheet y (y + h) x (x + w)).

(** The [elif is_mask:] branch, up to the construction of the [Mask]:
    [None] when the region is all zero. *)
Definition extract_mask (sheet : ndarray pixel) (sprite_name : string)
           (frame_idx x y w h : Z) : result (option Mask.t) :=
  let image := mask_image sheet x y w h in
  m <- amax image ;;
  if m >? 0 then
    let row := amax0 image in
    let col := amax1 image in
    let left_x := Z.of_nat (argmax row) in
    let top_y := Z.of_nat (argmax col) in
    let right_x := Z.of_nat (length row) - Z.of_nat (argmax (rev row)) - 1 in
    let bot_y := Z.of_nat (length col) - Z.of_nat (argmax (rev col)) - 1 in
    let bot_y := bot_y + 1 in
    let top_y := top_y + 1 in
    let w := right_x - left_x + 1 in
    let h := bot_y - top_y + 1 in
    Ok (Some (Mask.mk sprite_name frame_idx (left_x, top_y) w h))
  else Ok None.

(** The [if layer_name == _SPRITE_LAYER:] branch. *)
Definition extract_sprite (sheet : ndarray pixel) (sprite_name : string)
           (frame_idx x y w h : Z) : Sprite.t :=
  let x := x - 1 in
  let y := y - 1 in
  let w := w + 2 in
  let h := h + 2 in
  let image := slice sheet y (y + h) x (x + w) in
  Sprite.mk sprite_name frame_idx image (0, 0).

(** The body of [for frame in frames]. *)
Definition process_frame (sheet : ndarray pixel) (st : sprites_t * masks_t)
           (frame : Frame) : result (sprites_t * masks_t) :=
  let '(sprites, masks) := st in
  let sprite_name := f_sprite_name frame in
  let layer_name := f_layer_name frame in
  let tag := f_tag frame in
  let frame_idx := f_frame_idx frame in
  let sprite_name :=
    if (tag =? "")%string then sprite_name
    else (sprite_name ++ "_" ++ tag)%string in
  '(layer_name, is_mask) <-
    (if prefix _MASK_LAYER_PREFIX layer_name
     then Ok (strip_mask_prefix layer_name, true)
     else if negb (layer_name =? _SPRITE_LAYER)%string
          then Err (ValueError (invalid_layer_msg layer_name))
          else Ok (layer_name, false)) ;;
  let '(x, y, w, h) := (f_x frame, f_y frame, f_w frame, f_h frame) in
  if (layer_name =? _SPRITE_LAYER)%string then
    let sprite := extract_sprite sheet sprite_name frame_idx x y w h in
    Ok (sprites_append sprites sprite_name sprite, masks)
  else if is_mask : bool then
    mask <- extract_mask sheet sprite_name frame_idx x y w h ;;
    match mask with
    | Some mask => Ok (sprites, masks_set masks sprite_name layer_name frame_idx mask)
    | None => Ok (sprites, masks)
    end
  else Err (AssertionError ("Unhandled layer: " ++ layer_name)%string).

(** The body of [for file_path in _ASEPRITE_DIR.iterdir()]. *)
Definition process_file (st : sprites_t * masks_t) (src : Source)
  : result (sprites_t * masks_t) :=
  if existsb (String.eqb _SPRITE_LAYER) (layer_names src)
  then for_each (process_frame (src_sheet src)) (frames src) st
  else Err (ValueError (missing_sprite_msg (meta_fp src))).

Definition extract (srcs : list Source) : result (sprites_t * masks_t) :=
  for_each process_file srcs ([], []).

(** ** Packing *)

(** One cell of the packer's five-channel [sheet]: the four colour
    channels and the occupancy channel [sheet[..., -1]]. *)
Record cell : Type := mkCell { color : pixel; occ : Z }.

Definition zero_cell : cell := mkCell zero_pixel 0.

(** [flat_sprites]: the lists of [sprites.values()], chained. *)
Definition flatten_sprites (sprites : sprites_t) : list Sprite.t :=
  concat (map snd sprites).

(** [sorted(l, key=key)]: Python's sort is stable. *)
Fixpoint insert_by {A : Type} (key : A -> Z) (a : A) (l : list A) : list A :=
  match l with
  | [] => [a]
  | b :: l' => if key b <=? key a then b :: insert_by key a l' else a :: b :: l'
  end.

Definition sorted {A : Type} (key : A -> Z) (l : list A) : list A :=
  fold_left (fun acc a => insert_by key a acc) l [].

(** [inds = sorted(range(len(flat_sprites)),
                   key=lambda i: -flat_sprites[i].image.size)].
    The packing loop below does not read [inds]. *)
Definition inds (flat_sprites : list Sprite.t) : list nat :=
  sorted (fun i => - from_option 0 (option_map Sprite.size (nth_error flat_sprites i)))
         (seq 0 (length flat_sprites)).

(** The [for i, tl in enumerate(tls_to_try)] loop, from index [i] on:
    the index of the first candidate that passes the test, if any. *)
Fixpoint scan (sheet : ndarray cell) (sprite : Sprite.t) (tls_to_try : list (Z * Z))
         (i : nat) : result (option nat) :=
  match tls_to_try with
  | [] => Ok None
  | tl :: rest =>
      let '(min_x, min_y) := tl in
      let max_x := min_x + Sprite.w sprite in
      let max_y := min_y + Sprite.h sprite in
      if (Z.of_nat (shape1 sheet) >? max_x) && (Z.of_nat (shape0 sheet) >? max_y)
      then
        m <- amax (amap occ (slice sheet min_y max_y min_x max_x)) ;;
        if m =? 0 then Ok (Some i) else scan sheet sprite rest (S i)
      else scan sheet sprite rest (S i)
  end.

(** The [if best_tl_idx is None:] block. *)
Definition grow (sheet : ndarray cell) (sprite : Sprite.t) : result (ndarray cell) :=
  let new_sheet :=
    zeros zero_cell (shape0 sheet + shape0 (Sprite.image sprite))
                    (shape1 sheet + shape1 (Sprite.image sprite)) in
  assign (fun _ new => new) new_sheet
         0 (Z.of_nat (shape0 sheet)) 0 (Z.of_nat (shape1 sheet)) sheet.

(** [while best_tl_idx is None:], with at most [fuel] passes through the
    growth block. *)
Fixpoint find_tl (fuel : nat) (sheet : ndarray cell) (sprite : Sprite.t)
         (tls_to_try : list (Z * Z)) : result (nat * ndarray cell) :=
  best_tl_idx <- scan sheet sprite tls_to_try 0 ;;
  match best_tl_idx with
  | Some i => Ok (i, sheet)
  | None =>
      match fuel with
      | O => Err OutOfFuel
      | S fuel' =>
          sheet <- grow sheet sprite ;;
          find_tl fuel' sheet sprite tls_to_try
      end
  end.

(** [l.pop(i)] *)
Definition pop {A : Type} (l : list A) (i : nat) : result (A * list A) :=
  match nth_error l i with
  | Some a => Ok (a, firstn i l ++ skipn (S i) l)
  | None => Err (IndexError "pop index out of range")
  end.

(** The packer's state: the sheet, the candidate list and the sprites
    placed so far (in placement order). *)
Record packer : Type := mkPacker {
  sheet : ndarray cell;
  tls_to_try : list (Z * Z);
  placed : list Sprite.t
}.

(** [sheet = np.zeros((0, 0, 5)); tls_to_try = [(0, 0)]] *)
Definition packer_init : packer := mkPacker (zeros zero_cell 0 0) [(0, 0)] [].

(** The body of [for sprite in flat_sprites]. *)
Definition place (fuel : nat) (st : packer) (sprite : Sprite.t) : result packer :=
  '(best_tl_idx, sheet) <- find_tl fuel (sheet st) sprite (tls_to_try st) ;;
  '(tl, tls_to_try) <- pop (tls_to_try st) best_tl_idx ;;
  let sprite := Sprite.set_tl sprite tl in
  let '(min_x, min_y) := tl in
  let max_x := min_x + Sprite.w sprite in
  let max_y := min_y + Sprite.h sprite in
  sheet <- assign (fun old new => mkCell new (occ old)) sheet
                  min_y max_y min_x max_x (Sprite.image sprite) ;;
  let sheet := fill (fun old => mkCell (color old) 1) sheet min_y max_y min_x max_x in
  let tls_to_try := tls_to_try ++ Sprite.get_neighbor_tls sprite in
  Ok (mkPacker sheet tls_to_try (placed st ++ [sprite])).

Definition pack (fuel : nat) (flat_sprites : list Sprite.t) : result packer :=
  for_each (place fuel) flat_sprites packer_init.

(** ** The manifest *)

Record FrameMeta : Type := mkFrameMeta {
  fm_sprite : Meta;
  fm_masks : dict string Meta
}.

Record Output : Type := mkOutput {
  out_png : ndarray pixel;                     (* 0.png *)
  out_size : Z * Z;                            (* meta["size"] *)
  out_frames : dict string (list FrameMeta)    (* meta["frames"] *)
}.

(** The sprite objects are shared between [sprites] and [flat_sprites]:
    after packing, every list of [sprites] holds its placed sprites. *)
Fixpoint regroup (sprites : sprites_t) (placed : list Sprite.t) : sprites_t :=
  match sprites with
  | [] => []
  | (k, l) :: rest =>
      (k, firstn (length l) placed) :: regroup rest (skipn (length l) placed)
  end.

(** [masks_meta] of one sprite. *)
Definition masks_meta (masks : masks_t) (sprite_name : string) (sprite : Sprite.t)
  : dict string Meta :=
  fold_left (fun acc '(mask_name, by_frame) =>
               match dict_get Z.eqb by_frame (Sprite.frame_idx sprite) with
               | Some m => dict_upd String.eqb acc mask_name (fun _ => Mask.to_meta m)
               | None => acc
               end)
            (from_option [] (dict_get String.eqb masks sprite_name)) [].

Definition build_meta (sprites : sprites_t) (masks : masks_t)
  : dict string (list FrameMeta) :=
  fold_left (fun frames '(sprite_name, sprites_) =>
    fold_left (fun frames sprite =>
                 let frame_meta :=
                   mkFrameMeta (Sprite.to_meta sprite)
                               (masks_meta masks sprite_name sprite) in
                 dict_upd String.eqb frames (Sprite.name sprite)
                          (fun o => from_option [] o ++ [frame_meta]))
              sprites_ frames)
    sprites [].

(** The script up to the values that it hands to [cv2.imwrite] and
    [json.dump] in its last three lines: the atlas, its size and the
    frames of the manifest.  The two writes are not part of the model. *)
Definition run (fuel : nat) (srcs : list Source) : result Output :=
  '(sprites, masks) <- extract srcs ;;
  st <- pack fuel (flatten_sprites sprites) ;;
  let sheet := amap color (sheet st) in                 (* sheet[..., :-1] *)
  let '(sheet_h, sheet_w) := (shape0 sheet, shape1 sheet) in
  Ok (mkOutput sheet (Z.of_nat sheet_w, Z.of_nat sheet_h)
               (build_meta (regroup sprites (placed st)) masks)).

(* ===================================================================== *)
(** * What the specification says, in its own words *)

(** ** Extrusion *)

(** The four axis-aligned neighbours of [(i, j)] (row, column). *)
Definition neighbours4 (i j : Z) : list (Z * Z) :=
  [(i, j - 1); (i - 1, j); (i, j + 1); (i + 1, j)].

Definition in_bounds (a : ndarray pixel) (p : Z * Z) : bool :=
  (0 <=? fst p) && (fst p <? Z.of_nat (shape0 a))
  && (0 <=? snd p) && (snd p <? Z.of_nat (shape1 a)).

Definition pixel_at (a : ndarray pixel) (p : Z * Z) : pixel :=
  item a (Z.to_nat (fst p)) (Z.to_nat (snd p)).

(** The in-bounds neighbours of [(i, j)] whose input alpha is positive. *)
Definition opaque_neighbours (inp : ndarray pixel) (i j : nat) : list pixel :=
  map (pixel_at inp)
      (filter (fun p => in_bounds inp p && (0 <? c3 (pixel_at inp p)))
              (neighbours4 (Z.of_nat i) (Z.of_nat j))).

Definition sum (l : list Z) : Z := fold_right Z.add 0 l.

(** The arithmetic mean of a channel, the fraction dropped. *)
Definition mean (l : list Z) : Z := sum l / Z.of_nat (length l).

Definition mean_pixel (ps : list pixel) : pixel :=
  mkVec4 (mean (map c0 ps)) (mean (map c1 ps)) (mean (map c2 ps)) (mean (map c3 ps)).

(** The Manhattan distance between two pixel positions. *)
Definition distance (i j i' j' : nat) : Z :=
  Z.abs (Z.of_nat i - Z.of_nat i') + Z.abs (Z.of_nat j - Z.of_nat j').

(** What one pass writes at [(i, j)], if anything. *)
Definition pixel_update (inp : ndarray pixel) (i j : nat) : option pixel :=
  if c3 (item inp i j) =? 0 then
    match opaque_neighbours inp i j with
    | [] => None
    | ns => Some (mean_pixel ns)
    end
  else None.

(** Channel-wise sum of a list of pixels. *)
Definition sum_pixel (ps : list pixel) : pixel :=
  mkVec4 (sum (map c0 ps)) (sum (map c1 ps)) (sum (map c2 ps)) (sum (map c3 ps)).

(** The position a step [(sx, sy)] leads to from [(i, j)]. *)
Definition shifted (i j : Z) (s : Z * Z) : Z * Z := (i + snd s, j + fst s).

Definition admissible (inp : ndarray pixel) (p : Z * Z) : bool :=
  in_bounds inp p && (0 <? c3 (pixel_at inp p)).

(** The value at [(r, c)] once that position has been visited. *)
Definition updated (inp out : ndarray pixel) (r c : nat) : pixel :=
  match pixel_update inp r c with
  | Some v => v
  | None => item out r c
  end.

(** Decidable form of [buffer_ok]. *)
Definition uint8b (z : Z) : bool := (0 <=? z) && (z <=? 255).

Definition pixel_okb (p : pixel) : bool :=
  uint8b (c0 p) && uint8b (c1 p) && uint8b (c2 p) && uint8b (c3 p).

Definition buffer_okb (a : ndarray pixel) : bool :=
  forallb (fun r => forallb (fun c => pixel_okb (item a r c)) (seq 0 (shape1 a)))
          (seq 0 (shape0 a)).

(** Concrete buffers of the examples. *)
Definition grey (v : Z) : pixel := mkVec4 v v v v.

(** A strip of five pixels, opaque at both ends. *)
Definition strip5 : ndarray pixel :=
  of_rows zero_pixel [[grey 200; grey 0; grey 0; grey 0; grey 100]].

(** ** Extraction *)

(** The round trip of an authored rectangle [(x, y, w, h)]: the record
    emitted for its sprite, placed at [tl], has the authored size and
    lies at [tl] shifted by [(1, 1)]. *)
Definition roundtrip (sheet : ndarray pixel) (x y w h : Z) : Prop :=
  forall (name : string) (idx : Z) (tl : Z * Z),
    Sprite.to_meta (Sprite.set_tl (extract_sprite sheet name idx x y w h) tl)
    = mkMeta name (fst tl + 1) (snd tl + 1) w h idx.

(** [k] is the first, respectively last, position of the largest value
    of [l]. *)
Definition first_max (l : list Z) (k : nat) : Prop :=
  (k < length l)%nat
  /\ (forall j, (j < length l)%nat -> nth j l 0 <= nth k l 0)
  /\ (forall j, (j < k)%nat -> nth j l 0 < nth k l 0).

Definition last_max (l : list Z) (k : nat) : Prop :=
  (k < length l)%nat
  /\ (forall j, (j < length l)%nat -> nth j l 0 <= nth k l 0)
  /\ (forall j, (k < j < length l)%nat -> nth j l 0 < nth k l 0).

(** The columns, respectively rows, that hold a value satisfying [p]. *)
Definition col_has (p : Z -> bool) (a : ndarray Z) (c : nat) : bool :=
  existsb (fun r => p (item a r c)) (seq 0 (shape0 a)).

Definition row_has (p : Z -> bool) (a : ndarray Z) (r : nat) : bool :=
  existsb (fun c => p (item a r c)) (seq 0 (shape1 a)).

(** The tight bounding box of the values satisfying [p]: leftmost and
    rightmost column, topmost and bottommost row. *)
Definition bounding_box (p : Z -> bool) (a : ndarray Z)
  : option (nat * nat * nat * nat) :=
  match find (col_has p a) (seq 0 (shape1 a)),
        find (col_has p a) (rev (seq 0 (shape1 a))),
        find (row_has p a) (seq 0 (shape0 a)),
        find (row_has p a) (rev (seq 0 (shape0 a))) with
  | Some lft, Some rgt, Some top, Some bot => Some (lft, rgt, top, bot)
  | _, _, _, _ => None
  end.

(** The [Mask] of a box: top and bottom moved down by one, no horizontal
    move, width and height taken afterwards. *)
Definition mask_of_box (name : string) (idx : Z) (box : nat * nat * nat * nat)
  : Mask.t :=
  let '(left_x, right_x, top_y, bot_y) := box in
  let top_y := Z.of_nat top_y + 1 in
  let bot_y := Z.of_nat bot_y + 1 in
  Mask.mk name idx (Z.of_nat left_x, top_y)
          (Z.of_nat right_x - Z.of_nat left_x + 1) (bot_y - top_y + 1).

Definition mask_of (p : Z -> bool) (image : ndarray Z) (name : string) (idx : Z)
  : option Mask.t :=
  option_map (mask_of_box name idx) (bounding_box p image).

Definition nonzero (v : Z) : bool := negb (v =? 0).

(** The values equal to a positive [m]. *)
Definition peak (m v : Z) : bool := (0 <? m) && (v =? m).

(** All nonzero values of the array are the same value. *)
Definition uniform (a : ndarray Z) : Prop :=
  forall r c r' c',
    (r < shape0 a)%nat -> (c < shape1 a)%nat ->
    (r' < shape0 a)%nat -> (c' < shape1 a)%nat ->
    item a r c <> 0 -> item a r' c' <> 0 -> item a r c = item a r' c'.

(** Concrete sheets of the examples. *)
Definition blank (h w : nat) : ndarray pixel := zeros zero_pixel h w.

(** One row of channel maxima 1, 2, 0. *)
Definition ramp3 : ndarray pixel :=
  of_rows zero_pixel [[grey 1; grey 2; grey 0]].

(** The array with rows and columns exchanged. *)
Definition transpose {A : Type} (a : ndarray A) : ndarray A :=
  mkArray (shape1 a) (shape0 a) (fun r c => item a c r).

(** Mask extraction as the specification states it: no [Mask] for an
    all-zero region, else the tight box of the nonzero values, moved down
    by one. *)
Definition mask_claim (sheet : ndarray pixel) (x y w h : Z) : Prop :=
  forall (name : string) (idx : Z),
    extract_mask sheet name idx x y w h
    = Ok (mask_of nonzero (mask_image sheet x y w h) name idx).

(** A layer name that is neither the sprite marker nor mask-prefixed. *)
Definition invalid_layer (layer_name : string) : Prop :=
  prefix _MASK_LAYER_PREFIX layer_name = false /\ layer_name <> _SPRITE_LAYER.

Definition has_invalid_layer (srcs : list Source) : Prop :=
  exists src frame,
    In src srcs /\ In frame (frames src) /\ invalid_layer (f_layer_name frame).

(** The layer error as the specification states it: whenever some frame
    has an invalid layer name, extraction fails with the error that names
    such a layer. *)
Definition layer_error_claim (srcs : list Source) : Prop :=
  has_invalid_layer srcs ->
  exists src frame,
    In src srcs /\ In frame (frames src) /\ invalid_layer (f_layer_name frame)
    /\ extract srcs = Err (ValueError (invalid_layer_msg (f_layer_name frame))).

(** A file whose only layer is called [background]. *)
Definition background_only : Source :=
  mkSource "a.json" (blank 4 4) ["background"%string]
           [mkFrame "a" "background" "" 0 1 1 2 2].

(** A file with a sprite layer and a layer called [background]. *)
Definition sprite_and_background : Source :=
  mkSource "a.json" (blank 4 4) ["sprite"%string; "background"%string]
           [mkFrame "a" "sprite" "" 0 1 1 2 2;
            mkFrame "a" "background" "" 0 1 1 2 2].

(** ** Packing *)

(** The footprint of a sprite holds the cell at column [x], row [y]. *)
Definition covers (s : Sprite.t) (x y : Z) : Prop :=
  fst (Sprite.tl s) <= x < fst (Sprite.tl s) + Sprite.w s
  /\ snd (Sprite.tl s) <= y < snd (Sprite.tl s) + Sprite.h s.

Definition disjoint (s1 s2 : Sprite.t) : Prop :=
  forall x y, ~ (covers s1 x y /\ covers s2 x y).

(** Any two distinct entries of the list have disjoint footprints. *)
Definition pairwise_disjoint (l : list Sprite.t) : Prop :=
  forall i j s1 s2,
    i <> j -> nth_error l i = Some s1 -> nth_error l j = Some s2 ->
    disjoint s1 s2.

Definition right_edge (s : Sprite.t) : Z := fst (Sprite.tl s) + Sprite.w s.
Definition bottom_edge (s : Sprite.t) : Z := snd (Sprite.tl s) + Sprite.h s.

(** What holds of every state the packer reaches. *)
Record packer_inv (st : packer) : Prop := mkInv {
  inv_tls :
    forall x y, In (x, y) (tls_to_try st) -> 0 <= x /\ 0 <= y;
  inv_inside :
    forall s, In s (placed st) ->
      0 <= fst (Sprite.tl s) /\ 0 <= snd (Sprite.tl s)
      /\ right_edge s < Z.of_nat (shape1 (sheet st))
      /\ bottom_edge s < Z.of_nat (shape0 (sheet st));
  inv_range :
    forall r c, (r < shape0 (sheet st))%nat -> (c < shape1 (sheet st))%nat ->
      occ (item (sheet st) r c) = 0 \/ occ (item (sheet st) r c) = 1;
  inv_marked :
    forall s r c, In s (placed st) -> covers s (Z.of_nat c) (Z.of_nat r) ->
      occ (item (sheet st) r c) = 1;
  inv_clear :
    forall r c, (r < shape0 (sheet st))%nat -> (c < shape1 (sheet st))%nat ->
      (forall s, In s (placed st) -> ~ covers s (Z.of_nat c) (Z.of_nat r)) ->
      occ (item (sheet st) r c) = 0;
  inv_disjoint :
    pairwise_disjoint (placed st);
  inv_free :
    exists x y, In (x, y) (tls_to_try st)
                /\ forall s, In s (placed st) -> right_edge s <= x
}.

(** The cell at row [r], column [c] lies in the rectangle of width [w]
    and height [h] whose top-left corner is [(x, y)]. *)
Definition in_rect (x y w h : Z) (r c : nat) : bool :=
  (y <=? Z.of_nat r) && (Z.of_nat r <? y + h)
  && (x <=? Z.of_nat c) && (Z.of_nat c <? x + w).

(** The candidate [(x, y)] passes the test of the scan: the footprint
    ends before the last column and the last row, and is free. *)
Definition admits (sheet : ndarray cell) (sprite : Sprite.t) (x y : Z) : Prop :=
  x + Sprite.w sprite < Z.of_nat (shape1 sheet)
  /\ y + Sprite.h sprite < Z.of_nat (shape0 sheet)
  /\ forall r c, in_rect x y (Sprite.w sprite) (Sprite.h sprite) r c = true ->
                 occ (item sheet r c) = 0.

(** The candidate test of the scan, with the strict bounds the script
    uses. *)
Definition fits_strict (sheet : ndarray cell) (sprite : Sprite.t) (tl : Z * Z)
  : bool :=
  let '(x, y) := tl in
  (x + Sprite.w sprite <? Z.of_nat (shape1 sheet))
  && (y + Sprite.h sprite <? Z.of_nat (shape0 sheet))
  && forallb (fun r =>
       forallb (fun c => occ (item sheet r c) =? 0)
               (seq (Z.to_nat x) (Z.to_nat (Sprite.w sprite))))
       (seq (Z.to_nat y) (Z.to_nat (Sprite.h sprite))).

(** The candidate test as the specification states it: the footprint
    lies within the canvas bounds and is free. *)
Definition fits_spec (sheet : ndarray cell) (sprite : Sprite.t) (tl : Z * Z)
  : bool :=
  let '(x, y) := tl in
  (0 <=? x) && (0 <=? y)
  && (x + Sprite.w sprite <=? Z.of_nat (shape1 sheet))
  && (y + Sprite.h sprite <=? Z.of_nat (shape0 sheet))
  && forallb (fun r =>
       forallb (fun c => occ (item sheet r c) =? 0)
               (seq (Z.to_nat x) (Z.to_nat (Sprite.w sprite))))
       (seq (Z.to_nat y) (Z.to_nat (Sprite.h sprite))).

(** The index, counted from [i], of the first element that passes. *)
Fixpoint first_index {A : Type} (p : A -> bool) (l : list A) (i : nat)
  : option nat :=
  match l with
  | [] => None
  | a :: l' => if p a then Some i else first_index p l' (S i)
  end.

(** First fit as the specification states it. *)
Definition first_fit_claim (sheet : ndarray cell) (sprite : Sprite.t)
           (tls : list (Z * Z)) : Prop :=
  scan sheet sprite tls 0 = Ok (first_index (fits_spec sheet sprite) tls 0).

Definition sheet_ok (sheet : ndarray cell) : Prop :=
  forall r c, (r < shape0 sheet)%nat -> (c < shape1 sheet)%nat ->
              0 <= occ (item sheet r c).

Definition total_w (l : list Sprite.t) : Z := sum (map Sprite.w l).
Definition total_h (l : list Sprite.t) : Z := sum (map Sprite.h l).

(** The sum of the widths, respectively heights, with one pixel of gap
    per placement. *)
Definition gaps_w (l : list Sprite.t) : Z := sum (map (fun s => Sprite.w s + 1) l).
Definition gaps_h (l : list Sprite.t) : Z := sum (map (fun s => Sprite.h s + 1) l).

(** The canvas bound as the specification states it. *)
Definition canvas_bound_claim (sprites : list Sprite.t) : Prop :=
  forall fuel st, pack fuel sprites = Ok st ->
    Z.of_nat (shape1 (sheet st)) <= gaps_w sprites
    /\ Z.of_nat (shape0 (sheet st)) <= gaps_h sprites.

(** [sheet'] is [sheet] after some growth steps. *)
Definition extends (sheet sheet' : ndarray cell) : Prop :=
  (shape0 sheet <= shape0 sheet')%nat /\ (shape1 sheet <= shape1 sheet')%nat
  /\ forall r c, (r < shape0 sheet')%nat -> (c < shape1 sheet')%nat ->
       item sheet' r c
       = if ((r <? shape0 sheet) && (c <? shape1 sheet))%nat
         then item sheet r c else zero_cell.

(** A sprite of the examples: [h] rows, [w] columns. *)
Definition sprite_of (name : string) (h w : nat) : Sprite.t :=
  Sprite.mk name 0 (blank h w) (0, 0).

(** Every occupied cell of the sheet lies left of column [x]. *)
Definition free_from (sheet : ndarray cell) (x : Z) : Prop :=
  forall r c, (r < shape0 sheet)%nat -> (c < shape1 sheet)%nat ->
              occ (item sheet r c) <> 0 -> Z.of_nat c < x.

(** [p] is the sprite [s] with a position assigned. *)
Definition placement_of (s p : Sprite.t) : Prop :=
  exists tl, p = Sprite.set_tl s tl.

(** The bounds that the candidates and the canvas keep: no candidate lies
    beyond the canvas, and the canvas is at most twice as wide and twice
    as high as the placed sprites taken together. *)
Definition within_bounds (st : packer) : Prop :=
  (forall x y, In (x, y) (tls_to_try st) ->
               x <= Z.of_nat (shape1 (sheet st))
               /\ y <= Z.of_nat (shape0 (sheet st)))
  /\ Z.of_nat (shape1 (sheet st)) <= 2 * total_w (placed st)
  /\ Z.of_nat (shape0 (sheet st)) <= 2 * total_h (placed st).

(** The result of a run that returned (the initial state otherwise). *)
Definition packed (fuel : nat) (sprites : list Sprite.t) : packer :=
  match pack fuel sprites with
  | Ok st => st
  | Err _ => packer_init
  end.

(** The two sprites of the specification's example, larger first. *)
Definition two_sprites : list Sprite.t := [sprite_of "a" 4 4; sprite_of "b" 2 2].

(** The same sprites in the other extraction order. *)
Definition small_then_large : list Sprite.t := [sprite_of "b" 2 2; sprite_of "a" 4 4].

(** Some candidate of the list admits the sprite on the sheet. *)
Definition some_admits (sheet : ndarray cell) (sprite : Sprite.t)
           (tls : list (Z * Z)) : Prop :=
  exists x y, In (x, y) tls /\ admits sheet sprite x y.

(** One pass through the growth block for [sprite] leads from [sheet] to
    [sheet']: taller by the sprite's height, wider by its width. *)
Definition grown_by (sprite : Sprite.t) (sheet sheet' : ndarray cell) : Prop :=
  grow sheet sprite = Ok sheet'
  /\ shape0 sheet' = (shape0 sheet + shape0 (Sprite.image sprite))%nat
  /\ shape1 sheet' = (shape1 sheet + shape1 (Sprite.image sprite))%nat.

(** The growth loop as the specification describes it: [k] growth steps,
    each taken on a sheet on which no candidate admits the sprite, lead
    from [sheet] to [sheet1], on which some candidate admits it. *)
Inductive grows_to (sprite : Sprite.t) (tls : list (Z * Z))
  : ndarray cell -> nat -> ndarray cell -> Prop :=
| grows_done (sheet : ndarray cell) :
    some_admits sheet sprite tls -> grows_to sprite tls sheet 0 sheet
| grows_more (sheet sheet' sheet1 : ndarray cell) (k : nat) :
    ~ some_admits sheet sprite tls ->
    grown_by sprite sheet sheet' ->
    grows_to sprite tls sheet' k sheet1 ->
    grows_to sprite tls sheet (S k) sheet1.

(** The pixel of a placed sprite's image that lands on row [r], column
    [c] of the sheet. *)
Definition sprite_pixel (s : Sprite.t) (r c : nat) : pixel :=
  item (Sprite.image s) (r - Z.to_nat (snd (Sprite.tl s)))%nat
                        (c - Z.to_nat (fst (Sprite.tl s)))%nat.

(** The sheet holds every placed sprite's pixels on its footprint, marked
    occupied, and the zero cell everywhere else. *)
Definition content_inv (st : packer) : Prop :=
  forall r c, (r < shape0 (sheet st))%nat -> (c < shape1 (sheet st))%nat ->
    (forall s, In s (placed st) -> covers s (Z.of_nat c) (Z.of_nat r) ->
               item (sheet st) r c = mkCell (sprite_pixel s r c) 1)
    /\ ((forall s, In s (placed st) -> ~ covers s (Z.of_nat c) (Z.of_nat r)) ->
        item (sheet st) r c = zero_cell).

(** The placed sprite [p] stands on the sheet of [st]: its footprint ends
    before the last column and the last row, and every cell of it holds
    the sprite's pixel and is marked occupied. *)
Definition stands_on (st : packer) (p : Sprite.t) : Prop :=
  0 <= fst (Sprite.tl p) /\ 0 <= snd (Sprite.tl p)
  /\ right_edge p < Z.of_nat (shape1 (sheet st))
  /\ bottom_edge p < Z.of_nat (shape0 (sheet st))
  /\ forall r c, covers p (Z.of_nat c) (Z.of_nat r) ->
       item (sheet st) r c = mkCell (sprite_pixel p r c) 1.

(** One pass through the body of the packing loop, from [st0] to [st1]:
    after [k] growth steps a candidate of [st0] admits the sprite, which
    is placed there on a sheet of the size reached. *)
Definition placement_step (s : Sprite.t) (st0 st1 : packer) (k : nat) : Prop :=
  exists sheet1 x y,
    grows_to s (tls_to_try st0) (sheet st0) k sheet1
    /\ In (x, y) (tls_to_try st0) /\ admits sheet1 s x y
    /\ placed st1 = placed st0 ++ [Sprite.set_tl s (x, y)]
    /\ shape0 (sheet st1) = shape0 sheet1 /\ shape1 (sheet st1) = shape1 sheet1.

(** A 6x6 sheet with one opaque pixel at row 2, column 2, and a file that
    draws a 2x2 sprite at (1, 1) with a mask layer [mask_hit] over it. *)
Definition dot_sheet : ndarray pixel :=
  mkArray 6 6 (fun r c => if ((r =? 2) && (c =? 2))%nat then grey 255 else zero_pixel).

Definition dot_source : Source :=
  mkSource "dot.json" dot_sheet ["sprite"%string; "mask_hit"%string]
           [mkFrame "dot" "sprite" "" 0 1 1 2 2;
            mkFrame "dot" "mask_hit" "" 0 1 1 2 2].

(* ===================================================================== *)
(** * Further properties of the two scripts: definitions *)

(** A buffer of two opaque pixels. *)
Definition opaque2 : ndarray pixel := of_rows zero_pixel [[grey 9; grey 7]].

(** The fraction [q] lies in the range of [uint8], from 0 up to but not
    including 256: the cast of such a value only drops its fraction. *)
Definition castable (q : Q) : Prop := 0 <= Qnum q < 256 * Zpos (Qden q).

(** The integer part of a fraction that is not negative. *)
Definition trunc (q : Q) : Z := Qnum q / Zpos (Qden q).

(** The initial value of the accumulator [new_color]. *)
Definition black : vec4 Q := mkVec4 0%Q 0%Q 0%Q 0%Q.

(** The sprite name of a frame: the base name, with the tag when there is
    one (lines 122-124 of the script). *)
Definition tagged_name (frame : Frame) : string :=
  if (f_tag frame =? "")%string then f_sprite_name frame
  else (f_sprite_name frame ++ "_" ++ f_tag frame)%string.

(** The frame takes the sprite branch of the loop body: its layer name,
    after the mask prefix has been stripped, is the sprite marker. *)
Definition is_sprite_frame (frame : Frame) : bool :=
  let layer_name := f_layer_name frame in
  if prefix _MASK_LAYER_PREFIX layer_name
  then (strip_mask_prefix layer_name =? _SPRITE_LAYER)%string
  else (layer_name =? _SPRITE_LAYER)%string.

(** The sprite placed below the 4x4 sprite of [two_sprites]. *)
Definition below_a : Sprite.t := Sprite.mk "b" 0 (blank 2 2) (0, 5).

(** A free column or a free row lies between the footprints of [s] and
    [t], [t] being to the right of or below [s]. *)
Definition gap_between (s t : Sprite.t) : Prop :=
  forall x y x' y', covers s x y -> covers t x' y' -> x + 1 < x' \/ y + 1 < y'.

(** The frames of all files in the order of the two loops, each with the
    sheet of its file. *)
Definition all_frames (srcs : list Source) : list (ndarray pixel * Frame) :=
  flat_map (fun src => map (pair (src_sheet src)) (frames src)) srcs.

(** The sprite that the sprite branch makes of a frame. *)
Definition sprite_of_frame (sf : ndarray pixel * Frame) : Sprite.t :=
  let '(sheet, frame) := sf in
  extract_sprite sheet (tagged_name frame) (f_frame_idx frame)
                 (f_x frame) (f_y frame) (f_w frame) (f_h frame).

(** The sprites of the sprite frames whose sprite name is [k]. *)
Definition sprites_named (k : string) (l : list (ndarray pixel * Frame))
  : list Sprite.t :=
  map sprite_of_frame
      (filter (fun sf => is_sprite_frame (snd sf) && (tagged_name (snd sf) =? k)%string) l).

(** [sprites[k]], the empty list for a missing key. *)
Definition sprites_get (sprites : sprites_t) (k : string) : list Sprite.t :=
  from_option [] (dict_get String.eqb sprites k).

(** The state extraction ends in (empty when it raises). *)
Definition extracted (srcs : list Source) : sprites_t * masks_t :=
  match extract srcs with
  | Ok st => st
  | Err _ => ([], [])
  end.

(** [meta["frames"][k]], the empty list for a missing key. *)
Definition frames_get (frames : dict string (list FrameMeta)) (k : string)
  : list FrameMeta :=
  from_option [] (dict_get String.eqb frames k).

(** The entries of a sprite record that the packer does not choose: name,
    frame index, width and height. *)
Definition record_key (m : Meta) : string * Z * Z * Z :=
  (meta_name m, meta_frame_idx m, meta_w m, meta_h m).

(** The same entries read off an extracted sprite, whose image carries one
    pixel of border on every side. *)
Definition sprite_key (s : Sprite.t) : string * Z * Z * Z :=
  (Sprite.name s, Sprite.frame_idx s, Sprite.w s - 2, Sprite.h s - 2).

(** The pairs [(sprite_name, sprite)] in the order in which the two loops
    of the manifest visit them. *)
Definition visits (sprites : sprites_t) : list (string * Sprite.t) :=
  flat_map (fun '(sprite_name, sprites_) => map (pair sprite_name) sprites_) sprites.

(** The frame record that the manifest makes at one visit. *)
Definition frame_meta_of (masks : masks_t) (p : string * Sprite.t) : FrameMeta :=
  mkFrameMeta (Sprite.to_meta (snd p)) (masks_meta masks (fst p) (snd p)).

(** The body of the inner loop of the manifest. *)
Definition add_frame (masks : masks_t) (frames : dict string (list FrameMeta))
           (p : string * Sprite.t) : dict string (list FrameMeta) :=
  dict_upd String.eqb frames (Sprite.name (snd p))
           (fun o => from_option [] o ++ [frame_meta_of masks p]).

(** No key of [sprites] occurs twice, and every list holds sprites of the
    name it is filed under. *)
Definition keyed (sprites : sprites_t) : Prop :=
  NoDup (map fst sprites)
  /\ forall k l s, In (k, l) sprites -> In s l -> Sprite.name s = k.

(** Every mask is filed under its own name and frame index. *)
Definition masks_keyed (masks : masks_t) : Prop :=
  forall sn layers, dict_get String.eqb masks sn = Some layers ->
  forall ln by_frame, In (ln, by_frame) layers ->
  forall idx m, dict_get Z.eqb by_frame idx = Some m ->
    Mask.name m = sn /\ Mask.frame_idx m = idx.

(** Two visits of the same key, the second to the placed sprite. *)
Definition same_visit (a b : string * Sprite.t) : Prop :=
  fst a = fst b /\ placement_of (snd a) (snd b).

(** What a run that returned has written (nothing otherwise). *)
Definition output (fuel : nat) (srcs : list Source) : Output :=
  match run fuel srcs with
  | Ok out => out
  | Err _ => mkOutput (blank 0 0) (0, 0) []
  end.

(** The sprite record lies, with its border, inside the atlas of [out]
    and carries the name [k]. *)
Definition record_inside (out : Output) (k : string) (m : Meta) : Prop :=
  meta_name m = k
  /\ 1 <= meta_x m /\ 1 <= meta_y m
  /\ meta_x m + meta_w m + 1 < fst (out_size out)
  /\ meta_y m + meta_h m + 1 < snd (out_size out).

(** [masks[sn][ln].get(idx)], [None] when a key is missing. *)
Definition masks_lookup (masks : masks_t) (sn ln : string) (idx : Z) : option Mask.t :=
  dict_get Z.eqb
    (from_option [] (dict_get String.eqb
                       (from_option [] (dict_get String.eqb masks sn)) ln)) idx.

(** The mask that a frame files under the keys [sn], [ln], [idx]: the
    frame takes the mask branch with this sprite name, this layer name
    (prefix stripped) and this frame index, and its region is not all
    zero. *)
Definition mask_at (sn ln : string) (idx : Z) (sf : ndarray pixel * Frame)
  : option Mask.t :=
  let '(sheet, frame) := sf in
  if prefix _MASK_LAYER_PREFIX (f_layer_name frame)
     && negb (strip_mask_prefix (f_layer_name frame) =? _SPRITE_LAYER)%string
     && ((tagged_name frame =? sn)%string
         && (strip_mask_prefix (f_layer_name frame) =? ln)%string
         && (f_frame_idx frame =? idx))
  then match extract_mask sheet (tagged_name frame) (f_frame_idx frame)
                          (f_x frame) (f_y frame) (f_w frame) (f_h frame) with
       | Ok (Some m) => Some m
       | _ => None
       end
  else None.

(** A later value replaces an earlier one; nothing does not. *)
Definition later {A : Type} (acc o : option A) : option A :=
  match o with Some a => Some a | None => acc end.

Definition last_some {A : Type} (l : list (option A)) : option A :=
  fold_left later l None.

(** The loop body returns on this frame: its layer is the sprite layer or
    carries the mask prefix, and a mask frame's region has a pixel. *)
Definition frame_ok (sheet : ndarray pixel) (frame : Frame) : bool :=
  let layer_name := f_layer_name frame in
  let image := mask_image sheet (f_x frame) (f_y frame) (f_w frame) (f_h frame) in
  if prefix _MASK_LAYER_PREFIX layer_name
  then (strip_mask_prefix layer_name =? _SPRITE_LAYER)%string
       || negb ((shape0 image =? 0) || (shape1 image =? 0))%nat
  else (layer_name =? _SPRITE_LAYER)%string.

Definition file_ok (src : Source) : bool :=
  existsb (String.eqb _SPRITE_LAYER) (layer_names src)
  && forallb (frame_ok (src_sheet src)) (frames src).

(** The ways in which the script stops early: a [ValueError], or a loop
    that is still running when the fuel of the model is used up. *)
Definition stops_early (e : error) : Prop :=
  e = OutOfFuel \/ exists msg, e = ValueError msg.

(* ===================================================================== *)
(** * Properties *)

(** ** Slices *)

Lemma slice_index_range (n : nat) (i : Z) :
  0 <= slice_index n i <= Z.of_nat n.
Proof. unfold slice_index. destruct (i <? 0) eqn:E; lia. Qed.

Lemma slice_bounds_inside (n : nat) (lo hi : Z) :
  0 <= lo -> lo <= hi -> hi <= Z.of_nat n ->
  slice_bounds n lo hi = (Z.to_nat lo, Z.to_nat (hi - lo)).
Proof.
  intros Hlo Hle Hhi. unfold slice_bounds, slice_index.
  destruct (lo <? 0) eqn:E1; [lia|].
  destruct (hi <? 0) eqn:E2; [lia|].
  rewrite !Z.min_l by lia. reflexivity.
Qed.

Lemma slice_bounds_fit (n : nat) (lo hi : Z) :
  (fst (slice_bounds n lo hi) + snd (slice_bounds n lo hi) <= n)%nat.
Proof.
  unfold slice_bounds. cbn [fst snd].
  pose proof (slice_index_range n lo). pose proof (slice_index_range n hi). lia.
Qed.

Lemma below_range (P : nat -> bool) (n : nat) :
  forallb P (seq 0 n) = true -> forall k, (k < n)%nat -> P k = true.
Proof.
  intros H k Hk. rewrite forallb_forall in H. apply H, in_seq. lia.
Qed.

(** ** binary32 on small integers *)

Lemma f32_same_eq (a b : Q) : F32.same a b = true -> a = b.
Proof.
  destruct a as [an ad], b as [bn bd]. unfold F32.same. cbn.
  intros H. apply andb_true_iff in H as [H1 H2].
  apply Z.eqb_eq in H1. apply Pos.eqb_eq in H2. congruence.
Qed.

Lemma f32_round_int (z : Z) :
  0 <= z <= 1020 -> F32.round (inject_Z z) = inject_Z z.
Proof.
  intros Hz.
  assert (H : forallb (fun k => F32.same (F32.round (inject_Z (Z.of_nat k)))
                                         (inject_Z (Z.of_nat k))) (seq 0 1021) = true)
    by (vm_compute; reflexivity).
  pose proof (below_range _ _ H (Z.to_nat z) ltac:(lia)) as Hk.
  cbv beta in Hk. rewrite Z2Nat.id in Hk by lia. apply f32_same_eq, Hk.
Qed.

Lemma f32_add_int (a b : Z) :
  0 <= a -> 0 <= b -> a + b <= 1020 ->
  F32.add (inject_Z a) (inject_Z b) = inject_Z (a + b).
Proof.
  intros Ha Hb Hab. unfold F32.add.
  replace (inject_Z a + inject_Z b)%Q with (inject_Z (a + b)).
  - apply f32_round_int. lia.
  - unfold inject_Z, Qplus. cbn [Qnum Qden]. rewrite !Z.mul_1_r. reflexivity.
Qed.

Lemma f32_mul_zero (x : Q) : F32.mul x 0 = inject_Z 0.
Proof.
  unfold F32.mul, F32.round, Qmult. cbn [Qnum Qden].
  rewrite Z.mul_0_r. reflexivity.
Qed.

(** The mean of up to four [uint8] values, computed in binary32 and cast
    to [uint8], is the integer quotient. *)
Lemma f32_div_int (s n : Z) :
  1 <= n <= 4 -> 0 <= s <= 255 * n ->
  F32.astype_uint8 (F32.div (inject_Z s) (inject_Z n)) = s / n.
Proof.
  intros Hn Hs.
  assert (H : forallb (fun k =>
                forallb (fun m =>
                  (255 * Z.of_nat (S m) <? Z.of_nat k)
                  || (F32.astype_uint8 (F32.div (inject_Z (Z.of_nat k))
                                                (inject_Z (Z.of_nat (S m))))
                      =? Z.of_nat k / Z.of_nat (S m))) (seq 0 4)) (seq 0 1021) = true)
    by (vm_compute; reflexivity).
  pose proof (below_range _ _ H (Z.to_nat s) ltac:(lia)) as Hk. cbv beta in Hk.
  pose proof (below_range _ _ Hk (Z.to_nat (n - 1)) ltac:(lia)) as Hm. cbv beta in Hm.
  replace (Z.of_nat (S (Z.to_nat (n - 1)))) with n in Hm by lia.
  rewrite Z2Nat.id in Hm by lia.
  apply orb_true_iff in Hm as [Hm | Hm]; [apply Z.ltb_lt in Hm; lia|].
  apply Z.eqb_eq in Hm. exact Hm.
Qed.

(** ** The extrusion filter *)

Section ExtrudeProofs.

Variable inp : ndarray pixel.
Hypothesis inp_ok : buffer_ok inp.

Lemma sum_app (l l' : list Z) : sum (l ++ l') = sum l + sum l'.
Proof.
  induction l as [|x l IH]; [reflexivity|].
  cbn [app]. unfold sum in *. cbn [fold_right]. rewrite IH. lia.
Qed.

Lemma sum_single (x : Z) : sum [x] = x.
Proof. unfold sum. cbn. lia. Qed.

Lemma sum_bounds (f : pixel -> Z) (ps : list pixel) :
  (forall p, In p ps -> 0 <= f p <= 255) ->
  0 <= sum (map f ps) <= 255 * Z.of_nat (length ps).
Proof.
  induction ps as [|p ps IH]; intros H; cbn [map sum fold_right length].
  - lia.
  - pose proof (H p (or_introl eq_refl)).
    assert (0 <= sum (map f ps) <= 255 * Z.of_nat (length ps))
      by (apply IH; intros q Hq; apply H; right; exact Hq).
    unfold sum in *. lia.
Qed.

Lemma pixel_at_ok (p : Z * Z) : in_bounds inp p = true -> pixel_ok (pixel_at inp p).
Proof.
  unfold in_bounds, pixel_at. intros H.
  repeat (apply andb_true_iff in H as [H ?]).
  apply inp_ok; lia.
Qed.

Lemma sum_pixel_snoc (ps : list pixel) (p : pixel) :
  Forall pixel_ok ps -> pixel_ok p -> (length ps < 4)%nat ->
  vmap2 F32.add (vmap inject_Z (sum_pixel ps)) (vmap inject_Z p)
  = vmap inject_Z (sum_pixel (ps ++ [p])).
Proof.
  intros Hps Hp Hlen. rewrite Forall_forall in Hps.
  unfold vmap2, vmap, sum_pixel. cbn [c0 c1 c2 c3].
  rewrite !map_app, !sum_app. cbn [map]. rewrite !sum_single.
  destruct Hp as (H0 & H1 & H2 & H3). unfold is_uint8 in *.
  pose proof (sum_bounds c0 ps (fun q Hq => proj1 (Hps q Hq))).
  pose proof (sum_bounds c1 ps (fun q Hq => proj1 (proj2 (Hps q Hq)))).
  pose proof (sum_bounds c2 ps (fun q Hq => proj1 (proj2 (proj2 (Hps q Hq))))).
  pose proof (sum_bounds c3 ps (fun q Hq => proj2 (proj2 (proj2 (Hps q Hq))))).
  rewrite (f32_add_int (sum (map c0 ps)) (c0 p)) by lia.
  rewrite (f32_add_int (sum (map c1 ps)) (c1 p)) by lia.
  rewrite (f32_add_int (sum (map c2 ps)) (c2 p)) by lia.
  rewrite (f32_add_int (sum (map c3 ps)) (c3 p)) by lia.
  reflexivity.
Qed.

Lemma step_body_spec (i j : Z) (ps : list pixel) (s : Z * Z) :
  Forall pixel_ok ps -> (length ps < 4)%nat ->
  Extrude.step_body inp i j
    (vmap inject_Z (sum_pixel ps), Z.of_nat (length ps)) s
  = let ps' := if admissible inp (shifted i j s)
               then ps ++ [pixel_at inp (shifted i j s)] else ps in
    (vmap inject_Z (sum_pixel ps'), Z.of_nat (length ps')).
Proof.
  intros Hps Hlen. destruct s as [sx sy].
  unfold Extrude.step_body, admissible, shifted, in_bounds. cbn [fst snd].
  destruct (i + sy <? 0) eqn:E1; cbn [orb].
  { replace (0 <=? i + sy) with false by lia. reflexivity. }
  destruct (i + sy >=? Z.of_nat (shape0 inp)) eqn:E2.
  { replace (i + sy <? Z.of_nat (shape0 inp)) with false by lia.
    rewrite andb_false_r. reflexivity. }
  destruct (j + sx <? 0) eqn:E3; cbn [orb].
  { replace (0 <=? j + sx) with false by lia.
    rewrite andb_false_r. reflexivity. }
  destruct (j + sx >=? Z.of_nat (shape1 inp)) eqn:E4.
  { replace (j + sx <? Z.of_nat (shape1 inp)) with false by lia.
    rewrite andb_false_r. reflexivity. }
  replace (0 <=? i + sy) with true by lia.
  replace (i + sy <? Z.of_nat (shape0 inp)) with true by lia.
  replace (0 <=? j + sx) with true by lia.
  replace (j + sx <? Z.of_nat (shape1 inp)) with true by lia.
  cbn [andb]. unfold pixel_at. cbn [fst snd].
  set (p := item inp (Z.to_nat (i + sy)) (Z.to_nat (j + sx))).
  assert (Hp : pixel_ok p) by (apply inp_ok; lia).
  destruct (c3 p >? 0) eqn:E5.
  - replace (0 <? c3 p) with true by lia. cbv zeta.
    rewrite sum_pixel_snoc by assumption.
    rewrite !length_app. cbn [length]. f_equal. lia.
  - replace (0 <? c3 p) with false by lia. reflexivity.
Qed.

Lemma steps_spec (i j : Z) (ss : list (Z * Z)) :
  forall ps, Forall pixel_ok ps -> (length ps + length ss <= 4)%nat ->
  fold_left (Extrude.step_body inp i j) ss
            (vmap inject_Z (sum_pixel ps), Z.of_nat (length ps))
  = let ps' := ps ++ map (pixel_at inp)
                         (filter (admissible inp) (map (shifted i j) ss)) in
    (vmap inject_Z (sum_pixel ps'), Z.of_nat (length ps')).
Proof.
  induction ss as [|s ss IH]; intros ps Hps Hlen; cbn [fold_left map filter].
  - cbv zeta. rewrite app_nil_r. reflexivity.
  - cbn [length] in Hlen. rewrite step_body_spec by (assumption || lia).
    cbv zeta. destruct (admissible inp (shifted i j s)) eqn:E.
    + rewrite IH.
      * cbv zeta. cbn [map]. rewrite <- app_assoc. reflexivity.
      * apply Forall_app. split; [assumption|].
        constructor; [|constructor]. apply pixel_at_ok.
        unfold admissible in E. apply andb_true_iff in E. tauto.
      * rewrite length_app. cbn [length]. lia.
    + rewrite IH by (assumption || lia). reflexivity.
Qed.

Lemma neighbours4_steps (i j : Z) :
  map (shifted i j) Extrude.steps = neighbours4 i j.
Proof.
  unfold Extrude.steps, neighbours4, shifted. cbn [map fst snd].
  rewrite !Z.add_0_r.
  replace (j + -1) with (j - 1) by lia. replace (i + -1) with (i - 1) by lia.
  reflexivity.
Qed.

Lemma gather_spec (i j : nat) :
  fold_left (Extrude.step_body inp (Z.of_nat i) (Z.of_nat j)) Extrude.steps
            (vmap inject_Z zero_pixel, 0)
  = (vmap inject_Z (sum_pixel (opaque_neighbours inp i j)),
     Z.of_nat (length (opaque_neighbours inp i j))).
Proof.
  change (vmap inject_Z zero_pixel, 0)
    with (vmap inject_Z (sum_pixel []), Z.of_nat (@length pixel [])).
  rewrite steps_spec by (constructor || (cbn; lia)).
  cbv zeta. cbn [app]. rewrite neighbours4_steps. reflexivity.
Qed.

Lemma opaque_neighbours_ok (i j : nat) :
  Forall pixel_ok (opaque_neighbours inp i j)
  /\ (length (opaque_neighbours inp i j) <= 4)%nat.
Proof.
  unfold opaque_neighbours. split.
  - apply Forall_forall. intros p Hp. apply in_map_iff in Hp as (q & <- & Hq).
    apply filter_In in Hq as [_ Hq]. apply andb_true_iff in Hq as [Hq _].
    apply pixel_at_ok, Hq.
  - rewrite length_map.
    pose proof (filter_length_le
      (fun p => in_bounds inp p && (0 <? c3 (pixel_at inp p)))
      (neighbours4 (Z.of_nat i) (Z.of_nat j))) as H.
    cbn [neighbours4 length] in H. exact H.
Qed.

Lemma mean_spec (ps : list pixel) :
  Forall pixel_ok ps -> (0 < length ps <= 4)%nat ->
  vmap F32.astype_uint8
       (vmap (fun x => F32.div x (inject_Z (Z.of_nat (length ps))))
             (vmap inject_Z (sum_pixel ps)))
  = mean_pixel ps.
Proof.
  intros Hps Hlen. rewrite Forall_forall in Hps.
  unfold vmap, sum_pixel, mean_pixel, mean. cbn [c0 c1 c2 c3].
  pose proof (sum_bounds c0 ps (fun q Hq => proj1 (Hps q Hq))).
  pose proof (sum_bounds c1 ps (fun q Hq => proj1 (proj2 (Hps q Hq)))).
  pose proof (sum_bounds c2 ps (fun q Hq => proj1 (proj2 (proj2 (Hps q Hq))))).
  pose proof (sum_bounds c3 ps (fun q Hq => proj2 (proj2 (proj2 (Hps q Hq))))).
  rewrite !length_map.
  rewrite (f32_div_int (sum (map c0 ps))) by lia.
  rewrite (f32_div_int (sum (map c1 ps))) by lia.
  rewrite (f32_div_int (sum (map c2 ps))) by lia.
  rewrite (f32_div_int (sum (map c3 ps))) by lia.
  reflexivity.
Qed.

Lemma pixel_body_spec (i j : nat) (out : ndarray pixel) (nc : vec4 Q) :
  fst (Extrude.pixel_body inp i j (out, nc))
  = match pixel_update inp i j with
    | Some v => set_item out i j v
    | None => out
    end.
Proof.
  unfold Extrude.pixel_body, pixel_update.
  destruct (c3 (item inp i j) =? 0); [|reflexivity].
  replace (vmap (fun x => F32.mul x 0) nc) with (vmap inject_Z zero_pixel)
    by (unfold vmap; cbn [c0 c1 c2 c3 zero_pixel]; rewrite !f32_mul_zero; reflexivity).
  rewrite gather_spec.
  destruct (opaque_neighbours_ok i j) as [Hok Hlen].
  destruct (opaque_neighbours inp i j) as [|p ps] eqn:E.
  - reflexivity.
  - assert (Hnz : (Z.of_nat (length (p :: ps)) =? 0) = false)
      by (apply Z.eqb_neq; cbn [length]; lia).
    rewrite Hnz.
    cbn [fst]. rewrite mean_spec by (assumption || (cbn [length] in *; lia)).
    reflexivity.
Qed.

Lemma pixel_body_shape (i j : nat) (st : ndarray pixel * vec4 Q) :
  shape0 (fst (Extrude.pixel_body inp i j st)) = shape0 (fst st)
  /\ shape1 (fst (Extrude.pixel_body inp i j st)) = shape1 (fst st).
Proof.
  destruct st as [out nc]. rewrite pixel_body_spec.
  destruct (pixel_update inp i j); split; reflexivity.
Qed.

Lemma columns_spec (i n : nat) (st : ndarray pixel * vec4 Q) :
  let st' := fold_left (fun st j => Extrude.pixel_body inp i j st) (seq 0 n) st in
  shape0 (fst st') = shape0 (fst st) /\ shape1 (fst st') = shape1 (fst st)
  /\ forall r c,
       item (fst st') r c
       = if ((r =? i) && (c <? n))%nat then updated inp (fst st) r c
         else item (fst st) r c.
Proof.
  induction n as [|n IH]; cbv zeta.
  - cbn [seq fold_left]. repeat split. intros r c.
    rewrite andb_false_r. reflexivity.
  - rewrite seq_S, fold_left_app. cbn [fold_left Nat.add].
    cbv zeta in IH. destruct IH as (IH0 & IH1 & IH).
    set (st1 := fold_left (fun st j => Extrude.pixel_body inp i j st) (seq 0 n) st) in *.
    destruct (pixel_body_shape i n st1) as [S0 S1].
    repeat split; [congruence | congruence |].
    intros r c. destruct st1 as [out1 nc1]. rewrite pixel_body_spec.
    cbn [fst] in IH. unfold updated.
    destruct (r =? i)%nat eqn:Er; cbn [andb].
    + apply Nat.eqb_eq in Er. subst r.
      destruct (c =? n)%nat eqn:Ec.
      * apply Nat.eqb_eq in Ec. subst c.
        replace (n <? S n)%nat with true by (symmetry; apply Nat.ltb_lt; lia).
        destruct (pixel_update inp i n); cbn [set_item item].
        -- rewrite !Nat.eqb_refl. reflexivity.
        -- rewrite IH, Nat.eqb_refl, Nat.ltb_irrefl. reflexivity.
      * assert ((c <? S n)%nat = (c <? n)%nat) as ->.
        { apply Nat.eqb_neq in Ec.
          destruct (c <? n)%nat eqn:E'; [apply Nat.ltb_lt in E' | apply Nat.ltb_ge in E'].
          - apply Nat.ltb_lt. lia.
          - apply Nat.ltb_ge. lia. }
        destruct (pixel_update inp i n); cbn [set_item item].
        -- rewrite Ec, andb_false_r, IH, Nat.eqb_refl. reflexivity.
        -- rewrite IH, Nat.eqb_refl. reflexivity.
    + destruct (pixel_update inp i n); cbn [set_item item].
      * rewrite Er. cbn [andb]. rewrite IH, Er. reflexivity.
      * rewrite IH, Er. reflexivity.
Qed.

Lemma rows_spec (m : nat) (st : ndarray pixel * vec4 Q) :
  shape1 (fst st) = shape1 inp ->
  let st' := fold_left (Extrude.row_body inp) (seq 0 m) st in
  shape0 (fst st') = shape0 (fst st) /\ shape1 (fst st') = shape1 (fst st)
  /\ forall r c,
       item (fst st') r c
       = if ((r <? m) && (c <? shape1 inp))%nat then updated inp (fst st) r c
         else item (fst st) r c.
Proof.
  intros Hs. induction m as [|m IH]; cbv zeta.
  - cbn [seq fold_left]. repeat split.
  - rewrite seq_S, fold_left_app. cbn [fold_left Nat.add].
    cbv zeta in IH. destruct IH as (IH0 & IH1 & IH).
    set (st1 := fold_left (Extrude.row_body inp) (seq 0 m) st) in *.
    change (Extrude.row_body inp st1 m)
      with (fold_left (fun st j => Extrude.pixel_body inp m j st)
                      (seq 0 (shape1 inp)) st1).
    pose proof (columns_spec m (shape1 inp) st1) as C. cbv zeta in C.
    destruct C as (C0 & C1 & C).
    repeat split; [congruence | congruence |].
    intros r c. rewrite C. unfold updated. rewrite IH.
    destruct (r =? m)%nat eqn:Er; cbn [andb].
    + apply Nat.eqb_eq in Er. subst r.
      rewrite Nat.ltb_irrefl. cbn [andb].
      replace (m <? S m)%nat with true by (symmetry; apply Nat.ltb_lt; lia).
      reflexivity.
    + assert ((r <? S m)%nat = (r <? m)%nat) as ->; [|reflexivity].
      apply Nat.eqb_neq in Er.
      destruct (r <? m)%nat eqn:E'; [apply Nat.ltb_lt in E' | apply Nat.ltb_ge in E'].
      * apply Nat.ltb_lt. lia.
      * apply Nat.ltb_ge. lia.
Qed.

(** One pass, pixel by pixel: every output pixel is a function of the
    input buffer alone. *)
Lemma extrude_item (i j : nat) :
  (i < shape0 inp)%nat -> (j < shape1 inp)%nat ->
  item (Extrude.extrude inp) i j = updated inp inp i j.
Proof.
  intros Hi Hj. unfold Extrude.extrude.
  pose proof (rows_spec (shape0 inp) (inp, mkVec4 0%Q 0%Q 0%Q 0%Q) eq_refl) as H.
  cbv zeta in H. destruct H as (_ & _ & H).
  rewrite H. cbn [fst].
  replace (i <? shape0 inp)%nat with true by (symmetry; apply Nat.ltb_lt; lia).
  replace (j <? shape1 inp)%nat with true by (symmetry; apply Nat.ltb_lt; lia).
  reflexivity.
Qed.

Lemma extrude_shape :
  shape0 (Extrude.extrude inp) = shape0 inp
  /\ shape1 (Extrude.extrude inp) = shape1 inp.
Proof.
  unfold Extrude.extrude.
  pose proof (rows_spec (shape0 inp) (inp, mkVec4 0%Q 0%Q 0%Q 0%Q) eq_refl) as H.
  cbv zeta in H. destruct H as (H0 & H1 & _).
  split; assumption.
Qed.

End ExtrudeProofs.

Lemma buffer_okb_sound (a : ndarray pixel) : buffer_okb a = true -> buffer_ok a.
Proof.
  unfold buffer_okb, buffer_ok. intros H r c Hr Hc.
  rewrite forallb_forall in H. specialize (H r ltac:(apply in_seq; lia)).
  rewrite forallb_forall in H. specialize (H c ltac:(apply in_seq; lia)).
  unfold pixel_okb, uint8b in H. unfold pixel_ok, is_uint8. lia.
Qed.

Lemma filter_none {A : Type} (f : A -> bool) (l : list A) :
  (forall x, In x l -> f x = false) -> filter f l = [].
Proof.
  induction l as [|x l IH]; intros H; [reflexivity|].
  cbn [filter]. rewrite (H x (or_introl eq_refl)).
  apply IH. intros y Hy. apply H. right. exact Hy.
Qed.

(** No opaque pixel within distance one: no opaque neighbour. *)
Lemma far_from_opaque (inp : ndarray pixel) (i j : nat) :
  (forall i' j', (i' < shape0 inp)%nat -> (j' < shape1 inp)%nat ->
                 0 < c3 (item inp i' j') -> 2 <= distance i j i' j') ->
  opaque_neighbours inp i j = [].
Proof.
  intros Hfar. unfold opaque_neighbours.
  rewrite filter_none; [reflexivity|].
  intros [i' j'] Hin. destruct (in_bounds inp (i', j')) eqn:Eb; [|reflexivity].
  cbn [andb]. unfold in_bounds in Eb. cbn [fst snd] in Eb.
  destruct (0 <? c3 (pixel_at inp (i', j'))) eqn:Ea; [|reflexivity].
  exfalso. unfold pixel_at in Ea. cbn [fst snd] in Ea.
  specialize (Hfar (Z.to_nat i') (Z.to_nat j') ltac:(lia) ltac:(lia) ltac:(lia)).
  unfold distance in Hfar. unfold neighbours4 in Hin. cbn [In] in Hin.
  destruct Hin as [E|[E|[E|[E|[]]]]]; inversion E; subst; lia.
Qed.

Lemma mean_pixel_ok (ps : list pixel) :
  Forall pixel_ok ps -> ps <> [] -> pixel_ok (mean_pixel ps).
Proof.
  intros Hps Hne. rewrite Forall_forall in Hps.
  assert (0 < Z.of_nat (length ps)) by (destruct ps; [congruence | cbn [length]; lia]).
  unfold pixel_ok, is_uint8, mean_pixel, mean. cbn [c0 c1 c2 c3].
  rewrite !length_map.
  pose proof (sum_bounds c0 ps (fun q Hq => proj1 (Hps q Hq))).
  pose proof (sum_bounds c1 ps (fun q Hq => proj1 (proj2 (Hps q Hq)))).
  pose proof (sum_bounds c2 ps (fun q Hq => proj1 (proj2 (proj2 (Hps q Hq))))).
  pose proof (sum_bounds c3 ps (fun q Hq => proj2 (proj2 (proj2 (Hps q Hq))))).
  repeat split;
    (apply Z.div_pos; lia) || (apply Z.div_le_upper_bound; lia).
Qed.

(** C2. One pass of the extrusion filter over a four-channel buffer, pixel
    by pixel: a pixel with nonzero alpha is copied; a pixel with alpha zero
    that has in-bounds 4-connected neighbours of positive input alpha
    becomes, channel by channel, the mean of those neighbours' input
    values with the fraction dropped (a [uint8] value); a pixel with alpha
    zero without such a neighbour is copied; hence a transparent pixel at
    distance two or more from every opaque pixel stays transparent. *)
Theorem extrude_pixelwise (inp : ndarray pixel) (i j : nat) :
  buffer_ok inp -> (i < shape0 inp)%nat -> (j < shape1 inp)%nat ->
  let out := Extrude.extrude inp in
  let ns := opaque_neighbours inp i j in
  (c3 (item inp i j) <> 0 -> item out i j = item inp i j)
  /\ (c3 (item inp i j) = 0 -> ns <> [] ->
      item out i j = mean_pixel ns /\ pixel_ok (mean_pixel ns))
  /\ (c3 (item inp i j) = 0 -> ns = [] -> item out i j = item inp i j)
  /\ (c3 (item inp i j) = 0 ->
      (forall i' j', (i' < shape0 inp)%nat -> (j' < shape1 inp)%nat ->
                     0 < c3 (item inp i' j') -> 2 <= distance i j i' j') ->
      item out i j = item inp i j /\ c3 (item out i j) = 0).
Proof.
  intros Hok Hi Hj out ns. subst out ns.
  rewrite (extrude_item inp Hok i j Hi Hj). unfold updated, pixel_update.
  split; [|split; [|split]].
  - intros Ha. apply Z.eqb_neq in Ha. rewrite Ha. reflexivity.
  - intros Ha Hns. apply Z.eqb_eq in Ha. rewrite Ha. split.
    + destruct (opaque_neighbours inp i j); [congruence | reflexivity].
    + apply mean_pixel_ok; [|assumption]. apply (opaque_neighbours_ok inp Hok i j).
  - intros Ha Hns. rewrite Hns. destruct (c3 (item inp i j) =? 0); reflexivity.
  - intros Ha Hfar. rewrite (far_from_opaque inp i j Hfar).
    destruct (c3 (item inp i j) =? 0); split; (reflexivity || assumption).
Qed.

Lemma extrude_pixelwise_witness :
  let inp := strip5 in
  let out := Extrude.extrude inp in
  let ns := opaque_neighbours inp 0 1 in
  (c3 (item inp 0 1) <> 0 -> item out 0 1 = item inp 0 1)
  /\ (c3 (item inp 0 1) = 0 -> ns <> [] ->
      item out 0 1 = mean_pixel ns /\ pixel_ok (mean_pixel ns))
  /\ (c3 (item inp 0 1) = 0 -> ns = [] -> item out 0 1 = item inp 0 1)
  /\ (c3 (item inp 0 1) = 0 ->
      (forall i' j', (i' < shape0 inp)%nat -> (j' < shape1 inp)%nat ->
                     0 < c3 (item inp i' j') -> 2 <= distance 0 1 i' j') ->
      item out 0 1 = item inp 0 1 /\ c3 (item out 0 1) = 0).
Proof.
  apply (extrude_pixelwise strip5 0 1).
  - apply buffer_okb_sound. vm_compute. reflexivity.
  - vm_compute. lia.
  - vm_compute. lia.
Defined.

(** The strip of the specification: one pass colours positions 1 and 3
    and leaves position 2 transparent. *)
Example extrude_strip5 :
  to_rows (Extrude.extrude strip5)
  = [[grey 200; grey 200; grey 0; grey 100; grey 100]].
Proof. vm_compute. reflexivity. Qed.

(** ** Sprite extraction and the manifest *)

Lemma extract_sprite_shape (sheet : ndarray pixel) (name : string) (idx x y w h : Z) :
  1 <= x -> 1 <= y -> 0 <= w -> 0 <= h ->
  x + w + 1 <= Z.of_nat (shape1 sheet) -> y + h + 1 <= Z.of_nat (shape0 sheet) ->
  Sprite.w (extract_sprite sheet name idx x y w h) = w + 2
  /\ Sprite.h (extract_sprite sheet name idx x y w h) = h + 2.
Proof.
  intros Hx Hy Hw Hh HW HH.
  unfold Sprite.w, Sprite.h, extract_sprite. cbn [Sprite.image]. unfold slice.
  rewrite (slice_bounds_inside (shape0 sheet) (y - 1) (y - 1 + (h + 2))) by lia.
  rewrite (slice_bounds_inside (shape1 sheet) (x - 1) (x - 1 + (w + 2))) by lia.
  cbn [shape0 shape1]. lia.
Qed.

(** C5. Under the contract of sprite extraction, that the sheet holds the
    one-pixel border around the authored rectangle, extraction crops
    [(x-1, y-1, w+2, h+2)] and the record emitted for the sprite placed at
    [tl] has width [w], height [h] and position [tl + (1, 1)]. *)
Theorem sprite_roundtrip (sheet : ndarray pixel) (x y w h : Z) :
  1 <= x -> 1 <= y -> 0 <= w -> 0 <= h ->
  x + w + 1 <= Z.of_nat (shape1 sheet) -> y + h + 1 <= Z.of_nat (shape0 sheet) ->
  (forall name idx,
     Sprite.image (extract_sprite sheet name idx x y w h)
     = slice sheet (y - 1) (y - 1 + (h + 2)) (x - 1) (x - 1 + (w + 2)))
  /\ roundtrip sheet x y w h.
Proof.
  intros Hx Hy Hw Hh HW HH. split; [reflexivity|].
  intros name idx tl.
  destruct (extract_sprite_shape sheet name idx x y w h Hx Hy Hw Hh HW HH) as [Ew Eh].
  unfold Sprite.to_meta, Sprite.set_tl, Sprite.w, Sprite.h in *.
  cbn [Sprite.tl Sprite.image Sprite.name Sprite.frame_idx] in *.
  destruct tl as [tx ty]. cbn [fst snd]. rewrite Ew, Eh.
  cbn [extract_sprite Sprite.name Sprite.frame_idx]. f_equal; lia.
Qed.

Lemma sprite_roundtrip_witness :
  (forall name idx,
     Sprite.image (extract_sprite (blank 4 4) name idx 1 1 2 2)
     = slice (blank 4 4) (1 - 1) (1 - 1 + (2 + 2)) (1 - 1) (1 - 1 + (2 + 2)))
  /\ roundtrip (blank 4 4) 1 1 2 2.
Proof.
  apply (sprite_roundtrip (blank 4 4) 1 1 2 2); vm_compute; congruence.
Defined.

(** Outside that contract the crop is a clipped numpy slice: on a 4x4
    sheet the rectangle [(1, 1, 3, 3)] expands to [(0, 0, 5, 5)], the crop
    is clipped to 4x4 and the emitted size is 2x2. *)
Example roundtrip_outside_the_sheet : ~ roundtrip (blank 4 4) 1 1 3 3.
Proof.
  intros H. specialize (H "s"%string 0 (0, 0)).
  vm_compute in H. discriminate H.
Qed.

(** ** Mask extraction *)

Lemma list_max_upper (l : list Z) : forall x, In x l -> x <= list_max l.
Proof.
  induction l as [|y l IH]; intros x Hx; [destruct Hx|].
  unfold list_max in *. cbn [fold_right]. destruct Hx as [-> | Hx].
  - lia.
  - specialize (IH x Hx). lia.
Qed.

Lemma list_max_nonneg (l : list Z) : 0 <= list_max l.
Proof.
  induction l as [|y l IH]; unfold list_max in *; cbn [fold_right]; lia.
Qed.

Lemma list_max_in (l : list Z) : list_max l = 0 \/ In (list_max l) l.
Proof.
  induction l as [|y l IH]; [left; reflexivity|].
  unfold list_max in *. cbn [fold_right].
  destruct (Z.max_spec y (fold_right Z.max 0 l)) as [[_ E] | [_ E]]; rewrite E.
  - destruct IH as [IH | IH]; [left; exact IH | right; right; exact IH].
  - right. left. reflexivity.
Qed.

Lemma list_max_zero (l : list Z) : (forall x, In x l -> x = 0) -> list_max l = 0.
Proof.
  intros H. destruct (list_max_in l) as [E | E]; [exact E | exact (H _ E)].
Qed.

Lemma in_flat (a : ndarray Z) (x : Z) :
  In x (flat a) <->
  exists r c, (r < shape0 a)%nat /\ (c < shape1 a)%nat /\ x = item a r c.
Proof.
  unfold flat. rewrite in_flat_map. split.
  - intros (r & Hr & Hx). apply in_map_iff in Hx as (c & <- & Hc).
    apply in_seq in Hr, Hc. exists r, c. repeat split; lia.
  - intros (r & c & Hr & Hc & ->). exists r. split; [apply in_seq; lia|].
    apply in_map_iff. exists c. split; [reflexivity | apply in_seq; lia].
Qed.

Lemma argmax_from_spec (l : list Z) :
  forall (pre : list Z) (best : Z) (bi : nat),
    (bi < length pre)%nat -> nth bi pre 0 = best ->
    (forall j, (j < length pre)%nat -> nth j pre 0 <= best) ->
    (forall j, (j < bi)%nat -> nth j pre 0 < best) ->
    first_max (pre ++ l) (argmax_from best bi (length pre) l).
Proof.
  induction l as [|x l IH]; intros pre best bi Hbi Hnth Hmax Hfirst.
  - cbn [argmax_from]. rewrite app_nil_r. unfold first_max.
    rewrite Hnth. repeat split; assumption.
  - cbn [argmax_from].
    replace (pre ++ x :: l) with ((pre ++ [x]) ++ l)
      by (rewrite <- app_assoc; reflexivity).
    replace (S (length pre)) with (length (pre ++ [x]))
      by (rewrite length_app; cbn [length]; lia).
    assert (Hlen : length (pre ++ [x]) = S (length pre))
      by (rewrite length_app; cbn [length]; lia).
    destruct (best <? x) eqn:E.
    + replace (length pre) with (length (pre ++ [x]) - 1)%nat at 1 by lia.
      apply IH.
      * lia.
      * rewrite Hlen. replace (S (length pre) - 1)%nat with (length pre) by lia.
        rewrite app_nth2 by lia. rewrite Nat.sub_diag. reflexivity.
      * intros j Hj. rewrite Hlen in Hj.
        destruct (Nat.eq_dec j (length pre)) as [-> | Hne].
        -- rewrite app_nth2 by lia. rewrite Nat.sub_diag. cbn. lia.
        -- rewrite app_nth1 by lia. specialize (Hmax j ltac:(lia)). lia.
      * intros j Hj. rewrite Hlen in Hj.
        rewrite app_nth1 by lia. specialize (Hmax j ltac:(lia)). lia.
    + apply IH.
      * rewrite Hlen. lia.
      * rewrite app_nth1 by lia. exact Hnth.
      * intros j Hj. rewrite Hlen in Hj.
        destruct (Nat.eq_dec j (length pre)) as [-> | Hne].
        -- rewrite app_nth2 by lia. rewrite Nat.sub_diag. cbn. lia.
        -- rewrite app_nth1 by lia. apply Hmax. lia.
      * intros j Hj. rewrite app_nth1 by lia. apply Hfirst. exact Hj.
Qed.

(** [argmax] returns the first position of the largest value. *)
Lemma argmax_first (l : list Z) : l <> [] -> first_max l (argmax l).
Proof.
  destruct l as [|x l]; [congruence|]. intros _.
  unfold argmax. change (x :: l) with ([x] ++ l).
  change 1%nat with (length [x]).
  apply argmax_from_spec; cbn [length].
  - lia.
  - reflexivity.
  - intros j Hj. replace j with 0%nat by lia. cbn. lia.
  - intros j Hj. lia.
Qed.

(** [len(l) - l[::-1].argmax() - 1] is the last position of the largest
    value. *)
Lemma argmax_last (l : list Z) :
  l <> [] -> last_max l (length l - argmax (rev l) - 1).
Proof.
  intros Hne.
  assert (Hrev : rev l <> []).
  { intros E. apply Hne. rewrite <- (rev_involutive l), E. reflexivity. }
  destruct (argmax_first (rev l) Hrev) as (Hk & Hmax & Hfirst).
  rewrite length_rev in Hk, Hmax.
  set (k := argmax (rev l)) in *.
  assert (Hnth : forall j, (j < length l)%nat ->
                           nth j (rev l) 0 = nth (length l - S j) l 0)
    by (intros j Hj; apply rev_nth; exact Hj).
  unfold last_max. replace (length l - k - 1)%nat with (length l - S k)%nat by lia.
  rewrite <- (Hnth k Hk). repeat split.
  - lia.
  - intros j Hj. specialize (Hmax (length l - S j)%nat ltac:(lia)).
    rewrite Hnth in Hmax by lia.
    replace (length l - S (length l - S j))%nat with j in Hmax by lia. exact Hmax.
  - intros j Hj. specialize (Hfirst (length l - S j)%nat ltac:(lia)).
    rewrite Hnth in Hfirst by lia.
    replace (length l - S (length l - S j))%nat with j in Hfirst by lia. exact Hfirst.
Qed.

Lemma first_le_last (l : list Z) (i k : nat) :
  first_max l i -> last_max l k -> (i <= k)%nat.
Proof.
  intros (Hi & Himax & Hifirst) (Hk & Hkmax & Hklast).
  destruct (Nat.le_gt_cases i k) as [H | H]; [exact H|].
  specialize (Hifirst k H). specialize (Hkmax i Hi). lia.
Qed.

Lemma amax_ok (a : ndarray Z) (m : Z) :
  amax a = Ok m ->
  shape0 a <> 0%nat /\ shape1 a <> 0%nat /\ m = list_max (flat a).
Proof.
  unfold amax. destruct (shape0 a =? 0)%nat eqn:E0; cbn [orb]; [discriminate|].
  destruct (shape1 a =? 0)%nat eqn:E1; [discriminate|].
  apply Nat.eqb_neq in E0, E1. intros H. inversion H. auto.
Qed.

Lemma amax_nonempty (a : ndarray Z) :
  shape0 a <> 0%nat -> shape1 a <> 0%nat -> amax a = Ok (list_max (flat a)).
Proof.
  intros H0 H1. unfold amax.
  apply Nat.eqb_neq in H0, H1. rewrite H0, H1. reflexivity.
Qed.

Lemma amax0_length (a : ndarray Z) : length (amax0 a) = shape1 a.
Proof. unfold amax0. rewrite length_map, length_seq. reflexivity. Qed.

Lemma amax1_length (a : ndarray Z) : length (amax1 a) = shape0 a.
Proof. unfold amax1. rewrite length_map, length_seq. reflexivity. Qed.

Lemma not_nil_of_length {A : Type} (l : list A) : length l <> 0%nat -> l <> [].
Proof. destruct l; cbn; congruence. Qed.

(** The shape of what [extract_mask] returns, in terms of [argmax]. *)
Lemma extract_mask_some (sheet : ndarray pixel) (name : string)
      (idx x y w h : Z) (m : Mask.t) :
  extract_mask sheet name idx x y w h = Ok (Some m) ->
  let image := mask_image sheet x y w h in
  exists lft rgt top bot,
    first_max (amax0 image) lft /\ last_max (amax0 image) rgt
    /\ first_max (amax1 image) top /\ last_max (amax1 image) bot
    /\ 0 < list_max (flat image)
    /\ m = mask_of_box name idx (lft, rgt, top, bot).
Proof.
  intros H. cbv zeta. unfold extract_mask in H. cbv zeta in H.
  set (image := mask_image sheet x y w h) in *.
  destruct (amax image) as [mx|e] eqn:Emax; cbn [bind] in H; [|discriminate].
  apply amax_ok in Emax as (H0 & H1 & ->).
  destruct (list_max (flat image) >? 0) eqn:Epos; [|discriminate].
  assert (Hrow : amax0 image <> [])
    by (apply not_nil_of_length; rewrite amax0_length; exact H1).
  assert (Hcol : amax1 image <> [])
    by (apply not_nil_of_length; rewrite amax1_length; exact H0).
  exists (argmax (amax0 image)),
         (length (amax0 image) - argmax (rev (amax0 image)) - 1)%nat,
         (argmax (amax1 image)),
         (length (amax1 image) - argmax (rev (amax1 image)) - 1)%nat.
  pose proof (argmax_first _ Hrow) as F0. pose proof (argmax_last _ Hrow) as L0.
  pose proof (argmax_first _ Hcol) as F1. pose proof (argmax_last _ Hcol) as L1.
  repeat split; try (apply F0 || apply L0 || apply F1 || apply L1).
  - lia.
  - inversion H. unfold mask_of_box.
    assert (R0 : (argmax (rev (amax0 image)) < length (amax0 image))%nat).
    { rewrite <- length_rev. apply argmax_first.
      apply not_nil_of_length. rewrite length_rev, amax0_length. exact H1. }
    assert (R1 : (argmax (rev (amax1 image)) < length (amax1 image))%nat).
    { rewrite <- length_rev. apply argmax_first.
      apply not_nil_of_length. rewrite length_rev, amax1_length. exact H0. }
    f_equal; try f_equal; lia.
Qed.

(** C10. Every [Mask] that extraction produces has width and height at
    least 1 and a top coordinate at least 1; a region whose values are all
    zero gives no [Mask]. *)
Theorem mask_never_degenerate (sheet : ndarray pixel) (name : string)
        (idx x y w h : Z) :
  (forall m, extract_mask sheet name idx x y w h = Ok (Some m) ->
             1 <= Mask.w m /\ 1 <= Mask.h m /\ 1 <= snd (Mask.tl m))
  /\ ((forall r c, (r < shape0 (mask_image sheet x y w h))%nat ->
                   (c < shape1 (mask_image sheet x y w h))%nat ->
                   item (mask_image sheet x y w h) r c = 0) ->
      forall m, extract_mask sheet name idx x y w h <> Ok (Some m)).
Proof.
  split.
  - intros m H. apply extract_mask_some in H.
    destruct H as (lft & rgt & top & bot & F0 & L0 & F1 & L1 & _ & ->).
    pose proof (first_le_last _ _ _ F0 L0). pose proof (first_le_last _ _ _ F1 L1).
    unfold mask_of_box. cbn [Mask.w Mask.h Mask.tl snd]. lia.
  - intros Hzero m H. apply extract_mask_some in H.
    destruct H as (_ & _ & _ & _ & _ & _ & _ & _ & Hpos & _).
    rewrite list_max_zero in Hpos; [lia|].
    intros v Hv. apply in_flat in Hv as (r & c & Hr & Hc & ->).
    apply Hzero; assumption.
Qed.

Lemma mask_never_degenerate_witness :
  let m := Mask.mk "s" 0 (1, 1) 1 1 in
  1 <= Mask.w m /\ 1 <= Mask.h m /\ 1 <= snd (Mask.tl m).
Proof.
  apply (proj1 (mask_never_degenerate ramp3 "s" 0 0 0 3 1)).
  vm_compute. reflexivity.
Defined.

(** *** The box that [argmax] finds *)

Lemma find_first_seq (f : nat -> bool) (n s k : nat) :
  (s <= k < s + n)%nat -> f k = true ->
  (forall j, (s <= j < k)%nat -> f j = false) ->
  find f (seq s n) = Some k.
Proof.
  revert s. induction n as [|n IH]; intros s Hk Hf Hbefore; [lia|].
  cbn [seq find]. destruct (Nat.eq_dec s k) as [-> | Hne].
  - rewrite Hf. reflexivity.
  - rewrite (Hbefore s) by lia. apply IH; [lia | exact Hf |].
    intros j Hj. apply Hbefore. lia.
Qed.

Lemma find_last_seq (f : nat -> bool) (n k : nat) :
  (k < n)%nat -> f k = true ->
  (forall j, (k < j < n)%nat -> f j = false) ->
  find f (rev (seq 0 n)) = Some k.
Proof.
  induction n as [|n IH]; intros Hk Hf Hafter; [lia|].
  rewrite seq_S, rev_app_distr. cbn [rev app Nat.add find].
  destruct (Nat.eq_dec n k) as [-> | Hne].
  - rewrite Hf. reflexivity.
  - rewrite (Hafter n) by lia. apply IH; [lia | exact Hf |].
    intros j Hj. apply Hafter. lia.
Qed.

Lemma find_none {A : Type} (f : A -> bool) (l : list A) :
  (forall x, In x l -> f x = false) -> find f l = None.
Proof.
  induction l as [|x l IH]; intros H; [reflexivity|].
  cbn [find]. rewrite (H x (or_introl eq_refl)).
  apply IH. intros y Hy. apply H. right. exact Hy.
Qed.

Lemma find_ext {A : Type} (f g : A -> bool) (l : list A) :
  (forall x, In x l -> f x = g x) -> find f l = find g l.
Proof.
  induction l as [|x l IH]; intros H; [reflexivity|].
  cbn [find]. rewrite (H x (or_introl eq_refl)).
  rewrite IH; [reflexivity|]. intros y Hy. apply H. right. exact Hy.
Qed.

Lemma existsb_ext_in {A : Type} (f g : A -> bool) (l : list A) :
  (forall x, In x l -> f x = g x) -> existsb f l = existsb g l.
Proof.
  induction l as [|x l IH]; intros H; [reflexivity|].
  cbn [existsb]. rewrite (H x (or_introl eq_refl)).
  rewrite IH; [reflexivity|]. intros y Hy. apply H. right. exact Hy.
Qed.

Lemma nth_map_seq {A : Type} (g : nat -> A) (n c : nat) (d : A) :
  (c < n)%nat -> nth c (map g (seq 0 n)) d = g c.
Proof.
  intros Hc. rewrite (nth_indep _ d (g 0%nat)) by (rewrite length_map, length_seq; lia).
  rewrite map_nth, seq_nth by lia. reflexivity.
Qed.

Section PeakBox.

Variable a : ndarray Z.
Variable M : Z.
Hypothesis M_upper :
  forall r c, (r < shape0 a)%nat -> (c < shape1 a)%nat -> item a r c <= M.
Hypothesis M_reached :
  exists r c, (r < shape0 a)%nat /\ (c < shape1 a)%nat /\ M = item a r c.
Hypothesis M_pos : 0 < M.

Lemma colmax_nth (c : nat) :
  (c < shape1 a)%nat ->
  nth c (amax0 a) 0 = list_max (map (fun r => item a r c) (seq 0 (shape0 a))).
Proof.
  intros Hc.
  exact (nth_map_seq
           (fun c => list_max (map (fun r => item a r c) (seq 0 (shape0 a))))
           (shape1 a) c 0 Hc).
Qed.

Lemma colmax_upper (c : nat) : (c < shape1 a)%nat -> nth c (amax0 a) 0 <= M.
Proof.
  intros Hc. rewrite colmax_nth by exact Hc.
  destruct (list_max_in (map (fun r => item a r c) (seq 0 (shape0 a)))) as [E | E].
  - rewrite E. lia.
  - apply in_map_iff in E as (r & <- & Hr). apply in_seq in Hr.
    apply M_upper; lia.
Qed.

Lemma col_has_peak (c : nat) :
  (c < shape1 a)%nat ->
  col_has (peak M) a c = true <-> nth c (amax0 a) 0 = M.
Proof.
  intros Hc. pose proof (colmax_upper c Hc) as Hup.
  rewrite colmax_nth in * by exact Hc.
  unfold col_has, peak. rewrite existsb_exists. split.
  - intros (r & Hr & Hp). apply andb_true_iff in Hp as [_ Hp].
    apply Z.eqb_eq in Hp.
    pose proof (list_max_upper (map (fun r => item a r c) (seq 0 (shape0 a)))
                               (item a r c)
                               (in_map (fun r => item a r c) _ _ Hr)).
    lia.
  - intros E.
    destruct (list_max_in (map (fun r => item a r c) (seq 0 (shape0 a)))) as [E' | E'].
    + lia.
    + rewrite E in E'. apply in_map_iff in E' as (r & Er & Hr).
      exists r. split; [exact Hr|].
      apply andb_true_iff. split; [apply Z.ltb_lt; exact M_pos | apply Z.eqb_eq; exact Er].
Qed.

(** A position of the largest column maximum holds [M]. *)
Lemma colmax_top (k : nat) :
  (k < shape1 a)%nat ->
  (forall j, (j < length (amax0 a))%nat -> nth j (amax0 a) 0 <= nth k (amax0 a) 0) ->
  nth k (amax0 a) 0 = M.
Proof.
  intros Hk Hmax. pose proof (colmax_upper k Hk).
  destruct M_reached as (r & c & Hr & Hc & E).
  specialize (Hmax c ltac:(rewrite amax0_length; exact Hc)).
  rewrite (colmax_nth c Hc) in Hmax.
  assert (Hin : In r (seq 0 (shape0 a))) by (apply in_seq; lia).
  pose proof (list_max_upper (map (fun r => item a r c) (seq 0 (shape0 a)))
                             (item a r c)
                             (in_map (fun r => item a r c) _ _ Hin)).
  lia.
Qed.

Lemma col_first (k : nat) :
  first_max (amax0 a) k ->
  find (col_has (peak M) a) (seq 0 (shape1 a)) = Some k.
Proof.
  intros (Hk & Hmax & Hfirst). rewrite amax0_length in Hk.
  pose proof (colmax_top k Hk Hmax) as Etop.
  apply find_first_seq; [lia | apply col_has_peak; assumption |].
  intros j Hj. specialize (Hfirst j ltac:(lia)).
  destruct (col_has (peak M) a j) eqn:E; [|reflexivity].
  apply col_has_peak in E; lia.
Qed.

Lemma col_last (k : nat) :
  last_max (amax0 a) k ->
  find (col_has (peak M) a) (rev (seq 0 (shape1 a))) = Some k.
Proof.
  intros (Hk & Hmax & Hlast). rewrite amax0_length in Hk.
  pose proof (colmax_top k Hk Hmax) as Etop.
  apply find_last_seq; [lia | apply col_has_peak; assumption |].
  intros j Hj. specialize (Hlast j ltac:(rewrite amax0_length; lia)).
  destruct (col_has (peak M) a j) eqn:E; [|reflexivity].
  apply col_has_peak in E; lia.
Qed.

End PeakBox.

Lemma peak_box (a : ndarray Z) (M : Z) (lft rgt top bot : nat) :
  (forall r c, (r < shape0 a)%nat -> (c < shape1 a)%nat -> item a r c <= M) ->
  (exists r c, (r < shape0 a)%nat /\ (c < shape1 a)%nat /\ M = item a r c) ->
  0 < M ->
  first_max (amax0 a) lft -> last_max (amax0 a) rgt ->
  first_max (amax1 a) top -> last_max (amax1 a) bot ->
  bounding_box (peak M) a = Some (lft, rgt, top, bot).
Proof.
  intros Hup Hreach Hpos F0 L0 F1 L1. unfold bounding_box.
  rewrite (col_first a M Hup Hreach Hpos lft F0).
  rewrite (col_last a M Hup Hreach Hpos rgt L0).
  assert (Hup' : forall r c, (r < shape0 (transpose a))%nat ->
                             (c < shape1 (transpose a))%nat ->
                             item (transpose a) r c <= M)
    by (intros r c Hr Hc; apply Hup; assumption).
  assert (Hreach' : exists r c, (r < shape0 (transpose a))%nat
                                /\ (c < shape1 (transpose a))%nat
                                /\ M = item (transpose a) r c).
  { destruct Hreach as (r & c & Hr & Hc & E). exists c, r. auto. }
  change (row_has (peak M) a) with (col_has (peak M) (transpose a)).
  change (shape0 a) with (shape1 (transpose a)).
  rewrite (col_first (transpose a) M Hup' Hreach' Hpos top F1).
  rewrite (col_last (transpose a) M Hup' Hreach' Hpos bot L1).
  reflexivity.
Qed.

Lemma bounding_box_ext (p q : Z -> bool) (a : ndarray Z) :
  (forall r c, (r < shape0 a)%nat -> (c < shape1 a)%nat ->
               p (item a r c) = q (item a r c)) ->
  bounding_box p a = bounding_box q a.
Proof.
  intros H. unfold bounding_box.
  assert (Hc : forall c, (c < shape1 a)%nat -> col_has p a c = col_has q a c).
  { intros c Hc. unfold col_has. apply existsb_ext_in.
    intros r Hr. apply in_seq in Hr. apply H; lia. }
  assert (Hr : forall r, (r < shape0 a)%nat -> row_has p a r = row_has q a r).
  { intros r Hr. unfold row_has. apply existsb_ext_in.
    intros c Hc'. apply in_seq in Hc'. apply H; lia. }
  rewrite (find_ext (col_has p a) (col_has q a) (seq 0 (shape1 a)))
    by (intros c Hc'; apply in_seq in Hc'; apply Hc; lia).
  rewrite (find_ext (col_has p a) (col_has q a) (rev (seq 0 (shape1 a))))
    by (intros c Hc'; apply in_rev, in_seq in Hc'; apply Hc; lia).
  rewrite (find_ext (row_has p a) (row_has q a) (seq 0 (shape0 a)))
    by (intros r Hr'; apply in_seq in Hr'; apply Hr; lia).
  rewrite (find_ext (row_has p a) (row_has q a) (rev (seq 0 (shape0 a))))
    by (intros r Hr'; apply in_rev, in_seq in Hr'; apply Hr; lia).
  reflexivity.
Qed.

Lemma bounding_box_never (p : Z -> bool) (a : ndarray Z) :
  (forall v, p v = false) -> bounding_box p a = None.
Proof.
  intros H. unfold bounding_box.
  rewrite (find_none (col_has p a) (seq 0 (shape1 a))); [reflexivity|].
  intros c _. unfold col_has.
  destruct (existsb (fun r => p (item a r c)) (seq 0 (shape0 a))) eqn:E; [|reflexivity].
  apply existsb_exists in E as (r & _ & E). rewrite H in E. discriminate E.
Qed.

Lemma channel_max_nonneg (p : pixel) : pixel_ok p -> 0 <= channel_max p.
Proof. unfold pixel_ok, is_uint8, channel_max. lia. Qed.

Lemma mask_image_nonneg (sheet : ndarray pixel) (x y w h : Z) (r c : nat) :
  buffer_ok sheet ->
  (r < shape0 (mask_image sheet x y w h))%nat ->
  (c < shape1 (mask_image sheet x y w h))%nat ->
  0 <= item (mask_image sheet x y w h) r c.
Proof.
  intros Hok. unfold mask_image, slice.
  pose proof (slice_bounds_fit (shape0 sheet) y (y + h)) as F0.
  pose proof (slice_bounds_fit (shape1 sheet) x (x + w)) as F1.
  destruct (slice_bounds (shape0 sheet) y (y + h)) as [r0 h'].
  destruct (slice_bounds (shape1 sheet) x (x + w)) as [c0' w'].
  cbn [fst snd amap shape0 shape1 item] in *. intros Hr Hc.
  apply channel_max_nonneg, Hok; lia.
Qed.

(** C6 (amended). For a mask frame whose cropped region has elements:
    [extract_mask] returns the box, moved down by one (top and bottom
    incremented, no horizontal move, width and height taken afterwards),
    of the values equal to the region's maximum [M] when [M] is positive,
    and no [Mask] when the region is all zero.  That box is the tight box
    of the nonzero values when all nonzero values are equal. *)
Theorem mask_extraction (sheet : ndarray pixel) (name : string) (idx x y w h : Z) :
  buffer_ok sheet ->
  let image := mask_image sheet x y w h in
  shape0 image <> 0%nat -> shape1 image <> 0%nat ->
  let M := list_max (flat image) in
  extract_mask sheet name idx x y w h = Ok (mask_of (peak M) image name idx)
  /\ (M = 0 -> extract_mask sheet name idx x y w h = Ok None)
  /\ (uniform image ->
      extract_mask sheet name idx x y w h = Ok (mask_of nonzero image name idx)).
Proof.
  intros Hok image H0 H1 M.
  assert (Hnn : forall r c, (r < shape0 image)%nat -> (c < shape1 image)%nat ->
                            0 <= item image r c)
    by (intros r c Hr Hc; apply mask_image_nonneg; assumption).
  assert (Hup : forall r c, (r < shape0 image)%nat -> (c < shape1 image)%nat ->
                            item image r c <= M).
  { intros r c Hr Hc. apply list_max_upper, in_flat. exists r, c. auto. }
  assert (Hreach : M <> 0 ->
                   exists r c, (r < shape0 image)%nat /\ (c < shape1 image)%nat
                               /\ M = item image r c).
  { intros HM. destruct (list_max_in (flat image)) as [E | E]; [contradiction|].
    apply in_flat in E. exact E. }
  assert (Hmain : extract_mask sheet name idx x y w h
                  = Ok (mask_of (peak M) image name idx)).
  { destruct (M >? 0) eqn:Epos.
    - assert (Hm : exists m, extract_mask sheet name idx x y w h = Ok (Some m)).
      { unfold extract_mask. cbv zeta. fold image.
        rewrite (amax_nonempty image H0 H1). cbn [bind]. fold M. rewrite Epos.
        eexists. reflexivity. }
      destruct Hm as (m & Hm). rewrite Hm.
      apply extract_mask_some in Hm. cbv zeta in Hm. fold image in Hm.
      destruct Hm as (lft & rgt & top & bot & F0 & L0 & F1 & L1 & Hpos & ->).
      unfold mask_of.
      rewrite (peak_box image M lft rgt top bot Hup (Hreach ltac:(lia)) ltac:(lia)
                        F0 L0 F1 L1).
      reflexivity.
    - unfold extract_mask. cbv zeta. fold image.
      rewrite (amax_nonempty image H0 H1). cbn [bind]. fold M. rewrite Epos.
      unfold mask_of. rewrite bounding_box_never; [reflexivity|].
      intros v. unfold peak. replace (0 <? M) with false by lia. reflexivity. }
  split; [exact Hmain | split].
  - intros HM. rewrite Hmain. unfold mask_of.
    rewrite bounding_box_never; [reflexivity|].
    intros v. unfold peak. replace (0 <? M) with false by lia. reflexivity.
  - intros Huni. rewrite Hmain. unfold mask_of.
    rewrite (bounding_box_ext (peak M) nonzero image); [reflexivity|].
    intros r c Hr Hc.
    unfold peak, nonzero.
    pose proof (Hnn r c Hr Hc). pose proof (Hup r c Hr Hc).
    destruct (item image r c =? 0) eqn:Ez.
    + apply Z.eqb_eq in Ez. cbn [negb].
      destruct (0 <? M) eqn:EM; [|reflexivity]. cbn [andb].
      apply Z.eqb_neq. lia.
    + apply Z.eqb_neq in Ez. cbn [negb].
      destruct (Hreach ltac:(lia)) as (r' & c' & Hr' & Hc' & E).
      assert (item image r c = M).
      { rewrite E. apply Huni; try assumption. lia. }
      apply andb_true_iff. split; [apply Z.ltb_lt; lia | apply Z.eqb_eq; assumption].
Qed.

Lemma mask_extraction_witness :
  let image := mask_image ramp3 0 0 3 1 in
  let M := list_max (flat image) in
  extract_mask ramp3 "s" 0 0 0 3 1 = Ok (mask_of (peak M) image "s" 0)
  /\ (M = 0 -> extract_mask ramp3 "s" 0 0 0 3 1 = Ok None)
  /\ (uniform image ->
      extract_mask ramp3 "s" 0 0 0 3 1 = Ok (mask_of nonzero image "s" 0)).
Proof.
  apply (mask_extraction ramp3 "s" 0 0 0 3 1).
  - apply buffer_okb_sound. vm_compute. reflexivity.
  - vm_compute. discriminate.
  - vm_compute. discriminate.
Defined.

(** C6, as stated, fails on a region whose nonzero values differ: for the
    values 1, 2, 0 in a row, [argmax] finds the single column of the
    value 2, while the nonzero values span two columns. *)
Lemma mask_extraction_counterexample : ~ mask_claim ramp3 0 0 3 1.
Proof.
  intros H. specialize (H "s"%string 0). vm_compute in H. discriminate H.
Qed.

Example mask_ramp3 :
  extract_mask ramp3 "s" 0 0 0 3 1 = Ok (Some (Mask.mk "s" 0 (1, 1) 1 1))
  /\ mask_of nonzero (mask_image ramp3 0 0 3 1) "s" 0
     = Some (Mask.mk "s" 0 (0, 1) 2 1).
Proof. split; vm_compute; reflexivity. Qed.

(** ** Layer names *)

Lemma for_each_app {S A : Type} (body : S -> A -> result S) (l1 l2 : list A) (st : S) :
  for_each body (l1 ++ l2) st
  = (st' <- for_each body l1 st ;; for_each body l2 st').
Proof.
  revert st. induction l1 as [|a l1 IH]; intros st; cbn [app for_each bind].
  - reflexivity.
  - destruct (body st a) as [st'|e]; cbn [bind]; [apply IH | reflexivity].
Qed.

Lemma process_frame_invalid (sheet : ndarray pixel) (st : sprites_t * masks_t)
      (frame : Frame) :
  invalid_layer (f_layer_name frame) ->
  process_frame sheet st frame
  = Err (ValueError (invalid_layer_msg (f_layer_name frame))).
Proof.
  intros [Hpre Hne]. unfold process_frame. destruct st as [sprites masks].
  rewrite Hpre. apply String.eqb_neq in Hne. rewrite Hne. reflexivity.
Qed.

Lemma frames_fail (sheet : ndarray pixel) (fs : list Frame) (frame : Frame) :
  In frame fs -> invalid_layer (f_layer_name frame) ->
  forall st, exists e, for_each (process_frame sheet) fs st = Err e.
Proof.
  intros Hin Hinv. induction fs as [|f fs IH]; [destruct Hin|].
  intros st. cbn [for_each]. destruct Hin as [-> | Hin].
  - rewrite process_frame_invalid by exact Hinv. cbn [bind]. eauto.
  - destruct (process_frame sheet st f) as [st'|e]; cbn [bind]; [|eauto].
    apply IH. exact Hin.
Qed.

Lemma files_fail (srcs : list Source) (src : Source) (frame : Frame) :
  In src srcs -> In frame (frames src) -> invalid_layer (f_layer_name frame) ->
  forall st, exists e, for_each process_file srcs st = Err e.
Proof.
  intros Hsrc Hin Hinv. induction srcs as [|s srcs IH]; [destruct Hsrc|].
  intros st. cbn [for_each]. destruct Hsrc as [-> | Hsrc].
  - unfold process_file at 1.
    destruct (existsb (String.eqb _SPRITE_LAYER) (layer_names src)).
    + destruct (frames_fail (src_sheet src) (frames src) frame Hin Hinv st) as [e He].
      rewrite He. cbn [bind]. eauto.
    + cbn [bind]. eauto.
  - destruct (process_file st s) as [st'|e]; cbn [bind]; [|eauto].
    apply IH. exact Hsrc.
Qed.

Lemma run_extract_err (srcs : list Source) (e : error) (fuel : nat) :
  extract srcs = Err e -> run fuel srcs = Err e.
Proof. intros H. unfold run. rewrite H. reflexivity. Qed.

(** C9 (amended). When some frame has a layer name that is neither
    [sprite] nor prefixed by [mask_], extraction fails, and with it the
    run, before any packing: nothing is written.  When the loops reach
    that frame (the files and frames before it were processed and its file
    lists a [sprite] layer), the error is the [ValueError] whose message
    contains the layer name. *)
Theorem invalid_layer_aborts (srcs : list Source) (src : Source) (frame : Frame) :
  In src srcs -> In frame (frames src) -> invalid_layer (f_layer_name frame) ->
  (exists e, extract srcs = Err e /\ forall fuel, run fuel srcs = Err e)
  /\ (forall srcs1 srcs2 fs1 fs2 st st',
        srcs = srcs1 ++ src :: srcs2 -> frames src = fs1 ++ frame :: fs2 ->
        for_each process_file srcs1 ([], []) = Ok st ->
        existsb (String.eqb _SPRITE_LAYER) (layer_names src) = true ->
        for_each (process_frame (src_sheet src)) fs1 st = Ok st' ->
        let e := ValueError (invalid_layer_msg (f_layer_name frame)) in
        extract srcs = Err e /\ forall fuel, run fuel srcs = Err e)
  /\ (exists pre post,
        invalid_layer_msg (f_layer_name frame)
        = (pre ++ f_layer_name frame ++ post)%string).
Proof.
  intros Hsrc Hin Hinv. split; [|split].
  - destruct (files_fail srcs src frame Hsrc Hin Hinv ([], [])) as [e He].
    exists e. split; [exact He|]. intros fuel. apply run_extract_err. exact He.
  - intros srcs1 srcs2 fs1 fs2 st st' Es Ef H1 Hlayer H2 e.
    assert (He : extract srcs = Err e).
    { unfold extract. rewrite Es, for_each_app, H1. cbn [bind for_each].
      unfold process_file at 1. rewrite Hlayer, Ef, for_each_app, H2.
      cbn [bind for_each]. rewrite process_frame_invalid by exact Hinv.
      reflexivity. }
    split; [exact He|]. intros fuel. apply run_extract_err. exact He.
  - eexists. eexists. unfold invalid_layer_msg. reflexivity.
Qed.

Lemma invalid_layer_aborts_witness :
  let srcs := [sprite_and_background] in
  let frame := mkFrame "a" "background" "" 0 1 1 2 2 in
  (exists e, extract srcs = Err e /\ forall fuel, run fuel srcs = Err e)
  /\ (forall srcs1 srcs2 fs1 fs2 st st',
        srcs = srcs1 ++ sprite_and_background :: srcs2 ->
        frames sprite_and_background = fs1 ++ frame :: fs2 ->
        for_each process_file srcs1 ([], []) = Ok st ->
        existsb (String.eqb _SPRITE_LAYER) (layer_names sprite_and_background) = true ->
        for_each (process_frame (src_sheet sprite_and_background)) fs1 st = Ok st' ->
        let e := ValueError (invalid_layer_msg (f_layer_name frame)) in
        extract srcs = Err e /\ forall fuel, run fuel srcs = Err e)
  /\ (exists pre post,
        invalid_layer_msg (f_layer_name frame)
        = (pre ++ f_layer_name frame ++ post)%string).
Proof.
  apply (invalid_layer_aborts [sprite_and_background] sprite_and_background
                              (mkFrame "a" "background" "" 0 1 1 2 2)).
  - simpl. left. reflexivity.
  - simpl. right. left. reflexivity.
  - split; [reflexivity | discriminate].
Defined.

Example layer_error_reached :
  extract [sprite_and_background]
  = Err (ValueError (invalid_layer_msg "background")).
Proof. vm_compute. reflexivity. Qed.

(** C9, as stated, fails for a file that does not list a [sprite] layer:
    the script raises the error about the missing layer first, whose
    message does not name the offending layer. *)
Lemma invalid_layer_counterexample : ~ layer_error_claim [background_only].
Proof.
  intros H.
  destruct H as (src & frame & Hsrc & Hin & _ & He).
  - exists background_only, (mkFrame "a" "background" "" 0 1 1 2 2).
    split; [left; reflexivity|]. split; [left; reflexivity|].
    split; [reflexivity | discriminate].
  - destruct Hsrc as [<- | []]. destruct Hin as [<- | []].
    vm_compute in He. discriminate He.
Qed.

Example layer_error_preempted :
  extract [background_only] = Err (ValueError "a.json is missing the `sprite` layer").
Proof. vm_compute. reflexivity. Qed.

(** ** The packer *)

(** *** Slices that lie inside the array *)

Lemma slice_inside {A : Type} (a : ndarray A) (y0 y1 x0 x1 : Z) :
  0 <= y0 -> y0 <= y1 -> y1 <= Z.of_nat (shape0 a) ->
  0 <= x0 -> x0 <= x1 -> x1 <= Z.of_nat (shape1 a) ->
  slice a y0 y1 x0 x1
  = mkArray (Z.to_nat (y1 - y0)) (Z.to_nat (x1 - x0))
            (fun r c => item a (Z.to_nat y0 + r)%nat (Z.to_nat x0 + c)%nat).
Proof.
  intros. unfold slice.
  rewrite (slice_bounds_inside (shape0 a) y0 y1) by lia.
  rewrite (slice_bounds_inside (shape1 a) x0 x1) by lia.
  reflexivity.
Qed.

Lemma in_rect_nat (x y w h : Z) (r c : nat) :
  0 <= x -> 0 <= y -> 0 <= w -> 0 <= h ->
  ((Z.to_nat y <=? r) && (r <? Z.to_nat y + Z.to_nat h)
   && (Z.to_nat x <=? c) && (c <? Z.to_nat x + Z.to_nat w))%nat
  = in_rect x y w h r c.
Proof.
  intros. unfold in_rect. apply Bool.eq_iff_eq_true.
  rewrite !andb_true_iff, !Nat.leb_le, !Nat.ltb_lt, !Z.leb_le, !Z.ltb_lt. lia.
Qed.

Lemma in_rect_true (x y w h : Z) (r c : nat) :
  in_rect x y w h r c = true
  <-> (y <= Z.of_nat r < y + h /\ x <= Z.of_nat c < x + w).
Proof.
  unfold in_rect. rewrite !andb_true_iff, !Z.leb_le, !Z.ltb_lt. lia.
Qed.

Lemma assign_inside {A B : Type} (put : A -> B -> A) (a : ndarray A)
      (x y w h : Z) (v : ndarray B) :
  0 <= x -> 0 <= y -> 0 <= w -> 0 <= h ->
  x + w <= Z.of_nat (shape1 a) -> y + h <= Z.of_nat (shape0 a) ->
  Z.of_nat (shape0 v) = h -> Z.of_nat (shape1 v) = w ->
  exists a',
    assign put a y (y + h) x (x + w) v = Ok a'
    /\ shape0 a' = shape0 a /\ shape1 a' = shape1 a
    /\ forall r c,
         item a' r c
         = if in_rect x y w h r c
           then put (item a r c) (item v (r - Z.to_nat y)%nat (c - Z.to_nat x)%nat)
           else item a r c.
Proof.
  intros Hx Hy Hw Hh HW HH Ev0 Ev1. unfold assign.
  rewrite (slice_bounds_inside (shape0 a) y (y + h)) by lia.
  rewrite (slice_bounds_inside (shape1 a) x (x + w)) by lia.
  replace (Z.to_nat (y + h - y)) with (Z.to_nat h) by lia.
  replace (Z.to_nat (x + w - x)) with (Z.to_nat w) by lia.
  replace (Z.to_nat h =? shape0 v)%nat with true by (symmetry; apply Nat.eqb_eq; lia).
  replace (Z.to_nat w =? shape1 v)%nat with true by (symmetry; apply Nat.eqb_eq; lia).
  cbn [andb]. eexists. split; [reflexivity|]. cbn [shape0 shape1 item].
  repeat split. intros r c. rewrite in_rect_nat by lia. reflexivity.
Qed.

Lemma fill_inside {A : Type} (put : A -> A) (a : ndarray A) (x y w h : Z) :
  0 <= x -> 0 <= y -> 0 <= w -> 0 <= h ->
  x + w <= Z.of_nat (shape1 a) -> y + h <= Z.of_nat (shape0 a) ->
  shape0 (fill put a y (y + h) x (x + w)) = shape0 a
  /\ shape1 (fill put a y (y + h) x (x + w)) = shape1 a
  /\ forall r c,
       item (fill put a y (y + h) x (x + w)) r c
       = if in_rect x y w h r c then put (item a r c) else item a r c.
Proof.
  intros Hx Hy Hw Hh HW HH. unfold fill.
  rewrite (slice_bounds_inside (shape0 a) y (y + h)) by lia.
  rewrite (slice_bounds_inside (shape1 a) x (x + w)) by lia.
  replace (Z.to_nat (y + h - y)) with (Z.to_nat h) by lia.
  replace (Z.to_nat (x + w - x)) with (Z.to_nat w) by lia.
  cbn [shape0 shape1 item]. repeat split.
  intros r c. rewrite in_rect_nat by lia. reflexivity.
Qed.

(** The growth block returns, and the new sheet holds the old one in its
    top-left corner and zeros elsewhere. *)
Lemma grow_spec (sheet : ndarray cell) (sprite : Sprite.t) :
  exists sheet',
    grow sheet sprite = Ok sheet'
    /\ shape0 sheet' = (shape0 sheet + shape0 (Sprite.image sprite))%nat
    /\ shape1 sheet' = (shape1 sheet + shape1 (Sprite.image sprite))%nat
    /\ extends sheet sheet'.
Proof.
  unfold grow.
  set (new_sheet := zeros zero_cell (shape0 sheet + shape0 (Sprite.image sprite))
                         (shape1 sheet + shape1 (Sprite.image sprite))).
  destruct (assign_inside (fun (_ new : cell) => new) new_sheet 0 0
                          (Z.of_nat (shape1 sheet)) (Z.of_nat (shape0 sheet)) sheet)
    as (a' & Ha & S0 & S1 & Hitem);
    try (cbn [new_sheet zeros shape0 shape1]; lia).
  cbn [Z.add] in Ha. exists a'. split; [exact Ha|].
  split; [exact S0 | split; [exact S1|]].
  unfold extends. rewrite S0, S1. cbn [new_sheet zeros shape0 shape1].
  split; [lia | split; [lia|]].
  intros r c Hr Hc. rewrite Hitem.
  assert (E : in_rect 0 0 (Z.of_nat (shape1 sheet)) (Z.of_nat (shape0 sheet)) r c
              = ((r <? shape0 sheet) && (c <? shape1 sheet))%nat).
  { unfold in_rect. apply Bool.eq_iff_eq_true.
    rewrite !andb_true_iff, !Nat.ltb_lt, !Z.leb_le, !Z.ltb_lt. lia. }
  rewrite E. destruct ((r <? shape0 sheet) && (c <? shape1 sheet))%nat.
  - rewrite !Nat.sub_0_r. reflexivity.
  - reflexivity.
Qed.

(** *** The test of one candidate *)

Lemma candidate_test (sheet : ndarray cell) (x y w h : Z) :
  0 <= x -> 0 <= y -> 0 <= w -> 0 <= h -> sheet_ok sheet ->
  x + w <= Z.of_nat (shape1 sheet) -> y + h <= Z.of_nat (shape0 sheet) ->
  (0 < w -> 0 < h ->
   exists m, amax (amap occ (slice sheet y (y + h) x (x + w))) = Ok m)
  /\ (forall m, amax (amap occ (slice sheet y (y + h) x (x + w))) = Ok m ->
      0 < w /\ 0 < h
      /\ (m = 0 <-> forall r c, in_rect x y w h r c = true ->
                                occ (item sheet r c) = 0)).
Proof.
  intros Hx Hy Hw Hh Hok HW HH.
  rewrite (slice_inside sheet y (y + h) x (x + w)) by lia.
  replace (Z.to_nat (y + h - y)) with (Z.to_nat h) by lia.
  replace (Z.to_nat (x + w - x)) with (Z.to_nat w) by lia.
  set (R := amap occ _).
  assert (S0 : shape0 R = Z.to_nat h) by reflexivity.
  assert (S1 : shape1 R = Z.to_nat w) by reflexivity.
  assert (Hitem : forall r c,
             item R r c = occ (item sheet (Z.to_nat y + r)%nat (Z.to_nat x + c)%nat))
    by reflexivity.
  clearbody R. split.
  - intros Hw' Hh'. exists (list_max (flat R)). apply amax_nonempty; lia.
  - intros m Hm. apply amax_ok in Hm as (N0 & N1 & ->).
    split; [lia | split; [lia|]]. split.
    + intros Hmax r c Hin. apply in_rect_true in Hin.
      assert (Hle : item R (r - Z.to_nat y)%nat (c - Z.to_nat x)%nat
                    <= list_max (flat R)).
      { apply list_max_upper, in_flat.
        exists (r - Z.to_nat y)%nat, (c - Z.to_nat x)%nat. repeat split; lia. }
      rewrite Hitem in Hle.
      replace (Z.to_nat y + (r - Z.to_nat y))%nat with r in Hle by lia.
      replace (Z.to_nat x + (c - Z.to_nat x))%nat with c in Hle by lia.
      specialize (Hok r c ltac:(lia) ltac:(lia)). lia.
    + intros Hzero. apply list_max_zero. intros v Hv.
      apply in_flat in Hv as (r & c & Hr & Hc & ->). rewrite Hitem.
      apply Hzero. apply in_rect_true. lia.
Qed.

Lemma sprite_w_nonneg (s : Sprite.t) : 0 <= Sprite.w s.
Proof. unfold Sprite.w. lia. Qed.

Lemma sprite_h_nonneg (s : Sprite.t) : 0 <= Sprite.h s.
Proof. unfold Sprite.h. lia. Qed.

(** *** The scan of the candidate list *)

Section Scan.

Variable sheet : ndarray cell.
Variable sprite : Sprite.t.
Hypothesis sheet_fine : sheet_ok sheet.

Lemma scan_head (x y : Z) (tls : list (Z * Z)) (i : nat) :
  0 <= x -> 0 <= y ->
  (scan sheet sprite ((x, y) :: tls) i = Ok (Some i)
   /\ 0 < Sprite.w sprite /\ 0 < Sprite.h sprite /\ admits sheet sprite x y)
  \/ (scan sheet sprite ((x, y) :: tls) i = scan sheet sprite tls (S i)
      /\ ~ admits sheet sprite x y)
  \/ (exists e, scan sheet sprite ((x, y) :: tls) i = Err e
                /\ ~ (0 < Sprite.w sprite /\ 0 < Sprite.h sprite)).
Proof.
  intros Hx Hy. cbn [scan]. unfold admits.
  pose proof (sprite_w_nonneg sprite) as Hw. pose proof (sprite_h_nonneg sprite) as Hh.
  destruct ((Z.of_nat (shape1 sheet) >? x + Sprite.w sprite)
            && (Z.of_nat (shape0 sheet) >? y + Sprite.h sprite)) eqn:Eb.
  - apply andb_true_iff in Eb as [Eb1 Eb2].
    destruct (candidate_test sheet x y (Sprite.w sprite) (Sprite.h sprite)
                             Hx Hy Hw Hh sheet_fine ltac:(lia) ltac:(lia))
      as [Hex Htest].
    destruct (amax (amap occ (slice sheet y (y + Sprite.h sprite)
                                    x (x + Sprite.w sprite)))) as [m|e] eqn:Em;
      cbn [bind].
    + destruct (Htest m eq_refl) as (Hw0 & Hh0 & Hm).
      destruct (m =? 0) eqn:Ez.
      * left. split; [reflexivity|]. split; [exact Hw0|]. split; [exact Hh0|].
        split; [lia|]. split; [lia|]. apply Hm. lia.
      * right. left. split; [reflexivity|].
        intros (_ & _ & Hfree). apply Hm in Hfree. lia.
    + right. right. exists e. split; [reflexivity|].
      intros [Hw0 Hh0]. destruct (Hex Hw0 Hh0) as [m Hm]. discriminate Hm.
  - right. left. split; [reflexivity|]. intros (Hb1 & Hb2 & _). lia.
Qed.

Lemma scan_some (tls : list (Z * Z)) :
  (forall x y, In (x, y) tls -> 0 <= x /\ 0 <= y) ->
  forall i k, scan sheet sprite tls i = Ok (Some k) ->
  exists x y,
    (i <= k)%nat /\ nth_error tls (k - i) = Some (x, y)
    /\ 0 < Sprite.w sprite /\ 0 < Sprite.h sprite /\ admits sheet sprite x y
    /\ forall j x' y', (j < k - i)%nat -> nth_error tls j = Some (x', y') ->
                       ~ admits sheet sprite x' y'.
Proof.
  induction tls as [|[x y] tls IH]; intros Hnn i k Hscan; [discriminate|].
  destruct (Hnn x y (or_introl eq_refl)) as [Hx Hy].
  assert (Hnn' : forall x y, In (x, y) tls -> 0 <= x /\ 0 <= y)
    by (intros x' y' Hin; apply Hnn; right; exact Hin).
  destruct (scan_head x y tls i Hx Hy)
    as [(E & Hw0 & Hh0 & Had) | [(E & Hno) | (e & E & _)]];
    rewrite E in Hscan; [| |discriminate].
  - inversion Hscan. subst k. exists x, y. rewrite Nat.sub_diag. cbn [nth_error].
    split; [lia|]. split; [reflexivity|]. split; [exact Hw0|]. split; [exact Hh0|].
    split; [exact Had|]. intros j x' y' Hj. lia.
  - destruct (IH Hnn' (S i) k Hscan)
      as (x0 & y0 & Hik & Hnth & Hw0 & Hh0 & Had & Hbefore).
    exists x0, y0. replace (k - i)%nat with (S (k - S i)) by lia. cbn [nth_error].
    split; [lia|]. split; [exact Hnth|]. split; [exact Hw0|]. split; [exact Hh0|].
    split; [exact Had|].
    intros [|j] x' y' Hj Hnth'; cbn [nth_error] in Hnth'.
    + inversion Hnth'. subst. exact Hno.
    + apply (Hbefore j x' y'); [lia | exact Hnth'].
Qed.

Lemma scan_none (tls : list (Z * Z)) :
  (forall x y, In (x, y) tls -> 0 <= x /\ 0 <= y) ->
  forall i, scan sheet sprite tls i = Ok None ->
  forall x y, In (x, y) tls -> ~ admits sheet sprite x y.
Proof.
  induction tls as [|[x y] tls IH]; intros Hnn i Hscan x0 y0 Hin; [destruct Hin|].
  destruct (Hnn x y (or_introl eq_refl)) as [Hx Hy].
  assert (Hnn' : forall x y, In (x, y) tls -> 0 <= x /\ 0 <= y)
    by (intros x' y' Hin'; apply Hnn; right; exact Hin').
  destruct (scan_head x y tls i Hx Hy)
    as [(E & _) | [(E & Hno) | (e & E & _)]];
    rewrite E in Hscan; [discriminate| |discriminate].
  destruct Hin as [E' | Hin].
  - inversion E'. subst. exact Hno.
  - apply (IH Hnn' (S i) Hscan x0 y0 Hin).
Qed.

Lemma scan_total (tls : list (Z * Z)) :
  (forall x y, In (x, y) tls -> 0 <= x /\ 0 <= y) ->
  0 < Sprite.w sprite -> 0 < Sprite.h sprite ->
  forall i, exists res, scan sheet sprite tls i = Ok res.
Proof.
  intros Hnn Hw0 Hh0. induction tls as [|[x y] tls IH]; intros i.
  - exists None. reflexivity.
  - destruct (Hnn x y (or_introl eq_refl)) as [Hx Hy].
    assert (Hnn' : forall x y, In (x, y) tls -> 0 <= x /\ 0 <= y)
      by (intros x' y' Hin'; apply Hnn; right; exact Hin').
    destruct (scan_head x y tls i Hx Hy)
      as [(E & _) | [(E & Hno) | (e & E & Hbad)]]; rewrite E.
    + eexists. reflexivity.
    + apply IH. exact Hnn'.
    + exfalso. apply Hbad. split; assumption.
Qed.

End Scan.

Lemma fits_strict_admits (sheet : ndarray cell) (sprite : Sprite.t) (x y : Z) :
  0 <= x -> 0 <= y ->
  fits_strict sheet sprite (x, y) = true <-> admits sheet sprite x y.
Proof.
  intros Hx Hy. unfold fits_strict, admits.
  pose proof (sprite_w_nonneg sprite) as Hw. pose proof (sprite_h_nonneg sprite) as Hh.
  rewrite !andb_true_iff, !Z.ltb_lt.
  assert (Hcells :
    forallb (fun r => forallb (fun c => occ (item sheet r c) =? 0)
                              (seq (Z.to_nat x) (Z.to_nat (Sprite.w sprite))))
            (seq (Z.to_nat y) (Z.to_nat (Sprite.h sprite))) = true
    <-> (forall r c, in_rect x y (Sprite.w sprite) (Sprite.h sprite) r c = true ->
                     occ (item sheet r c) = 0)).
  { rewrite forallb_forall. split.
    - intros Hall r c Hin. apply in_rect_true in Hin.
      specialize (Hall r ltac:(apply in_seq; lia)).
      rewrite forallb_forall in Hall.
      specialize (Hall c ltac:(apply in_seq; lia)). apply Z.eqb_eq. exact Hall.
    - intros Hall r Hr. apply in_seq in Hr. apply forallb_forall.
      intros c Hc. apply in_seq in Hc. apply Z.eqb_eq, Hall, in_rect_true. lia. }
  rewrite Hcells. tauto.
Qed.

(** C4 (amended). For a sprite of positive width and height, the scan
    returns the index of the first candidate, in list order, whose
    footprint ends strictly before the canvas's last column and last row
    ([cx + w < width], [cy + h < height]) and whose occupancy values are
    all zero. *)
Theorem scan_first_fit (sheet : ndarray cell) (sprite : Sprite.t)
        (tls : list (Z * Z)) :
  sheet_ok sheet ->
  (forall x y, In (x, y) tls -> 0 <= x /\ 0 <= y) ->
  0 < Sprite.w sprite -> 0 < Sprite.h sprite ->
  scan sheet sprite tls 0 = Ok (first_index (fits_strict sheet sprite) tls 0)
  /\ forall x y, 0 <= x -> 0 <= y ->
       (fits_strict sheet sprite (x, y) = true
        <-> x + Sprite.w sprite < Z.of_nat (shape1 sheet)
            /\ y + Sprite.h sprite < Z.of_nat (shape0 sheet)
            /\ forall r c, in_rect x y (Sprite.w sprite) (Sprite.h sprite) r c = true ->
                           occ (item sheet r c) = 0).
Proof.
  intros Hok Hnn Hw0 Hh0. split; [|intros x y Hx Hy; apply fits_strict_admits; assumption].
  generalize 0%nat as i. revert Hnn.
  induction tls as [|[x y] tls IH]; intros Hnn i; [reflexivity|].
  destruct (Hnn x y (or_introl eq_refl)) as [Hx Hy].
  assert (Hnn' : forall x y, In (x, y) tls -> 0 <= x /\ 0 <= y)
    by (intros x' y' Hin'; apply Hnn; right; exact Hin').
  cbn [first_index].
  destruct (scan_head sheet sprite Hok x y tls i Hx Hy)
    as [(E & _ & _ & Had) | [(E & Hno) | (e & E & Hbad)]]; rewrite E.
  - apply fits_strict_admits in Had; [|assumption|assumption]. rewrite Had. reflexivity.
  - destruct (fits_strict sheet sprite (x, y)) eqn:Ef.
    + apply fits_strict_admits in Ef; [contradiction|assumption|assumption].
    + apply IH. exact Hnn'.
  - exfalso. apply Hbad. split; assumption.
Qed.

Lemma zeros_ok (h w : nat) : sheet_ok (zeros zero_cell h w).
Proof. intros r c _ _. cbn. lia. Qed.

Lemma origin_nonneg (x y : Z) : In (x, y) [(0, 0)] -> 0 <= x /\ 0 <= y.
Proof. intros [E | []]. inversion E. lia. Qed.

Lemma scan_first_fit_witness :
  let sheet := zeros zero_cell 4 4 in
  let sprite := sprite_of "a" 2 2 in
  scan sheet sprite [(0, 0)] 0
  = Ok (first_index (fits_strict sheet sprite) [(0, 0)] 0)
  /\ forall x y, 0 <= x -> 0 <= y ->
       (fits_strict sheet sprite (x, y) = true
        <-> x + Sprite.w sprite < Z.of_nat (shape1 sheet)
            /\ y + Sprite.h sprite < Z.of_nat (shape0 sheet)
            /\ forall r c, in_rect x y (Sprite.w sprite) (Sprite.h sprite) r c = true ->
                           occ (item sheet r c) = 0).
Proof.
  apply (scan_first_fit (zeros zero_cell 4 4) (sprite_of "a" 2 2) [(0, 0)]).
  - apply zeros_ok.
  - apply origin_nonneg.
  - vm_compute. reflexivity.
  - vm_compute. reflexivity.
Defined.

(** C4, as stated, fails for a footprint that ends exactly at the edge:
    on the empty 2x2 sheet the candidate (0, 0) holds a 2x2 sprite within
    the bounds, and the scan rejects it. *)
Lemma scan_first_fit_counterexample :
  ~ first_fit_claim (zeros zero_cell 2 2) (sprite_of "a" 2 2) [(0, 0)].
Proof. unfold first_fit_claim. vm_compute. discriminate. Qed.

Example scan_at_the_edge :
  scan (zeros zero_cell 2 2) (sprite_of "a" 2 2) [(0, 0)] 0 = Ok None
  /\ fits_spec (zeros zero_cell 2 2) (sprite_of "a" 2 2) (0, 0) = true
  /\ scan (zeros zero_cell 3 3) (sprite_of "a" 2 2) [(0, 0)] 0 = Ok (Some 0%nat).
Proof. repeat split; vm_compute; reflexivity. Qed.

(** *** Growth *)

Lemma extends_refl (sheet : ndarray cell) : extends sheet sheet.
Proof.
  unfold extends. split; [lia | split; [lia|]]. intros r c Hr Hc.
  apply Nat.ltb_lt in Hr, Hc. rewrite Hr, Hc. reflexivity.
Qed.

Lemma extends_trans (a b c : ndarray cell) :
  extends a b -> extends b c -> extends a c.
Proof.
  intros (A0 & A1 & A) (B0 & B1 & B). unfold extends.
  split; [lia | split; [lia|]]. intros r c' Hr Hc. rewrite (B r c' Hr Hc).
  destruct (r <? shape0 b)%nat eqn:E0; destruct (c' <? shape1 b)%nat eqn:E1; cbn [andb].
  - apply Nat.ltb_lt in E0, E1. apply (A r c' E0 E1).
  - apply Nat.ltb_ge in E1.
    replace (c' <? shape1 a)%nat with false by (symmetry; apply Nat.ltb_ge; lia).
    rewrite andb_false_r. reflexivity.
  - apply Nat.ltb_ge in E0.
    replace (r <? shape0 a)%nat with false by (symmetry; apply Nat.ltb_ge; lia).
    reflexivity.
  - apply Nat.ltb_ge in E0.
    replace (r <? shape0 a)%nat with false by (symmetry; apply Nat.ltb_ge; lia).
    reflexivity.
Qed.

(** In a grown sheet a cell holds its old value or is empty. *)
Lemma extends_occ (a b : ndarray cell) (r c : nat) :
  extends a b -> (r < shape0 b)%nat -> (c < shape1 b)%nat ->
  ((r < shape0 a)%nat /\ (c < shape1 a)%nat /\ item b r c = item a r c)
  \/ (~ ((r < shape0 a)%nat /\ (c < shape1 a)%nat) /\ occ (item b r c) = 0).
Proof.
  intros (_ & _ & E) Hr Hc. rewrite (E r c Hr Hc).
  destruct (Nat.ltb_spec r (shape0 a)) as [E0 | E0];
    destruct (Nat.ltb_spec c (shape1 a)) as [E1 | E1]; cbn [andb].
  - left. split; [exact E0 | split; [exact E1 | reflexivity]].
  - right. split; [lia | reflexivity].
  - right. split; [lia | reflexivity].
  - right. split; [lia | reflexivity].
Qed.

Lemma extends_ok (a b : ndarray cell) : sheet_ok a -> extends a b -> sheet_ok b.
Proof.
  intros Hok Hext r c Hr Hc.
  destruct (extends_occ a b r c Hext Hr Hc) as [(Hr' & Hc' & E) | (_ & E)].
  - rewrite E. apply Hok; assumption.
  - rewrite E. lia.
Qed.

Lemma extends_free (a b : ndarray cell) (x : Z) :
  free_from a x -> extends a b -> free_from b x.
Proof.
  intros Hfree Hext r c Hr Hc Hocc.
  destruct (extends_occ a b r c Hext Hr Hc) as [(Hr' & Hc' & E) | (_ & E)].
  - rewrite E in Hocc. apply (Hfree r c Hr' Hc' Hocc).
  - congruence.
Qed.

(** A candidate right of every occupied cell is admitted as soon as the
    sheet is large enough. *)
Lemma free_admits (sheet : ndarray cell) (sprite : Sprite.t) (x y : Z) :
  0 <= x -> 0 <= y -> free_from sheet x ->
  x + Sprite.w sprite < Z.of_nat (shape1 sheet) ->
  y + Sprite.h sprite < Z.of_nat (shape0 sheet) ->
  admits sheet sprite x y.
Proof.
  intros Hx Hy Hfree HW HH. split; [exact HW | split; [exact HH|]].
  intros r c Hin. apply in_rect_true in Hin.
  destruct (Z.eq_dec (occ (item sheet r c)) 0) as [E | E]; [exact E|].
  specialize (Hfree r c ltac:(lia) ltac:(lia) E). lia.
Qed.

(** *** The while loop *)

Section FindTl.

Variable sprite : Sprite.t.
Variable tls : list (Z * Z).
Hypothesis tls_nonneg : forall x y, In (x, y) tls -> 0 <= x /\ 0 <= y.

(** When the loop returns: the sheet has grown [k] times by the sprite's
    size, the scan admits the returned index on it, and [k] is the least
    number of growth steps that makes a candidate fit. *)
Lemma find_tl_sound (fuel : nat) :
  forall sheet i sheet1,
    sheet_ok sheet ->
    find_tl fuel sheet sprite tls = Ok (i, sheet1) ->
    exists k : nat,
      shape0 sheet1 = (shape0 sheet + k * shape0 (Sprite.image sprite))%nat
      /\ shape1 sheet1 = (shape1 sheet + k * shape1 (Sprite.image sprite))%nat
      /\ extends sheet sheet1 /\ sheet_ok sheet1
      /\ scan sheet1 sprite tls 0 = Ok (Some i)
      /\ forall cx cy,
           In (cx, cy) tls -> free_from sheet cx ->
           k = 0%nat
           \/ Z.of_nat (shape1 sheet) + (Z.of_nat k - 1) * Sprite.w sprite
              <= cx + Sprite.w sprite
           \/ Z.of_nat (shape0 sheet) + (Z.of_nat k - 1) * Sprite.h sprite
              <= cy + Sprite.h sprite.
Proof.
  induction fuel as [|fuel IH]; intros sheet i sheet1 Hok Hfind; cbn [find_tl] in Hfind.
  - destruct (scan sheet sprite tls 0) as [[j|]|e] eqn:Escan; cbn [bind] in Hfind;
      try discriminate.
    inversion Hfind. subst. exists 0%nat.
    split; [lia | split; [lia|]]. split; [apply extends_refl|].
    split; [exact Hok|]. split; [exact Escan|]. intros. left. reflexivity.
  - destruct (scan sheet sprite tls 0) as [[j|]|e] eqn:Escan; cbn [bind] in Hfind;
      try discriminate.
    + inversion Hfind. subst. exists 0%nat.
      split; [lia | split; [lia|]]. split; [apply extends_refl|].
      split; [exact Hok|]. split; [exact Escan|]. intros. left. reflexivity.
    + destruct (grow_spec sheet sprite) as (sheet' & Hgrow & S0 & S1 & Hext).
      rewrite Hgrow in Hfind. cbn [bind] in Hfind.
      pose proof (extends_ok sheet sheet' Hok Hext) as Hok'.
      destruct (IH sheet' i sheet1 Hok' Hfind)
        as (k & K0 & K1 & Hext1 & Hok1 & Hscan1 & Hmin).
      exists (S k). split; [lia | split; [lia|]].
      split; [apply (extends_trans sheet sheet' sheet1); assumption|].
      split; [exact Hok1|]. split; [exact Hscan1|].
      intros cx cy Hin Hfree. right.
      destruct (tls_nonneg cx cy Hin) as [Hcx Hcy].
      destruct (Hmin cx cy Hin (extends_free sheet sheet' cx Hfree Hext))
        as [-> | [Hb | Hb]].
      * pose proof (scan_none sheet sprite Hok tls tls_nonneg 0 Escan cx cy Hin) as Hno.
        destruct (Z_lt_le_dec (cx + Sprite.w sprite) (Z.of_nat (shape1 sheet)))
          as [HW | HW]; [|left; lia].
        destruct (Z_lt_le_dec (cy + Sprite.h sprite) (Z.of_nat (shape0 sheet)))
          as [HH | HH]; [|right; lia].
        exfalso. apply Hno. apply free_admits; assumption.
      * left. unfold Sprite.w in *. rewrite S1 in Hb. lia.
      * right. unfold Sprite.h in *. rewrite S0 in Hb. lia.
Qed.

(** The loop returns when the fuel covers the growth steps that make a
    free candidate fit. *)
Lemma find_tl_total (cx cy : Z) :
  0 < Sprite.w sprite -> 0 < Sprite.h sprite -> In (cx, cy) tls ->
  forall (n : nat) sheet fuel,
    sheet_ok sheet -> free_from sheet cx ->
    cx + Sprite.w sprite < Z.of_nat (shape1 sheet) + Z.of_nat n * Sprite.w sprite ->
    cy + Sprite.h sprite < Z.of_nat (shape0 sheet) + Z.of_nat n * Sprite.h sprite ->
    (n <= fuel)%nat ->
    exists i sheet1, find_tl fuel sheet sprite tls = Ok (i, sheet1).
Proof.
  intros Hw Hh Hin. destruct (tls_nonneg cx cy Hin) as [Hcx Hcy].
  induction n as [|n IH]; intros sheet fuel Hok Hfree HW HH Hfuel.
  - assert (Had : admits sheet sprite cx cy) by (apply free_admits; assumption || lia).
    destruct (scan_total sheet sprite Hok tls tls_nonneg Hw Hh 0) as [[j|] Hres].
    + exists j, sheet. destruct fuel; cbn [find_tl]; rewrite Hres; reflexivity.
    + exfalso. apply (scan_none sheet sprite Hok tls tls_nonneg 0 Hres cx cy Hin Had).
  - destruct (scan_total sheet sprite Hok tls tls_nonneg Hw Hh 0) as [[j|] Hres].
    + exists j, sheet. destruct fuel; cbn [find_tl]; rewrite Hres; reflexivity.
    + destruct fuel as [|fuel]; [lia|]. cbn [find_tl]. rewrite Hres. cbn [bind].
      destruct (grow_spec sheet sprite) as (sheet' & Hgrow & S0 & S1 & Hext).
      rewrite Hgrow. cbn [bind].
      apply IH.
      * apply (extends_ok sheet sheet' Hok Hext).
      * apply (extends_free sheet sheet' cx Hfree Hext).
      * unfold Sprite.w in *. rewrite S1. lia.
      * unfold Sprite.h in *. rewrite S0. lia.
      * lia.
Qed.

End FindTl.

(** *** One placement *)

Lemma in_pop {A : Type} (l : list A) :
  forall (i : nat) (p q : A),
    In p l -> nth_error l i = Some q ->
    p = q \/ In p (firstn i l ++ skipn (S i) l).
Proof.
  induction l as [|a l IH]; intros i p q Hin Hnth; [destruct Hin|].
  destruct i as [|i]; cbn [nth_error firstn skipn app] in *.
  - inversion Hnth. subst. destruct Hin as [-> | Hin]; [left; reflexivity | right; exact Hin].
  - destruct Hin as [-> | Hin]; [right; left; reflexivity|].
    destruct (IH i p q Hin Hnth) as [-> | H]; [left; reflexivity | right; right; exact H].
Qed.

Lemma pop_subset {A : Type} (l : list A) :
  forall (i : nat) (p : A), In p (firstn i l ++ skipn (S i) l) -> In p l.
Proof.
  induction l as [|a l IH]; intros i p H.
  - destruct i; cbn in H; exact H.
  - destruct i as [|i]; cbn [firstn skipn app] in H.
    + right. exact H.
    + destruct H as [-> | H]; [left; reflexivity | right; apply (IH i p H)].
Qed.

Lemma nth_error_snoc {A : Type} (l : list A) (a b : A) (i : nat) :
  nth_error (l ++ [a]) i = Some b ->
  ((i < length l)%nat /\ nth_error l i = Some b) \/ (i = length l /\ b = a).
Proof.
  intros H. destruct (Nat.lt_ge_cases i (length l)) as [Hi | Hi].
  - left. rewrite nth_error_app1 in H by exact Hi. auto.
  - right. rewrite nth_error_app2 in H by exact Hi.
    destruct (i - length l)%nat as [|d] eqn:Ed; cbn [nth_error] in H.
    + inversion H. split; [lia | reflexivity].
    + destruct d; discriminate H.
Qed.

(** The two writes of a placement: the shape is kept, the footprint is
    marked and nothing else changes on the occupancy plane. *)
Lemma stamp_spec (sheet1 : ndarray cell) (sprite : Sprite.t) (x y : Z) :
  0 <= x -> 0 <= y ->
  x + Sprite.w sprite <= Z.of_nat (shape1 sheet1) ->
  y + Sprite.h sprite <= Z.of_nat (shape0 sheet1) ->
  exists sheet2,
    assign (fun old new => mkCell new (occ old)) sheet1
           y (y + Sprite.h sprite) x (x + Sprite.w sprite) (Sprite.image sprite)
    = Ok sheet2
    /\ let sheet3 := fill (fun old => mkCell (color old) 1) sheet2
                          y (y + Sprite.h sprite) x (x + Sprite.w sprite) in
       shape0 sheet3 = shape0 sheet1 /\ shape1 sheet3 = shape1 sheet1
       /\ forall r c,
            occ (item sheet3 r c)
            = if in_rect x y (Sprite.w sprite) (Sprite.h sprite) r c then 1
              else occ (item sheet1 r c).
Proof.
  intros Hx Hy HW HH.
  pose proof (sprite_w_nonneg sprite) as Hw. pose proof (sprite_h_nonneg sprite) as Hh.
  destruct (assign_inside (fun (old : cell) (new : pixel) => mkCell new (occ old))
                          sheet1 x y (Sprite.w sprite) (Sprite.h sprite)
                          (Sprite.image sprite) Hx Hy Hw Hh HW HH eq_refl eq_refl)
    as (sheet2 & Ha & S0 & S1 & Hitem).
  exists sheet2. split; [exact Ha|]. cbv zeta.
  destruct (fill_inside (fun old : cell => mkCell (color old) 1) sheet2 x y
                        (Sprite.w sprite) (Sprite.h sprite) Hx Hy Hw Hh
                        ltac:(lia) ltac:(lia))
    as (F0 & F1 & Fitem).
  split; [congruence | split; [congruence|]].
  intros r c. rewrite Fitem, Hitem.
  destruct (in_rect x y (Sprite.w sprite) (Sprite.h sprite) r c); reflexivity.
Qed.

Lemma covers_placed (sprite : Sprite.t) (x y : Z) (r c : nat) :
  covers (Sprite.set_tl sprite (x, y)) (Z.of_nat c) (Z.of_nat r)
  <-> in_rect x y (Sprite.w sprite) (Sprite.h sprite) r c = true.
Proof.
  rewrite in_rect_true. unfold covers, Sprite.set_tl, Sprite.w, Sprite.h.
  cbn [Sprite.tl Sprite.image fst snd]. lia.
Qed.

Lemma inv_init : packer_inv packer_init.
Proof.
  constructor; cbn [packer_init tls_to_try placed sheet zeros shape0 shape1].
  - apply origin_nonneg.
  - intros s [].
  - intros r c Hr. lia.
  - intros s r c [].
  - intros r c Hr. lia.
  - intros i j s1 s2 _ H. destruct i; discriminate H.
  - exists 0, 0. split; [left; reflexivity | intros s []].
Qed.

Lemma inv_sheet_ok (st : packer) : packer_inv st -> sheet_ok (sheet st).
Proof.
  intros Hinv r c Hr Hc. destruct (inv_range st Hinv r c Hr Hc) as [E | E]; rewrite E; lia.
Qed.

Lemma inv_free_from (st : packer) (x : Z) :
  packer_inv st -> (forall s, In s (placed st) -> right_edge s <= x) ->
  free_from (sheet st) x.
Proof.
  intros Hinv Hright r c Hr Hc Hocc.
  destruct (Z_lt_le_dec (Z.of_nat c) x) as [Hlt | Hge]; [exact Hlt|].
  exfalso. apply Hocc. apply (inv_clear st Hinv r c Hr Hc).
  intros s Hs [Hcov _]. specialize (Hright s Hs). unfold right_edge in Hright. lia.
Qed.

(** Growth keeps the invariant. *)
Lemma inv_extends (st : packer) (sheet1 : ndarray cell) :
  packer_inv st -> extends (sheet st) sheet1 ->
  packer_inv (mkPacker sheet1 (tls_to_try st) (placed st)).
Proof.
  intros Hinv Hext. pose proof Hext as (E0 & E1 & _).
  constructor; cbn [sheet tls_to_try placed].
  - apply (inv_tls st Hinv).
  - intros s Hs. destruct (inv_inside st Hinv s Hs) as (A & B & C & D).
    repeat split; lia.
  - intros r c Hr Hc.
    destruct (extends_occ (sheet st) sheet1 r c Hext Hr Hc) as [(Hr' & Hc' & E) | (_ & E)].
    + rewrite E. apply (inv_range st Hinv); assumption.
    + left. exact E.
  - intros s r c Hs Hcov.
    destruct (inv_inside st Hinv s Hs) as (A & B & C & D).
    unfold covers, right_edge, bottom_edge in *.
    destruct (extends_occ (sheet st) sheet1 r c Hext ltac:(lia) ltac:(lia))
      as [(Hr' & Hc' & E) | (Hout & _)].
    + rewrite E. apply (inv_marked st Hinv s r c Hs Hcov).
    + exfalso. apply Hout. lia.
  - intros r c Hr Hc Hno.
    destruct (extends_occ (sheet st) sheet1 r c Hext Hr Hc) as [(Hr' & Hc' & E) | (_ & E)].
    + rewrite E. apply (inv_clear st Hinv r c Hr' Hc' Hno).
    + exact E.
  - apply (inv_disjoint st Hinv).
  - apply (inv_free st Hinv).
Qed.

(** Placing a sprite at an admitted candidate keeps the invariant. *)
Lemma inv_stamp (sheet1 sheet3 : ndarray cell) (tls : list (Z * Z))
      (done : list Sprite.t) (sprite : Sprite.t) (i : nat) (x y : Z) :
  packer_inv (mkPacker sheet1 tls done) ->
  nth_error tls i = Some (x, y) ->
  admits sheet1 sprite x y ->
  shape0 sheet3 = shape0 sheet1 -> shape1 sheet3 = shape1 sheet1 ->
  (forall r c,
     occ (item sheet3 r c)
     = if in_rect x y (Sprite.w sprite) (Sprite.h sprite) r c then 1
       else occ (item sheet1 r c)) ->
  packer_inv (mkPacker sheet3
                ((firstn i tls ++ skipn (S i) tls)
                 ++ Sprite.get_neighbor_tls (Sprite.set_tl sprite (x, y)))
                (done ++ [Sprite.set_tl sprite (x, y)])).
Proof.
  intros Hinv Hnth (HW & HH & Hfree) S0 S1 Hocc.
  pose proof (sprite_w_nonneg sprite) as Hw. pose proof (sprite_h_nonneg sprite) as Hh.
  assert (Hxy : 0 <= x /\ 0 <= y)
    by (apply (inv_tls _ Hinv); cbn [tls_to_try]; apply (nth_error_In _ _ Hnth)).
  destruct Hxy as [Hx Hy].
  set (s' := Sprite.set_tl sprite (x, y)).
  assert (Hw' : Sprite.w s' = Sprite.w sprite) by reflexivity.
  assert (Hh' : Sprite.h s' = Sprite.h sprite) by reflexivity.
  assert (Hnew : forall s, In s (done ++ [s']) -> In s done \/ s = s').
  { intros s Hs. apply in_app_or in Hs as [Hs | [<- | []]]; auto. }
  constructor; cbn [sheet tls_to_try placed].
  - intros a b Hin. apply in_app_or in Hin as [Hin | Hin].
    + apply (inv_tls _ Hinv). cbn [tls_to_try]. apply (pop_subset tls i _ Hin).
    + unfold Sprite.get_neighbor_tls, Sprite.bl, Sprite.tr in Hin.
      cbn [s' Sprite.set_tl Sprite.tl fst snd In] in Hin. rewrite Hw', Hh' in Hin.
      destruct Hin as [E | [E | []]]; inversion E; lia.
  - intros s Hs. rewrite S0, S1. destruct (Hnew s Hs) as [Hs' | ->].
    + apply (inv_inside _ Hinv s Hs').
    + unfold right_edge, bottom_edge. rewrite Hw', Hh'.
      cbn [s' Sprite.set_tl Sprite.tl fst snd]. lia.
  - intros r c Hr Hc. rewrite Hocc.
    destruct (in_rect x y (Sprite.w sprite) (Sprite.h sprite) r c); [right; reflexivity|].
    apply (inv_range _ Hinv); cbn [sheet]; lia.
  - intros s r c Hs Hcov. rewrite Hocc.
    destruct (in_rect x y (Sprite.w sprite) (Sprite.h sprite) r c) eqn:Ein;
      [reflexivity|].
    destruct (Hnew s Hs) as [Hs' | ->].
    + apply (inv_marked _ Hinv s r c Hs' Hcov).
    + apply covers_placed in Hcov. congruence.
  - intros r c Hr Hc Hno. rewrite Hocc.
    destruct (in_rect x y (Sprite.w sprite) (Sprite.h sprite) r c) eqn:Ein.
    + exfalso. apply (Hno s'); [apply in_or_app; right; left; reflexivity|].
      apply covers_placed. exact Ein.
    + apply (inv_clear _ Hinv r c); cbn [sheet placed]; try lia.
      intros s Hs. apply Hno. apply in_or_app. left. exact Hs.
  - assert (Hold : forall s, In s done -> disjoint s s').
    { intros s Hs X Y [Hc1 Hc2].
      destruct (inv_inside _ Hinv s Hs) as (A & B & _ & _). cbn [sheet] in *.
      assert (EX : X = Z.of_nat (Z.to_nat X)) by (unfold covers in Hc1; lia).
      assert (EY : Y = Z.of_nat (Z.to_nat Y)) by (unfold covers in Hc1; lia).
      rewrite EX, EY in Hc1, Hc2.
      pose proof (inv_marked _ Hinv s _ _ Hs Hc1) as Hone. cbn [sheet] in Hone.
      apply covers_placed in Hc2. rewrite (Hfree _ _ Hc2) in Hone. discriminate Hone. }
    intros i1 i2 s1 s2 Hne H1 H2.
    apply nth_error_snoc in H1 as [[L1 H1] | [L1 ->]];
      apply nth_error_snoc in H2 as [[L2 H2] | [L2 ->]].
    + apply (inv_disjoint _ Hinv i1 i2 s1 s2 Hne H1 H2).
    + apply Hold. apply (nth_error_In _ _ H1).
    + intros X Y [Hc1 Hc2]. apply (Hold s2 (nth_error_In _ _ H2) X Y). auto.
    + lia.
  - destruct (inv_free _ Hinv) as (cx & cy & Hin & Hright).
    cbn [tls_to_try placed] in Hin, Hright.
    destruct (Z_le_gt_dec (x + Sprite.w sprite + 1) cx) as [Hle | Hgt].
    + exists cx, cy. split.
      * apply in_or_app. left.
        destruct (in_pop tls i (cx, cy) (x, y) Hin Hnth) as [E | Hin']; [|exact Hin'].
        inversion E. lia.
      * intros s Hs. destruct (Hnew s Hs) as [Hs' | ->]; [apply Hright, Hs'|].
        unfold right_edge. rewrite Hw'. cbn [s' Sprite.set_tl Sprite.tl fst]. lia.
    + exists (x + Sprite.w sprite + 1), y. split.
      * apply in_or_app. right.
        unfold Sprite.get_neighbor_tls, Sprite.bl, Sprite.tr. rewrite Hw', Hh'.
        cbn [s' Sprite.set_tl Sprite.tl fst snd]. right. left. reflexivity.
      * intros s Hs. destruct (Hnew s Hs) as [Hs' | ->].
        -- specialize (Hright s Hs'). lia.
        -- unfold right_edge. rewrite Hw'. cbn [s' Sprite.set_tl Sprite.tl fst]. lia.
Qed.

(** What one pass of the [for sprite in flat_sprites] loop does. *)
Lemma place_spec (fuel : nat) (st st' : packer) (sprite : Sprite.t) :
  packer_inv st -> place fuel st sprite = Ok st' ->
  exists (x y : Z) (k : nat),
    In (x, y) (tls_to_try st)
    /\ 0 < Sprite.w sprite /\ 0 < Sprite.h sprite
    /\ packer_inv st'
    /\ placed st' = placed st ++ [Sprite.set_tl sprite (x, y)]
    /\ shape0 (sheet st') = (shape0 (sheet st) + k * shape0 (Sprite.image sprite))%nat
    /\ shape1 (sheet st') = (shape1 (sheet st) + k * shape1 (Sprite.image sprite))%nat
    /\ (forall p, In p (tls_to_try st') ->
                  In p (tls_to_try st)
                  \/ p = (x, y + Sprite.h sprite + 1)
                  \/ p = (x + Sprite.w sprite + 1, y))
    /\ (forall cx cy,
          In (cx, cy) (tls_to_try st) -> free_from (sheet st) cx ->
          k = 0%nat
          \/ Z.of_nat (shape1 (sheet st)) + (Z.of_nat k - 1) * Sprite.w sprite
             <= cx + Sprite.w sprite
          \/ Z.of_nat (shape0 (sheet st)) + (Z.of_nat k - 1) * Sprite.h sprite
             <= cy + Sprite.h sprite).
Proof.
  intros Hinv Hplace. unfold place in Hplace.
  destruct (find_tl fuel (sheet st) sprite (tls_to_try st)) as [[i sheet1]|e] eqn:Efind;
    cbn [bind] in Hplace; [|discriminate].
  destruct (find_tl_sound sprite (tls_to_try st) (inv_tls st Hinv) fuel
                          (sheet st) i sheet1 (inv_sheet_ok st Hinv) Efind)
    as (k & K0 & K1 & Hext & Hok1 & Hscan & Hmin).
  destruct (scan_some sheet1 sprite Hok1 (tls_to_try st) (inv_tls st Hinv) 0 i Hscan)
    as (x & y & _ & Hnth & Hw0 & Hh0 & Had & _).
  rewrite Nat.sub_0_r in Hnth.
  unfold pop in Hplace. rewrite Hnth in Hplace. cbn [bind] in Hplace.
  destruct (inv_tls st Hinv x y (nth_error_In _ _ Hnth)) as [Hx Hy].
  pose proof Had as (HW & HH & _).
  destruct (stamp_spec sheet1 sprite x y Hx Hy ltac:(lia) ltac:(lia))
    as (sheet2 & Hassign & Hstamp).
  change (Sprite.w (Sprite.set_tl sprite (x, y))) with (Sprite.w sprite) in Hplace.
  change (Sprite.h (Sprite.set_tl sprite (x, y))) with (Sprite.h sprite) in Hplace.
  change (Sprite.image (Sprite.set_tl sprite (x, y))) with (Sprite.image sprite) in Hplace.
  rewrite Hassign in Hplace. cbn [bind] in Hplace.
  cbv zeta in Hstamp. destruct Hstamp as (S0 & S1 & Hocc).
  inversion Hplace as [Est]. clear Hplace.
  exists x, y, k. cbn [sheet tls_to_try placed].
  split; [apply (nth_error_In _ _ Hnth)|].
  split; [exact Hw0|]. split; [exact Hh0|].
  split.
  { apply (inv_stamp sheet1 _ (tls_to_try st) (placed st) sprite i x y); try assumption.
    apply (inv_extends st sheet1 Hinv Hext). }
  split; [reflexivity|].
  split; [rewrite S0; exact K0|]. split; [rewrite S1; exact K1|].
  split.
  { intros p Hp. apply in_app_or in Hp as [Hp | Hp].
    - left. apply (pop_subset _ i p Hp).
    - right. unfold Sprite.get_neighbor_tls, Sprite.bl, Sprite.tr in Hp.
      change (Sprite.w (Sprite.set_tl sprite (x, y))) with (Sprite.w sprite) in Hp.
      change (Sprite.h (Sprite.set_tl sprite (x, y))) with (Sprite.h sprite) in Hp.
      cbn [Sprite.set_tl Sprite.tl fst snd In] in Hp.
      destruct Hp as [<- | [<- | []]]; auto. }
  exact Hmin.
Qed.

(** *** The steps of one placement *)

Lemma place_steps (fuel : nat) (st st' : packer) (sprite : Sprite.t) :
  place fuel st sprite = Ok st' ->
  exists i sheet1 x y sheet2,
    find_tl fuel (sheet st) sprite (tls_to_try st) = Ok (i, sheet1)
    /\ nth_error (tls_to_try st) i = Some (x, y)
    /\ assign (fun old new => mkCell new (occ old)) sheet1
              y (y + Sprite.h sprite) x (x + Sprite.w sprite) (Sprite.image sprite)
       = Ok sheet2
    /\ st' = mkPacker
               (fill (fun old => mkCell (color old) 1) sheet2
                     y (y + Sprite.h sprite) x (x + Sprite.w sprite))
               ((firstn i (tls_to_try st) ++ skipn (S i) (tls_to_try st))
                ++ [(x, y + Sprite.h sprite + 1); (x + Sprite.w sprite + 1, y)])
               (placed st ++ [Sprite.set_tl sprite (x, y)]).
Proof.
  intros Hplace. unfold place in Hplace.
  destruct (find_tl fuel (sheet st) sprite (tls_to_try st)) as [[i sheet1]|e] eqn:Efind;
    cbn [bind] in Hplace; [|discriminate].
  unfold pop in Hplace.
  destruct (nth_error (tls_to_try st) i) as [[x y]|] eqn:Enth; cbn [bind] in Hplace;
    [|discriminate].
  change (Sprite.w (Sprite.set_tl sprite (x, y))) with (Sprite.w sprite) in Hplace.
  change (Sprite.h (Sprite.set_tl sprite (x, y))) with (Sprite.h sprite) in Hplace.
  change (Sprite.image (Sprite.set_tl sprite (x, y))) with (Sprite.image sprite) in Hplace.
  destruct (assign _ sheet1 _ _ _ _ _) as [sheet2|e] eqn:Eassign; cbn [bind] in Hplace;
    [|discriminate].
  injection Hplace as <-.
  exists i, sheet1, x, y, sheet2.
  split; [reflexivity|]. split; [exact Enth|]. split; [exact Eassign|].
  reflexivity.
Qed.

(** *** What the sheet holds *)

Lemma content_init : content_inv packer_init.
Proof. intros r c Hr. cbn in Hr. lia. Qed.

Lemma content_place (fuel : nat) (st st' : packer) (sprite : Sprite.t) :
  packer_inv st -> content_inv st -> place fuel st sprite = Ok st' ->
  content_inv st'.
Proof.
  intros Hinv Hcontent Hplace.
  destruct (place_steps fuel st st' sprite Hplace)
    as (i & sheet1 & x & y & sheet2 & Efind & Hnth & Eassign & ->).
  destruct (find_tl_sound sprite (tls_to_try st) (inv_tls st Hinv) fuel
                          (sheet st) i sheet1 (inv_sheet_ok st Hinv) Efind)
    as (k & _ & _ & Hext & Hok1 & Hscan & _).
  destruct (scan_some sheet1 sprite Hok1 (tls_to_try st) (inv_tls st Hinv) 0 i Hscan)
    as (x0 & y0 & _ & Hnth0 & Hw0 & Hh0 & Had & _).
  rewrite Nat.sub_0_r, Hnth in Hnth0. inversion Hnth0. subst x0 y0. clear Hnth0.
  destruct (inv_tls st Hinv x y (nth_error_In _ _ Hnth)) as [Hx Hy].
  destruct Had as (HW & HH & Hfree).
  pose proof (inv_extends st sheet1 Hinv Hext) as Hinv1.
  destruct (assign_inside (fun (old : cell) (new : pixel) => mkCell new (occ old))
                          sheet1 x y (Sprite.w sprite) (Sprite.h sprite)
                          (Sprite.image sprite) Hx Hy ltac:(lia) ltac:(lia)
                          ltac:(lia) ltac:(lia) eq_refl eq_refl)
    as (a' & Ha & S0 & S1 & Hitem).
  rewrite Eassign in Ha. injection Ha as <-.
  destruct (fill_inside (fun old : cell => mkCell (color old) 1) sheet2 x y
                        (Sprite.w sprite) (Sprite.h sprite) Hx Hy
                        ltac:(lia) ltac:(lia) ltac:(lia) ltac:(lia))
    as (F0 & F1 & Fitem).
  intros r c Hr Hc. cbn [sheet placed] in *. rewrite F0, S0 in Hr. rewrite F1, S1 in Hc.
  rewrite Fitem, Hitem.
  assert (Hnew : forall s, In s (placed st ++ [Sprite.set_tl sprite (x, y)]) ->
                           In s (placed st) \/ s = Sprite.set_tl sprite (x, y)).
  { intros s Hs. apply in_app_or in Hs as [Hs | [<- | []]]; auto. }
  destruct Hext as (E0 & E1 & Eitem).
  destruct (in_rect x y (Sprite.w sprite) (Sprite.h sprite) r c) eqn:Ein.
  - split.
    + intros s Hs Hcov. destruct (Hnew s Hs) as [Hold | ->].
      * pose proof (inv_marked _ Hinv1 s r c Hold Hcov) as Hone. cbn [sheet] in Hone.
        rewrite (Hfree r c Ein) in Hone. discriminate Hone.
      * reflexivity.
    + intros Hno. exfalso.
      apply (Hno (Sprite.set_tl sprite (x, y))).
      * apply in_or_app. right. left. reflexivity.
      * apply covers_placed. exact Ein.
  - rewrite (Eitem r c Hr Hc). split.
    + intros s Hs Hcov. destruct (Hnew s Hs) as [Hold | ->].
      * destruct (inv_inside st Hinv s Hold) as (A & B & C & D).
        unfold covers, right_edge, bottom_edge in *.
        replace (r <? shape0 (sheet st))%nat with true
          by (symmetry; apply Nat.ltb_lt; lia).
        replace (c <? shape1 (sheet st))%nat with true
          by (symmetry; apply Nat.ltb_lt; lia).
        cbn [andb]. apply (Hcontent r c); try lia; assumption.
      * apply covers_placed in Hcov. congruence.
    + intros Hno.
      destruct ((r <? shape0 (sheet st)) && (c <? shape1 (sheet st)))%nat eqn:Eold;
        [|reflexivity].
      apply andb_true_iff in Eold as [Er Ec]. apply Nat.ltb_lt in Er, Ec.
      apply (Hcontent r c Er Ec). intros s Hs. apply Hno. apply in_or_app. left. exact Hs.
Qed.

Lemma content_from (fuel : nat) (sprites : list Sprite.t) :
  forall st st',
    packer_inv st -> content_inv st ->
    for_each (place fuel) sprites st = Ok st' -> content_inv st'.
Proof.
  induction sprites as [|s sprites IH]; intros st st' Hinv Hc Hrun; cbn [for_each] in Hrun.
  - inversion Hrun. subst. exact Hc.
  - destruct (place fuel st s) as [st1|e] eqn:E1; cbn [bind] in Hrun; [|discriminate].
    destruct (place_spec fuel st st1 s Hinv E1) as (x & y & k & _ & _ & _ & Hinv1 & _).
    apply (IH st1 st' Hinv1 (content_place fuel st st1 s Hinv Hc E1) Hrun).
Qed.

(** *** The growth loop *)

Lemma find_tl_grows (sprite : Sprite.t) (tls : list (Z * Z)) :
  (forall x y, In (x, y) tls -> 0 <= x /\ 0 <= y) ->
  forall fuel sheet0 i sheet1,
    sheet_ok sheet0 ->
    find_tl fuel sheet0 sprite tls = Ok (i, sheet1) ->
    exists k, (k <= fuel)%nat /\ grows_to sprite tls sheet0 k sheet1.
Proof.
  intros Htls.
  assert (Hstop : forall sheet0 i, sheet_ok sheet0 ->
            scan sheet0 sprite tls 0 = Ok (Some i) ->
            grows_to sprite tls sheet0 0 sheet0).
  { intros sheet0 i Hok Escan. apply grows_done.
    destruct (scan_some sheet0 sprite Hok tls Htls 0 i Escan)
      as (x & y & _ & Hnth & _ & _ & Had & _).
    exists x, y. split; [apply (nth_error_In _ _ Hnth) | exact Had]. }
  induction fuel as [|fuel IH]; intros sheet0 i sheet1 Hok Hfind; cbn [find_tl] in Hfind.
  - destruct (scan sheet0 sprite tls 0) as [[j|]|e] eqn:Escan; cbn [bind] in Hfind;
      try discriminate.
    injection Hfind as <- <-. exists 0%nat. split; [lia|].
    apply (Hstop sheet0 j Hok Escan).
  - destruct (scan sheet0 sprite tls 0) as [[j|]|e] eqn:Escan; cbn [bind] in Hfind;
      try discriminate.
    + injection Hfind as <- <-. exists 0%nat. split; [lia|].
      apply (Hstop sheet0 j Hok Escan).
    + destruct (grow_spec sheet0 sprite) as (sheet' & Hgrow & S0 & S1 & Hext).
      rewrite Hgrow in Hfind. cbn [bind] in Hfind.
      destruct (IH sheet' i sheet1 (extends_ok sheet0 sheet' Hok Hext) Hfind)
        as (k & Hk & Hg).
      exists (S k). split; [lia|].
      apply (grows_more sprite tls sheet0 sheet' sheet1 k).
      * intros (x & y & Hin & Had).
        apply (scan_none sheet0 sprite Hok tls Htls 0 Escan x y Hin Had).
      * split; [exact Hgrow|]. split; assumption.
      * exact Hg.
Qed.

(** The loop stops at the latest when a free candidate fits. *)
Lemma grows_to_bound (sprite : Sprite.t) (tls : list (Z * Z)) (cx cy : Z) :
  0 <= cx -> 0 <= cy -> In (cx, cy) tls ->
  forall sheet0 k sheet1,
    grows_to sprite tls sheet0 k sheet1 ->
    forall n : nat,
      free_from sheet0 cx ->
      cx + Sprite.w sprite < Z.of_nat (shape1 sheet0) + Z.of_nat n * Sprite.w sprite ->
      cy + Sprite.h sprite < Z.of_nat (shape0 sheet0) + Z.of_nat n * Sprite.h sprite ->
      (k <= n)%nat.
Proof.
  intros Hcx Hcy Hin sheet0 k sheet1 Hg.
  induction Hg as [sheet0 Had | sheet0 sheet' sheet1 k Hno (Hgrow & S0 & S1) Hg IH];
    intros n Hfree HW HH; [lia|].
  destruct n as [|n].
  - exfalso. apply Hno. exists cx, cy. split; [exact Hin|].
    apply free_admits; try assumption; lia.
  - apply le_n_S. apply IH.
    + destruct (grow_spec sheet0 sprite) as (sheet'' & Hgrow' & _ & _ & Hext).
      rewrite Hgrow in Hgrow'. injection Hgrow' as <-.
      apply (extends_free sheet0 sheet' cx Hfree Hext).
    + rewrite S1. unfold Sprite.w in *. lia.
    + rewrite S0. unfold Sprite.h in *. lia.
Qed.

Lemma place_grows (fuel : nat) (st st' : packer) (sprite : Sprite.t) :
  packer_inv st -> place fuel st sprite = Ok st' ->
  exists k, placement_step sprite st st' k.
Proof.
  intros Hinv Hplace.
  destruct (place_steps fuel st st' sprite Hplace)
    as (i & sheet1 & x & y & sheet2 & Efind & Hnth & Eassign & ->).
  destruct (find_tl_grows sprite (tls_to_try st) (inv_tls st Hinv) fuel
                          (sheet st) i sheet1 (inv_sheet_ok st Hinv) Efind)
    as (k & _ & Hg).
  destruct (find_tl_sound sprite (tls_to_try st) (inv_tls st Hinv) fuel
                          (sheet st) i sheet1 (inv_sheet_ok st Hinv) Efind)
    as (k' & _ & _ & _ & Hok1 & Hscan & _).
  destruct (scan_some sheet1 sprite Hok1 (tls_to_try st) (inv_tls st Hinv) 0 i Hscan)
    as (x0 & y0 & _ & Hnth0 & Hw0 & Hh0 & Had & _).
  rewrite Nat.sub_0_r, Hnth in Hnth0. inversion Hnth0. subst x0 y0. clear Hnth0.
  destruct (inv_tls st Hinv x y (nth_error_In _ _ Hnth)) as [Hx Hy].
  pose proof Had as (HW & HH & _).
  destruct (assign_inside (fun (old : cell) (new : pixel) => mkCell new (occ old))
                          sheet1 x y (Sprite.w sprite) (Sprite.h sprite)
                          (Sprite.image sprite) Hx Hy ltac:(lia) ltac:(lia)
                          ltac:(lia) ltac:(lia) eq_refl eq_refl)
    as (a' & Ha & S0 & S1 & _).
  rewrite Eassign in Ha. injection Ha as <-.
  destruct (fill_inside (fun old : cell => mkCell (color old) 1) sheet2 x y
                        (Sprite.w sprite) (Sprite.h sprite) Hx Hy
                        ltac:(lia) ltac:(lia) ltac:(lia) ltac:(lia))
    as (F0 & F1 & _).
  exists k, sheet1, x, y. cbn [sheet placed tls_to_try].
  split; [exact Hg|]. split; [apply (nth_error_In _ _ Hnth)|].
  split; [exact Had|]. split; [reflexivity|].
  split; congruence.
Qed.

(** *** The whole packing loop *)

Lemma sum_map_nonneg {A : Type} (f : A -> Z) (l : list A) :
  (forall a, 0 <= f a) -> 0 <= sum (map f l).
Proof.
  intros Hf. induction l as [|a l IH]; unfold sum in *; cbn [map fold_right]; [lia|].
  specialize (Hf a). lia.
Qed.

Lemma sum_map_snoc {A : Type} (f : A -> Z) (l : list A) (a : A) :
  sum (map f (l ++ [a])) = sum (map f l) + f a.
Proof. rewrite map_app, sum_app. cbn [map]. rewrite sum_single. reflexivity. Qed.

Lemma sum_map_app {A : Type} (f : A -> Z) (l l' : list A) :
  sum (map f (l ++ l')) = sum (map f l) + sum (map f l').
Proof. rewrite map_app, sum_app. reflexivity. Qed.

Lemma totals_nonneg (l : list Sprite.t) :
  0 <= total_w l /\ 0 <= total_h l /\ 0 <= gaps_w l /\ 0 <= gaps_h l.
Proof.
  unfold total_w, total_h, gaps_w, gaps_h.
  repeat split; apply sum_map_nonneg; intros s;
    pose proof (sprite_w_nonneg s); pose proof (sprite_h_nonneg s); lia.
Qed.

Lemma bounds_init : within_bounds packer_init.
Proof.
  unfold within_bounds. cbn [packer_init tls_to_try placed sheet zeros shape0 shape1].
  split; [|split; vm_compute; discriminate].
  intros x y [E | []]. inversion E. vm_compute. split; discriminate.
Qed.

(** One placement takes at most two growth steps: a candidate that is
    free and not beyond the canvas fits once the canvas has grown twice. *)
Lemma growth_steps (k : nat) (W H w h cx cy : Z) :
  0 < w -> 0 < h -> cx <= W -> cy <= H ->
  (k = 0%nat
   \/ W + (Z.of_nat k - 1) * w <= cx + w
   \/ H + (Z.of_nat k - 1) * h <= cy + h) ->
  (k <= 2)%nat.
Proof.
  intros Hw Hh Hcx Hcy [-> | [Hb | Hb]]; [lia | |];
    (destruct (le_gt_dec k 2) as [Hle | Hgt]; [exact Hle | exfalso; nia]).
Qed.

Lemma place_bounds (fuel : nat) (st st' : packer) (sprite : Sprite.t) :
  packer_inv st -> within_bounds st -> place fuel st sprite = Ok st' ->
  within_bounds st'.
Proof.
  intros Hinv (Btls & BW & BH) Hplace.
  destruct (place_spec fuel st st' sprite Hinv Hplace)
    as (x & y & k & Hin & Hw & Hh & Hinv' & Hplaced & K0 & K1 & Htls & Hmin).
  destruct (inv_free st Hinv) as (cx & cy & Hc & Hright).
  destruct (Btls cx cy Hc) as [Bcx Bcy].
  pose proof (growth_steps k _ _ _ _ cx cy Hw Hh Bcx Bcy
                (Hmin cx cy Hc (inv_free_from st cx Hinv Hright))) as Hk.
  assert (Hnew : In (Sprite.set_tl sprite (x, y)) (placed st'))
    by (rewrite Hplaced; apply in_or_app; right; left; reflexivity).
  destruct (inv_inside st' Hinv' _ Hnew) as (_ & _ & Hr & Hb).
  unfold right_edge, bottom_edge in Hr, Hb.
  cbn [Sprite.tl Sprite.set_tl fst snd] in Hr, Hb.
  change (Sprite.w (Sprite.set_tl sprite (x, y))) with (Sprite.w sprite) in Hr.
  change (Sprite.h (Sprite.set_tl sprite (x, y))) with (Sprite.h sprite) in Hb.
  unfold within_bounds. rewrite Hplaced.
  unfold total_w, total_h in *. rewrite !sum_map_snoc.
  change (Sprite.w (Sprite.set_tl sprite (x, y))) with (Sprite.w sprite).
  change (Sprite.h (Sprite.set_tl sprite (x, y))) with (Sprite.h sprite).
  split; [|split].
  - intros a b Hab. destruct (Htls (a, b) Hab) as [Hold | [E | E]].
    + destruct (Btls a b Hold). rewrite K0, K1. lia.
    + inversion E. subst. lia.
    + inversion E. subst. lia.
  - rewrite K1. unfold Sprite.w in *. nia.
  - rewrite K0. unfold Sprite.h in *. nia.
Qed.

Lemma pack_from (fuel : nat) (sprites : list Sprite.t) :
  forall st st',
    packer_inv st -> within_bounds st ->
    for_each (place fuel) sprites st = Ok st' ->
    packer_inv st' /\ within_bounds st'
    /\ exists new, placed st' = placed st ++ new /\ Forall2 placement_of sprites new.
Proof.
  induction sprites as [|s sprites IH]; intros st st' Hinv Hb Hrun; cbn [for_each] in Hrun.
  - inversion Hrun. subst. split; [exact Hinv|]. split; [exact Hb|].
    exists []. rewrite app_nil_r. split; [reflexivity | constructor].
  - destruct (place fuel st s) as [st1|e] eqn:Eplace; cbn [bind] in Hrun; [|discriminate].
    pose proof (place_bounds fuel st st1 s Hinv Hb Eplace) as Hb1.
    destruct (place_spec fuel st st1 s Hinv Eplace)
      as (x & y & k & _ & _ & _ & Hinv1 & Hplaced & _).
    destruct (IH st1 st' Hinv1 Hb1 Hrun) as (Hinv' & Hb' & new & Hnew & Hall).
    split; [exact Hinv'|]. split; [exact Hb'|].
    exists (Sprite.set_tl s (x, y) :: new). split.
    + rewrite Hnew, Hplaced, <- app_assoc. reflexivity.
    + constructor; [exists (x, y); reflexivity | exact Hall].
Qed.

Lemma pack_spec (fuel : nat) (sprites : list Sprite.t) (st : packer) :
  pack fuel sprites = Ok st ->
  packer_inv st /\ within_bounds st /\ Forall2 placement_of sprites (placed st).
Proof.
  intros Hrun. unfold pack in Hrun.
  destruct (pack_from fuel sprites packer_init st inv_init bounds_init Hrun)
    as (Hinv & Hb & new & Hnew & Hall).
  cbn [packer_init placed app] in Hnew.
  split; [exact Hinv|]. split; [exact Hb | rewrite Hnew; exact Hall].
Qed.

Lemma placement_sums (sprites done : list Sprite.t) :
  Forall2 placement_of sprites done ->
  total_w done = total_w sprites /\ total_h done = total_h sprites
  /\ gaps_w done = gaps_w sprites /\ gaps_h done = gaps_h sprites.
Proof.
  unfold total_w, total_h, gaps_w, gaps_h, sum.
  induction 1 as [|s p sprites done [tl ->] _ IH]; cbn [map fold_right].
  - repeat split.
  - destruct IH as (A & B & C & D). rewrite A, B, C, D. repeat split.
Qed.

(** C1. In every state the packer reaches (after the sprites of any
    prefix of the input have been placed), the footprints of any two
    distinct placed sprites are disjoint; every footprint lies inside the
    sheet and is marked on the occupancy plane. *)
Theorem placed_disjoint (fuel : nat) (sprites : list Sprite.t) (st : packer) :
  pack fuel sprites = Ok st ->
  Forall2 placement_of sprites (placed st)
  /\ pairwise_disjoint (placed st)
  /\ (forall s r c, In s (placed st) -> covers s (Z.of_nat c) (Z.of_nat r) ->
        (r < shape0 (sheet st))%nat /\ (c < shape1 (sheet st))%nat
        /\ occ (item (sheet st) r c) = 1)
  /\ (forall before rest, sprites = before ++ rest ->
        exists st1, pack fuel before = Ok st1 /\ pairwise_disjoint (placed st1)).
Proof.
  intros Hrun. destruct (pack_spec fuel sprites st Hrun) as (Hinv & _ & Hall).
  split; [exact Hall|]. split; [apply (inv_disjoint st Hinv)|]. split.
  - intros s r c Hs Hcov.
    destruct (inv_inside st Hinv s Hs) as (A & B & C & D).
    unfold covers, right_edge, bottom_edge in *.
    split; [lia | split; [lia|]]. apply (inv_marked st Hinv s r c Hs Hcov).
  - intros before rest ->. unfold pack in Hrun. rewrite for_each_app in Hrun.
    destruct (for_each (place fuel) before packer_init) as [st1|e] eqn:E1;
      cbn [bind] in Hrun; [|discriminate].
    exists st1. split; [exact E1|].
    destruct (pack_spec fuel before st1 E1) as (Hinv1 & _).
    apply (inv_disjoint st1 Hinv1).
Qed.

Lemma placed_disjoint_witness :
  let st := packed 10 two_sprites in
  Forall2 placement_of two_sprites (placed st)
  /\ pairwise_disjoint (placed st)
  /\ (forall s r c, In s (placed st) -> covers s (Z.of_nat c) (Z.of_nat r) ->
        (r < shape0 (sheet st))%nat /\ (c < shape1 (sheet st))%nat
        /\ occ (item (sheet st) r c) = 1)
  /\ (forall before rest, two_sprites = before ++ rest ->
        exists st1, pack 10 before = Ok st1 /\ pairwise_disjoint (placed st1)).
Proof.
  apply (placed_disjoint 10 two_sprites (packed 10 two_sprites)).
  vm_compute. reflexivity.
Defined.

(** The example of the specification: the 4x4 sprite goes to (0, 0), the
    2x2 sprite to (0, 5), and the candidates left are (5, 0), (0, 8) and
    (3, 5); the canvas is 8x8. *)
Example pack_two_sprites :
  let st := packed 10 two_sprites in
  map Sprite.tl (placed st) = [(0, 0); (0, 5)]
  /\ tls_to_try st = [(5, 0); (0, 8); (3, 5)]
  /\ (shape0 (sheet st), shape1 (sheet st)) = (8%nat, 8%nat).
Proof. vm_compute. repeat split. Qed.

(** C8 (amended). The canvas of a run that returns is at most twice as
    wide as the sum of the sprites' widths and at most twice as high as
    the sum of their heights. *)
Theorem canvas_bound (fuel : nat) (sprites : list Sprite.t) (st : packer) :
  pack fuel sprites = Ok st ->
  Z.of_nat (shape1 (sheet st)) <= 2 * total_w sprites
  /\ Z.of_nat (shape0 (sheet st)) <= 2 * total_h sprites.
Proof.
  intros Hrun. destruct (pack_spec fuel sprites st Hrun) as (_ & (_ & BW & BH) & Hall).
  destruct (placement_sums sprites (placed st) Hall) as (A & B & _).
  rewrite A in BW. rewrite B in BH. split; assumption.
Qed.

Lemma canvas_bound_witness :
  let st := packed 10 two_sprites in
  Z.of_nat (shape1 (sheet st)) <= 2 * total_w two_sprites
  /\ Z.of_nat (shape0 (sheet st)) <= 2 * total_h two_sprites.
Proof.
  apply (canvas_bound 10 two_sprites (packed 10 two_sprites)).
  vm_compute. reflexivity.
Defined.

(** C8, as stated, fails already for one sprite: a 2x2 sprite ends on a
    4x4 canvas, wider than its width plus one gap. *)
Lemma canvas_bound_counterexample : ~ canvas_bound_claim [sprite_of "a" 2 2].
Proof.
  intros H.
  assert (E : pack 10 [sprite_of "a" 2 2] = Ok (packed 10 [sprite_of "a" 2 2]))
    by (vm_compute; reflexivity).
  destruct (H 10%nat _ E) as [HW _]. vm_compute in HW. apply HW. reflexivity.
Qed.

Example pack_one_sprite :
  let st := packed 10 [sprite_of "a" 2 2] in
  (shape0 (sheet st), shape1 (sheet st)) = (4%nat, 4%nat)
  /\ gaps_w [sprite_of "a" 2 2] = 3.
Proof. vm_compute. split; reflexivity. Qed.

(** *** Termination *)

Lemma place_total (fuel : nat) (st : packer) (sprite : Sprite.t) (i : nat)
      (sheet1 : ndarray cell) :
  packer_inv st ->
  find_tl fuel (sheet st) sprite (tls_to_try st) = Ok (i, sheet1) ->
  exists st', place fuel st sprite = Ok st'.
Proof.
  intros Hinv Efind. unfold place. rewrite Efind. cbn [bind].
  destruct (find_tl_sound sprite (tls_to_try st) (inv_tls st Hinv) fuel
                          (sheet st) i sheet1 (inv_sheet_ok st Hinv) Efind)
    as (k & K0 & K1 & Hext & Hok1 & Hscan & Hmin).
  destruct (scan_some sheet1 sprite Hok1 (tls_to_try st) (inv_tls st Hinv) 0 i Hscan)
    as (x & y & _ & Hnth & Hw0 & Hh0 & Had & _).
  rewrite Nat.sub_0_r in Hnth.
  unfold pop. rewrite Hnth. cbn [bind].
  destruct (inv_tls st Hinv x y (nth_error_In _ _ Hnth)) as [Hx Hy].
  pose proof Had as (HW & HH & _).
  destruct (stamp_spec sheet1 sprite x y Hx Hy ltac:(lia) ltac:(lia))
    as (sheet2 & Hassign & _).
  change (Sprite.w (Sprite.set_tl sprite (x, y))) with (Sprite.w sprite).
  change (Sprite.h (Sprite.set_tl sprite (x, y))) with (Sprite.h sprite).
  change (Sprite.image (Sprite.set_tl sprite (x, y))) with (Sprite.image sprite).
  rewrite Hassign. cbn [bind]. eexists. reflexivity.
Qed.

Lemma pack_total (fuel : nat) (sprites : list Sprite.t) :
  forall st,
    packer_inv st -> within_bounds st ->
    (forall s, In s sprites -> 0 < Sprite.w s /\ 0 < Sprite.h s) ->
    (2 <= fuel)%nat ->
    exists st', for_each (place fuel) sprites st = Ok st'.
Proof.
  induction sprites as [|s sprites IH]; intros st Hinv Hb Hpos Hfuel.
  - exists st. reflexivity.
  - cbn [for_each].
    destruct (Hpos s (or_introl eq_refl)) as [Hw Hh].
    destruct (inv_free st Hinv) as (cx & cy & Hc & Hright).
    pose proof Hb as (Btls & _). destruct (Btls cx cy Hc) as [Bcx Bcy].
    destruct (find_tl_total s (tls_to_try st) (inv_tls st Hinv) cx cy Hw Hh Hc
                            2%nat (sheet st) fuel
                            (inv_sheet_ok st Hinv)
                            (inv_free_from st cx Hinv Hright))
      as (i & sheet1 & Efind); try lia.
    destruct (place_total fuel st s i sheet1 Hinv Efind) as (st1 & Eplace).
    rewrite Eplace. cbn [bind].
    destruct (place_spec fuel st st1 s Hinv Eplace)
      as (x & y & k & _ & _ & _ & Hinv1 & _).
    apply IH.
    + exact Hinv1.
    + apply (place_bounds fuel st st1 s Hinv Hb Eplace).
    + intros s' Hs'. apply Hpos. right. exact Hs'.
    + exact Hfuel.
Qed.

Lemma placed_stand (fuel : nat) (sprites : list Sprite.t) (st : packer) :
  pack fuel sprites = Ok st -> forall p, In p (placed st) -> stands_on st p.
Proof.
  intros Hrun p Hp.
  destruct (pack_spec fuel sprites st Hrun) as (Hinv & _ & _).
  pose proof (content_from fuel sprites packer_init st inv_init content_init Hrun)
    as Hcontent.
  destruct (inv_inside st Hinv p Hp) as (A & B & C & D).
  split; [exact A|]. split; [exact B|]. split; [exact C|]. split; [exact D|].
  intros r c Hcov.
  assert (Hr : (r < shape0 (sheet st))%nat)
    by (unfold covers, bottom_edge in *; lia).
  assert (Hc : (c < shape1 (sheet st))%nat)
    by (unfold covers, right_edge in *; lia).
  apply (proj1 (Hcontent r c Hr Hc) p Hp Hcov).
Qed.

Lemma step_of_the_loop (fuel : nat) (before rest : list Sprite.t) (s : Sprite.t)
      (st : packer) :
  pack fuel (before ++ s :: rest) = Ok st ->
  exists st0 st1 k,
    pack fuel before = Ok st0 /\ place fuel st0 s = Ok st1
    /\ (k <= 2)%nat /\ placement_step s st0 st1 k.
Proof.
  intros Hrun. unfold pack in Hrun. rewrite for_each_app in Hrun.
  destruct (for_each (place fuel) before packer_init) as [st0|e] eqn:E0;
    cbn [bind] in Hrun; [|discriminate].
  cbn [for_each] in Hrun.
  destruct (place fuel st0 s) as [st1|e] eqn:E1; cbn [bind] in Hrun; [|discriminate].
  destruct (pack_spec fuel before st0 E0) as (Hinv & (Btls & _) & _).
  destruct (place_grows fuel st0 st1 s Hinv E1) as (k & Hstep).
  exists st0, st1, k. split; [exact E0|]. split; [exact E1|].
  split; [|exact Hstep].
  destruct Hstep as (sheet1 & x & y & Hg & _).
  destruct (place_spec fuel st0 st1 s Hinv E1) as (_ & _ & _ & _ & Hw & Hh & _).
  destruct (inv_free st0 Hinv) as (cx & cy & Hc & Hright).
  destruct (inv_tls st0 Hinv cx cy Hc) as [Hcx Hcy].
  destruct (Btls cx cy Hc) as [Bcx Bcy].
  apply (grows_to_bound s (tls_to_try st0) cx cy Hcx Hcy Hc (sheet st0) k sheet1 Hg
                        2%nat (inv_free_from st0 cx Hinv Hright)); lia.
Qed.

(** C7. For sprites of positive width and height the packing loop
    returns, whatever its input, as soon as the model allows two growth
    steps per sprite.  Every sprite then stands on the sheet at its
    position: inside the canvas, with its pixels on its footprint.  And
    every pass through the loop body is as described: while no candidate
    admits the sprite the canvas grows by the sprite's height and width,
    after at most two such steps some candidate admits it, and the sprite
    is placed at such a candidate. *)
Theorem pack_terminates (sprites : list Sprite.t) (fuel : nat) :
  (forall s, In s sprites -> 0 < Sprite.w s /\ 0 < Sprite.h s) ->
  (2 <= fuel)%nat ->
  exists st,
    pack fuel sprites = Ok st
    /\ Forall2 placement_of sprites (placed st)
    /\ (forall p, In p (placed st) -> stands_on st p)
    /\ (forall before s rest, sprites = before ++ s :: rest ->
          exists st0 st1 k,
            pack fuel before = Ok st0 /\ place fuel st0 s = Ok st1
            /\ (k <= 2)%nat /\ placement_step s st0 st1 k).
Proof.
  intros Hpos Hfuel.
  destruct (pack_total fuel sprites packer_init inv_init bounds_init Hpos Hfuel)
    as (st & Hrun).
  exists st. split; [exact Hrun|].
  split; [apply (pack_spec fuel sprites st Hrun)|].
  split; [apply (placed_stand fuel sprites st Hrun)|].
  intros before s rest ->. apply (step_of_the_loop fuel before rest s st Hrun).
Qed.

Lemma two_sprites_positive (s : Sprite.t) :
  In s two_sprites -> 0 < Sprite.w s /\ 0 < Sprite.h s.
Proof. intros [<- | [<- | []]]; vm_compute; split; reflexivity. Qed.

Lemma pack_terminates_witness :
  exists st,
    pack 2 two_sprites = Ok st
    /\ Forall2 placement_of two_sprites (placed st)
    /\ (forall p, In p (placed st) -> stands_on st p)
    /\ (forall before s rest, two_sprites = before ++ s :: rest ->
          exists st0 st1 k,
            pack 2 before = Ok st0 /\ place 2 st0 s = Ok st1
            /\ (k <= 2)%nat /\ placement_step s st0 st1 k).
Proof.
  apply (pack_terminates two_sprites 2).
  - apply two_sprites_positive.
  - lia.
Defined.

(** *** Processing order *)

Lemma placement_names (sprites done : list Sprite.t) :
  Forall2 placement_of sprites done ->
  map Sprite.name done = map Sprite.name sprites.
Proof.
  induction 1 as [|s p sprites done [tl ->] _ IH]; cbn [map]; [reflexivity|].
  rewrite IH. reflexivity.
Qed.

(** The loop places the sprites in the order of [flat_sprites]. *)
Lemma pack_in_input_order (fuel : nat) (sprites : list Sprite.t) (st : packer) :
  pack fuel sprites = Ok st ->
  map Sprite.name (placed st) = map Sprite.name sprites.
Proof.
  intros Hrun. destruct (pack_spec fuel sprites st Hrun) as (_ & _ & Hall).
  apply placement_names. exact Hall.
Qed.

(** C3. The script sorts the indices by descending area into [inds] and
    then iterates over [flat_sprites] itself: for a 2x2 sprite extracted
    before a 4x4 sprite, [inds] puts the 4x4 sprite first, and the loop
    places the 2x2 sprite first, at (0, 0), and the 4x4 sprite at (0, 3). *)
Theorem pack_ignores_inds :
  inds small_then_large = [1%nat; 0%nat]
  /\ pack 10 small_then_large = Ok (packed 10 small_then_large)
  /\ map (fun s => (Sprite.name s, Sprite.tl s)) (placed (packed 10 small_then_large))
     = [("b"%string, (0, 0)); ("a"%string, (0, 3))]
  /\ map (fun s => (Sprite.name s, Sprite.tl s)) (placed (packed 10 two_sprites))
     = [("a"%string, (0, 0)); ("b"%string, (0, 5))].
Proof. repeat split; vm_compute; reflexivity. Qed.

(** ** A whole run *)

(** The sprite is cropped with its border (4x4), placed at (0, 0) on an
    8x8 canvas and emitted with its authored size at (1, 1); the mask is
    the single opaque pixel of the region, moved down by one. *)
Example run_dot :
  match run 10 [dot_source] with
  | Ok out =>
      out_size out = (8, 8)
      /\ out_frames out
         = [("dot"%string,
             [mkFrameMeta (mkMeta "dot" 1 1 2 2 0)
                          [("hit"%string, mkMeta "dot" 1 2 1 1 0)]])]
  | Err _ => False
  end.
Proof. vm_compute. split; reflexivity. Qed.

(* ===================================================================== *)
(** * Further properties of the two scripts *)

(** ** extrude_pixels.py *)

Lemma fold_left_keeps {S A : Type} (P : S -> Prop) (f : S -> A -> S) (l : list A) :
  (forall st a, P st -> P (f st a)) -> forall st, P st -> P (fold_left f l st).
Proof.
  intros Hf. induction l as [|a l IH]; intros st Hst; cbn [fold_left]; [exact Hst|].
  apply IH, Hf, Hst.
Qed.

Lemma pixel_body_same_shape (inp : ndarray pixel) (i j : nat)
      (st : ndarray pixel * vec4 Q) :
  shape0 (fst (Extrude.pixel_body inp i j st)) = shape0 (fst st)
  /\ shape1 (fst (Extrude.pixel_body inp i j st)) = shape1 (fst st).
Proof.
  destruct st as [out nc]. unfold Extrude.pixel_body.
  destruct (c3 (item inp i j) =? 0); [|split; reflexivity].
  destruct (fold_left _ Extrude.steps _) as [nc' n].
  destruct (n =? 0); split; reflexivity.
Qed.

(** X1. The output buffer of the filter has the dimensions of its input,
    whatever the input holds. *)
Theorem extrude_same_shape (inp : ndarray pixel) :
  shape0 (Extrude.extrude inp) = shape0 inp
  /\ shape1 (Extrude.extrude inp) = shape1 inp.
Proof.
  unfold Extrude.extrude.
  apply (fold_left_keeps
           (fun st : ndarray pixel * vec4 Q =>
              shape0 (fst st) = shape0 inp /\ shape1 (fst st) = shape1 inp)
           (Extrude.row_body inp)); [|split; reflexivity].
  intros st i Hst. unfold Extrude.row_body.
  apply (fold_left_keeps
           (fun st : ndarray pixel * vec4 Q =>
              shape0 (fst st) = shape0 inp /\ shape1 (fst st) = shape1 inp)
           (fun st j => Extrude.pixel_body inp i j st)); [|exact Hst].
  intros st' j [H0 H1]. destruct (pixel_body_same_shape inp i j st') as [E0 E1].
  split; congruence.
Qed.

(** The binary32 mean of up to four [uint8] values lies in the range of
    [uint8]. *)
Lemma f32_div_range (s n : Z) :
  1 <= n <= 4 -> 0 <= s <= 255 * n ->
  castable (F32.div (inject_Z s) (inject_Z n)).
Proof.
  intros Hn Hs.
  assert (H : forallb (fun k =>
                forallb (fun m =>
                  (255 * Z.of_nat (S m) <? Z.of_nat k)
                  || ((0 <=? Qnum (F32.div (inject_Z (Z.of_nat k))
                                           (inject_Z (Z.of_nat (S m)))))
                      && (Qnum (F32.div (inject_Z (Z.of_nat k))
                                        (inject_Z (Z.of_nat (S m))))
                          <? 256 * Zpos (Qden (F32.div (inject_Z (Z.of_nat k))
                                                       (inject_Z (Z.of_nat (S m))))))))
                  (seq 0 4)) (seq 0 1021) = true)
    by (vm_compute; reflexivity).
  pose proof (below_range _ _ H (Z.to_nat s) ltac:(lia)) as Hk. cbv beta in Hk.
  pose proof (below_range _ _ Hk (Z.to_nat (n - 1)) ltac:(lia)) as Hm. cbv beta in Hm.
  replace (Z.of_nat (S (Z.to_nat (n - 1)))) with n in Hm by lia.
  rewrite Z2Nat.id in Hm by lia.
  apply orb_true_iff in Hm as [Hm | Hm]; [apply Z.ltb_lt in Hm; lia|].
  apply andb_true_iff in Hm as [H0 H1].
  apply Z.leb_le in H0. apply Z.ltb_lt in H1. split; assumption.
Qed.

Lemma astype_castable (q : Q) : castable q -> F32.astype_uint8 q = trunc q.
Proof.
  unfold castable, F32.astype_uint8, trunc. intros [H0 H1].
  rewrite Z.quot_div_nonneg by lia.
  apply Z.mod_small. split.
  - apply Z.div_pos; lia.
  - apply Z.div_lt_upper_bound; lia.
Qed.

(** X2. At a pixel that the filter fills, the binary32 colour that is cast
    to [uint8] lies between 0 and 256 (excluded) in every channel,
    whatever the accumulator held before: the cast drops the fraction and
    never wraps around. *)
Theorem extrude_cast_in_range (inp : ndarray pixel) (i j : nat)
        (out : ndarray pixel) (nc : vec4 Q) :
  buffer_ok inp ->
  c3 (item inp i j) = 0 -> opaque_neighbours inp i j <> [] ->
  let st' := Extrude.pixel_body inp i j (out, nc) in
  (castable (c0 (snd st')) /\ castable (c1 (snd st'))
   /\ castable (c2 (snd st')) /\ castable (c3 (snd st')))
  /\ fst st' = set_item out i j (vmap trunc (snd st')).
Proof.
  intros Hok Ha Hne. cbv zeta. unfold Extrude.pixel_body. rewrite Ha.
  change (0 =? 0) with true. cbv iota.
  replace (vmap (fun x => F32.mul x 0) nc) with (vmap inject_Z zero_pixel)
    by (unfold vmap; cbn [c0 c1 c2 c3 zero_pixel]; rewrite !f32_mul_zero; reflexivity).
  rewrite (gather_spec inp Hok i j).
  destruct (opaque_neighbours_ok inp Hok i j) as [Hps Hlen].
  set (ps := opaque_neighbours inp i j) in *.
  assert (Hpos : (0 < length ps)%nat) by (destruct ps; [contradiction | cbn; lia]).
  replace (Z.of_nat (length ps) =? 0) with false by (symmetry; apply Z.eqb_neq; lia).
  cbn [fst snd]. rewrite Forall_forall in Hps.
  pose proof (sum_bounds c0 ps (fun q Hq => proj1 (Hps q Hq))) as B0.
  pose proof (sum_bounds c1 ps (fun q Hq => proj1 (proj2 (Hps q Hq)))) as B1.
  pose proof (sum_bounds c2 ps (fun q Hq => proj1 (proj2 (proj2 (Hps q Hq))))) as B2.
  pose proof (sum_bounds c3 ps (fun q Hq => proj2 (proj2 (proj2 (Hps q Hq))))) as B3.
  assert (C0 := f32_div_range (sum (map c0 ps)) (Z.of_nat (length ps)) ltac:(lia) B0).
  assert (C1 := f32_div_range (sum (map c1 ps)) (Z.of_nat (length ps)) ltac:(lia) B1).
  assert (C2 := f32_div_range (sum (map c2 ps)) (Z.of_nat (length ps)) ltac:(lia) B2).
  assert (C3 := f32_div_range (sum (map c3 ps)) (Z.of_nat (length ps)) ltac:(lia) B3).
  unfold vmap, sum_pixel. cbn [c0 c1 c2 c3].
  split; [split; [exact C0|]; split; [exact C1|]; split; [exact C2 | exact C3]|].
  rewrite (astype_castable _ C0), (astype_castable _ C1),
          (astype_castable _ C2), (astype_castable _ C3).
  reflexivity.
Qed.

Lemma extrude_cast_in_range_witness :
  let st' := Extrude.pixel_body strip5 0 1 (strip5, black) in
  (castable (c0 (snd st')) /\ castable (c1 (snd st'))
   /\ castable (c2 (snd st')) /\ castable (c3 (snd st')))
  /\ fst st' = set_item strip5 0 1 (vmap trunc (snd st')).
Proof.
  apply (extrude_cast_in_range strip5 0 1 strip5 black).
  - apply buffer_okb_sound. vm_compute. reflexivity.
  - vm_compute. reflexivity.
  - vm_compute. discriminate.
Defined.

Lemma opaque_neighbours_alpha (inp : ndarray pixel) (i j : nat) (p : pixel) :
  In p (opaque_neighbours inp i j) -> 0 < c3 p.
Proof.
  unfold opaque_neighbours. intros H. apply in_map_iff in H as (q & <- & Hq).
  apply filter_In in Hq as [_ Hq]. apply andb_true_iff in Hq as [_ Hq].
  apply Z.ltb_lt. exact Hq.
Qed.

Lemma sum_lower (f : pixel -> Z) (ps : list pixel) :
  (forall p, In p ps -> 1 <= f p) -> Z.of_nat (length ps) <= sum (map f ps).
Proof.
  induction ps as [|p ps IH]; intros H; [unfold sum; cbn; lia|].
  cbn [map length]. unfold sum in *. cbn [fold_right].
  pose proof (H p (or_introl eq_refl)).
  assert (Z.of_nat (length ps) <= fold_right Z.add 0 (map f ps))
    by (apply IH; intros q Hq; apply H; right; exact Hq).
  lia.
Qed.

(** X3. After one pass a pixel is transparent (alpha zero) exactly when it
    was transparent in the input and had no in-bounds 4-connected
    neighbour of positive alpha: a filled pixel is never left with alpha
    zero, and no visible pixel becomes transparent. *)
Theorem extrude_alpha (inp : ndarray pixel) (i j : nat) :
  buffer_ok inp -> (i < shape0 inp)%nat -> (j < shape1 inp)%nat ->
  c3 (item (Extrude.extrude inp) i j) = 0
  <-> c3 (item inp i j) = 0 /\ opaque_neighbours inp i j = [].
Proof.
  intros Hok Hi Hj. rewrite (extrude_item inp Hok i j Hi Hj).
  unfold updated, pixel_update.
  destruct (c3 (item inp i j) =? 0) eqn:Ea.
  - apply Z.eqb_eq in Ea.
    destruct (opaque_neighbours inp i j) as [|p ps] eqn:E.
    + tauto.
    + split; [|intros [_ H]; discriminate H]. intros Hzero. exfalso.
      unfold mean_pixel in Hzero. cbn [c3] in Hzero. unfold mean in Hzero.
      rewrite length_map in Hzero.
      assert (Hlow : Z.of_nat (length (p :: ps)) <= sum (map c3 (p :: ps))).
      { apply sum_lower. intros q Hq.
        assert (0 < c3 q) by (apply (opaque_neighbours_alpha inp i j); rewrite E; exact Hq).
        lia. }
      assert (Hpos : 0 < Z.of_nat (length (p :: ps))) by (cbn [length]; lia).
      assert (1 <= sum (map c3 (p :: ps)) / Z.of_nat (length (p :: ps)))
        by (apply Z.div_le_lower_bound; lia).
      lia.
  - apply Z.eqb_neq in Ea. tauto.
Qed.

Lemma extrude_alpha_witness :
  c3 (item (Extrude.extrude strip5) 0 2) = 0
  <-> c3 (item strip5 0 2) = 0 /\ opaque_neighbours strip5 0 2 = [].
Proof.
  apply (extrude_alpha strip5 0 2).
  - apply buffer_okb_sound. vm_compute. reflexivity.
  - vm_compute. lia.
  - vm_compute. lia.
Defined.

Lemma to_rows_ext {A : Type} (a b : ndarray A) :
  shape0 a = shape0 b -> shape1 a = shape1 b ->
  (forall r c, (r < shape0 b)%nat -> (c < shape1 b)%nat -> item a r c = item b r c) ->
  to_rows a = to_rows b.
Proof.
  intros S0 S1 H. unfold to_rows. rewrite S0, S1.
  apply map_ext_in. intros r Hr. apply in_seq in Hr.
  apply map_ext_in. intros c Hc. apply in_seq in Hc. apply H; lia.
Qed.

(** X4. A buffer without transparent pixels, and a buffer without visible
    pixels, is returned unchanged. *)
Theorem extrude_nothing_to_fill (inp : ndarray pixel) :
  buffer_ok inp ->
  (forall r c, (r < shape0 inp)%nat -> (c < shape1 inp)%nat -> c3 (item inp r c) <> 0)
  \/ (forall r c, (r < shape0 inp)%nat -> (c < shape1 inp)%nat -> c3 (item inp r c) = 0) ->
  to_rows (Extrude.extrude inp) = to_rows inp.
Proof.
  intros Hok Hcase. destruct (extrude_same_shape inp) as [S0 S1].
  apply to_rows_ext; [exact S0 | exact S1|].
  intros r c Hr Hc. rewrite (extrude_item inp Hok r c Hr Hc).
  unfold updated, pixel_update. destruct Hcase as [Hop | Htr].
  - specialize (Hop r c Hr Hc). apply Z.eqb_neq in Hop. rewrite Hop. reflexivity.
  - rewrite (far_from_opaque inp r c).
    + destruct (c3 (item inp r c) =? 0); reflexivity.
    + intros r' c' Hr' Hc' Hpos. specialize (Htr r' c' Hr' Hc'). lia.
Qed.

Lemma opaque2_all_opaque (r c : nat) :
  (r < shape0 opaque2)%nat -> (c < shape1 opaque2)%nat -> c3 (item opaque2 r c) <> 0.
Proof.
  cbn [opaque2 of_rows shape0 shape1 length hd]. intros Hr Hc.
  destruct r as [|r]; [|lia]. destruct c as [|[|c]]; [| |lia]; vm_compute; discriminate.
Qed.

Lemma extrude_nothing_to_fill_witness :
  to_rows (Extrude.extrude opaque2) = to_rows opaque2.
Proof.
  apply (extrude_nothing_to_fill opaque2).
  - apply buffer_okb_sound. vm_compute. reflexivity.
  - left. apply opaque2_all_opaque.
Defined.

(** ** The dataclasses and the extraction loop *)

(** X5. The two candidates that a placed sprite adds lie one pixel beyond
    its footprint: a sprite put at either of them is separated from it by
    a free column or a free row. *)
Theorem neighbor_tls_leave_gap (s t : Sprite.t) :
  In (Sprite.tl t) (Sprite.get_neighbor_tls s) -> gap_between s t.
Proof.
  unfold gap_between, Sprite.get_neighbor_tls, Sprite.bl, Sprite.tr, covers.
  cbn [fst snd In].
  intros [E | [E | []]] x y x' y' Hs Ht; rewrite <- E in Ht; cbn [fst snd] in Ht; lia.
Qed.

Lemma neighbor_tls_leave_gap_witness : gap_between (sprite_of "a" 4 4) below_a.
Proof.
  apply (neighbor_tls_leave_gap (sprite_of "a" 4 4) below_a).
  vm_compute. left. reflexivity.
Defined.

Lemma slice_length_le (n : nat) (lo len : Z) :
  0 <= len -> (snd (slice_bounds n lo (lo + len)) <= Z.to_nat len)%nat.
Proof.
  intros Hlen. unfold slice_bounds, slice_index. cbn [snd].
  destruct (lo <? 0) eqn:E1; destruct (lo + len <? 0) eqn:E2; lia.
Qed.

Lemma mask_image_shape (sheet : ndarray pixel) (x y w h : Z) :
  shape0 (mask_image sheet x y w h) = snd (slice_bounds (shape0 sheet) y (y + h))
  /\ shape1 (mask_image sheet x y w h) = snd (slice_bounds (shape1 sheet) x (x + w)).
Proof.
  unfold mask_image, slice.
  destruct (slice_bounds (shape0 sheet) y (y + h)) as [r0 h'].
  destruct (slice_bounds (shape1 sheet) x (x + w)) as [c0' w'].
  split; reflexivity.
Qed.

(** X6. Mask extraction raises exactly when the cropped region has no
    pixel, with numpy's zero-size [ValueError]; for a rectangle inside the
    sheet that is when its width or height is zero.  No other error
    occurs. *)
Theorem mask_of_empty_region (sheet : ndarray pixel) (name : string)
        (idx x y w h : Z) :
  let image := mask_image sheet x y w h in
  (extract_mask sheet name idx x y w h = Err (ValueError zero_size_msg)
   <-> shape0 image = 0%nat \/ shape1 image = 0%nat)
  /\ (forall e, extract_mask sheet name idx x y w h = Err e ->
                e = ValueError zero_size_msg)
  /\ (0 <= x -> 0 <= y -> 0 <= w -> 0 <= h ->
      x + w <= Z.of_nat (shape1 sheet) -> y + h <= Z.of_nat (shape0 sheet) ->
      shape0 image = Z.to_nat h /\ shape1 image = Z.to_nat w).
Proof.
  intros image.
  assert (Hcases : (shape0 image = 0%nat \/ shape1 image = 0%nat)
                   /\ extract_mask sheet name idx x y w h
                      = Err (ValueError zero_size_msg)
                   \/ ~ (shape0 image = 0%nat \/ shape1 image = 0%nat)
                      /\ exists res, extract_mask sheet name idx x y w h = Ok res).
  { unfold extract_mask. cbv zeta. fold image. unfold amax.
    destruct (shape0 image =? 0)%nat eqn:E0; cbn [orb].
    - left. apply Nat.eqb_eq in E0. split; [left; exact E0 | reflexivity].
    - destruct (shape1 image =? 0)%nat eqn:E1.
      + left. apply Nat.eqb_eq in E1. split; [right; exact E1 | reflexivity].
      + right. apply Nat.eqb_neq in E0, E1. split; [lia|]. cbn [bind].
        destruct (list_max (flat image) >? 0); eexists; reflexivity. }
  split; [|split].
  - destruct Hcases as [[Hempty E] | [Hne [res E]]]; rewrite E.
    + tauto.
    + split; [discriminate | contradiction].
  - intros e He. destruct Hcases as [[_ E] | [_ [res E]]]; rewrite E in He.
    + inversion He. reflexivity.
    + discriminate He.
  - intros Hx Hy Hw Hh HW HH. destruct (mask_image_shape sheet x y w h) as [S0 S1].
    fold image in S0, S1. rewrite S0, S1.
    rewrite (slice_bounds_inside (shape0 sheet) y (y + h)) by lia.
    rewrite (slice_bounds_inside (shape1 sheet) x (x + w)) by lia.
    cbn [snd]. split; f_equal; lia.
Qed.

(** X7. A [Mask] is expressed in the coordinates of its frame's rectangle
    and lies inside that rectangle moved down by one pixel:
    [0 <= x], [x + w <= frame width], [1 <= y], [y + h <= frame height + 1]. *)
Theorem mask_inside_frame (sheet : ndarray pixel) (name : string)
        (idx x y w h : Z) (m : Mask.t) :
  0 <= w -> 0 <= h ->
  extract_mask sheet name idx x y w h = Ok (Some m) ->
  0 <= fst (Mask.tl m) /\ fst (Mask.tl m) + Mask.w m <= w
  /\ 1 <= snd (Mask.tl m) /\ snd (Mask.tl m) + Mask.h m <= h + 1.
Proof.
  intros Hw Hh Hm. apply extract_mask_some in Hm. cbv zeta in Hm.
  destruct Hm as (lft & rgt & top & bot & F0 & L0 & F1 & L1 & _ & ->).
  destruct L0 as (L0 & _). destruct L1 as (L1 & _).
  rewrite amax0_length in L0. rewrite amax1_length in L1.
  destruct (mask_image_shape sheet x y w h) as [S0 S1]. rewrite S0 in L1. rewrite S1 in L0.
  pose proof (slice_length_le (shape0 sheet) y h Hh).
  pose proof (slice_length_le (shape1 sheet) x w Hw).
  unfold mask_of_box. cbn [Mask.tl Mask.w Mask.h fst snd]. lia.
Qed.

Lemma mask_inside_frame_witness :
  let m := Mask.mk "s" 0 (1, 1) 1 1 in
  0 <= fst (Mask.tl m) /\ fst (Mask.tl m) + Mask.w m <= 3
  /\ 1 <= snd (Mask.tl m) /\ snd (Mask.tl m) + Mask.h m <= 1 + 1.
Proof.
  apply (mask_inside_frame ramp3 "s" 0 0 0 3 1 (Mask.mk "s" 0 (1, 1) 1 1)).
  - lia.
  - lia.
  - vm_compute. reflexivity.
Defined.

(** *** Frames *)

Lemma process_frame_sprite (sheet : ndarray pixel) (sprites : sprites_t)
      (masks : masks_t) (frame : Frame) :
  is_sprite_frame frame = true ->
  process_frame sheet (sprites, masks) frame
  = Ok (sprites_append sprites (tagged_name frame)
          (extract_sprite sheet (tagged_name frame) (f_frame_idx frame)
                          (f_x frame) (f_y frame) (f_w frame) (f_h frame)),
        masks).
Proof.
  unfold is_sprite_frame, process_frame, tagged_name. cbv zeta.
  destruct (prefix _MASK_LAYER_PREFIX (f_layer_name frame)); intros E.
  - cbn [bind]. rewrite E. reflexivity.
  - rewrite E. cbn [negb bind]. rewrite E. reflexivity.
Qed.

Lemma process_frame_other (sheet : ndarray pixel) (sprites sprites' : sprites_t)
      (masks masks' : masks_t) (frame : Frame) :
  is_sprite_frame frame = false ->
  process_frame sheet (sprites, masks) frame = Ok (sprites', masks') ->
  sprites' = sprites.
Proof.
  unfold is_sprite_frame, process_frame. cbv zeta.
  destruct (prefix _MASK_LAYER_PREFIX (f_layer_name frame)); intros E.
  - cbn [bind]. rewrite E.
    destruct (extract_mask _ _ _ _ _ _ _) as [[m|]|e]; cbn [bind]; intros H;
      inversion H; reflexivity.
  - rewrite E. cbn [negb bind]. discriminate.
Qed.

(** X8. A layer called [mask_sprite] is not a mask layer: once the prefix
    is stripped its name is the sprite marker, so the frame is cropped and
    stored as a sprite, exactly like a frame of the [sprite] layer, and no
    [Mask] is recorded for it. *)
Theorem mask_sprite_is_a_sprite (sheet : ndarray pixel) (st : sprites_t * masks_t)
        (base tag : string) (idx x y w h : Z) :
  process_frame sheet st (mkFrame base "mask_sprite" tag idx x y w h)
  = process_frame sheet st (mkFrame base "sprite" tag idx x y w h)
  /\ exists sprites', process_frame sheet st (mkFrame base "mask_sprite" tag idx x y w h)
                      = Ok (sprites', snd st).
Proof.
  destruct st as [sprites masks].
  rewrite !process_frame_sprite by reflexivity.
  split; [reflexivity | eexists; reflexivity].
Qed.

(** *** The dictionaries *)

Section DictFacts.

Context {K V : Type} (eqb : K -> K -> bool).
Hypothesis eqb_spec : forall a b, eqb a b = true <-> a = b.

Lemma dict_get_upd (d : dict K V) (k k' : K) (f : option V -> V) :
  dict_get eqb (dict_upd eqb d k f) k'
  = if eqb k k' then Some (f (dict_get eqb d k)) else dict_get eqb d k'.
Proof.
  induction d as [|[a v] d IH]; cbn [dict_upd dict_get].
  - destruct (eqb k k'); reflexivity.
  - destruct (eqb a k) eqn:Eak; cbn [dict_get].
    + apply eqb_spec in Eak. subst a. destruct (eqb k k'); reflexivity.
    + destruct (eqb a k') eqn:Eak'.
      * apply eqb_spec in Eak'. subst a.
        destruct (eqb k k') eqn:Ekk'; [|reflexivity].
        apply eqb_spec in Ekk'. subst k'.
        assert (eqb k k = true) by (apply eqb_spec; reflexivity). congruence.
      * exact IH.
Qed.

End DictFacts.

Lemma string_eqb_spec (a b : string) : (a =? b)%string = true <-> a = b.
Proof. apply String.eqb_eq. Qed.

Lemma sprites_get_append (sprites : sprites_t) (k k' : string) (s : Sprite.t) :
  sprites_get (sprites_append sprites k s) k'
  = if (k =? k')%string then sprites_get sprites k ++ [s] else sprites_get sprites k'.
Proof.
  unfold sprites_get, sprites_append.
  rewrite (dict_get_upd String.eqb string_eqb_spec).
  destruct (k =? k')%string; reflexivity.
Qed.

Lemma sprites_named_app (k : string) (l l' : list (ndarray pixel * Frame)) :
  sprites_named k (l ++ l') = sprites_named k l ++ sprites_named k l'.
Proof. unfold sprites_named. rewrite filter_app, map_app. reflexivity. Qed.

Lemma process_frame_groups (sheet : ndarray pixel) (st st' : sprites_t * masks_t)
      (frame : Frame) (k : string) :
  process_frame sheet st frame = Ok st' ->
  sprites_get (fst st') k = sprites_get (fst st) k ++ sprites_named k [(sheet, frame)].
Proof.
  destruct st as [sprites masks]. destruct st' as [sprites' masks'].
  intros Hstep. unfold sprites_named. cbn [filter snd fst].
  destruct (is_sprite_frame frame) eqn:Es.
  - rewrite (process_frame_sprite sheet sprites masks frame Es) in Hstep.
    inversion Hstep. subst. rewrite sprites_get_append. cbn [andb].
    destruct (tagged_name frame =? k)%string eqn:Ek; cbn [map].
    + apply String.eqb_eq in Ek. subst k. reflexivity.
    + rewrite app_nil_r. reflexivity.
  - rewrite (process_frame_other sheet sprites sprites' masks masks' frame Es Hstep).
    cbn [andb map]. rewrite app_nil_r. reflexivity.
Qed.

Lemma frames_groups (sheet : ndarray pixel) (fs : list Frame) (k : string) :
  forall st st',
    for_each (process_frame sheet) fs st = Ok st' ->
    sprites_get (fst st') k
    = sprites_get (fst st) k ++ sprites_named k (map (pair sheet) fs).
Proof.
  induction fs as [|f fs IH]; intros st st' Hrun; cbn [for_each] in Hrun.
  - inversion Hrun. subst. cbn [map]. unfold sprites_named. cbn. rewrite app_nil_r.
    reflexivity.
  - destruct (process_frame sheet st f) as [st1|e] eqn:E1; cbn [bind] in Hrun;
      [|discriminate].
    rewrite (IH st1 st' Hrun), (process_frame_groups sheet st st1 f k E1).
    cbn [map]. change ((sheet, f) :: map (pair sheet) fs)
      with ([(sheet, f)] ++ map (pair sheet) fs).
    rewrite sprites_named_app, app_assoc. reflexivity.
Qed.

Lemma files_groups (srcs : list Source) (k : string) :
  forall st st',
    for_each process_file srcs st = Ok st' ->
    sprites_get (fst st') k = sprites_get (fst st) k ++ sprites_named k (all_frames srcs).
Proof.
  induction srcs as [|src srcs IH]; intros st st' Hrun; cbn [for_each] in Hrun.
  - inversion Hrun. subst. unfold sprites_named. cbn. rewrite app_nil_r. reflexivity.
  - destruct (process_file st src) as [st1|e] eqn:E1; cbn [bind] in Hrun;
      [|discriminate].
    unfold process_file in E1.
    destruct (existsb (String.eqb _SPRITE_LAYER) (layer_names src)); [|discriminate].
    rewrite (IH st1 st' Hrun), (frames_groups (src_sheet src) (frames src) k st st1 E1).
    unfold all_frames. cbn [flat_map]. rewrite sprites_named_app, app_assoc.
    reflexivity.
Qed.

(** X9. After extraction [sprites[k]] holds, in the order of the frames,
    exactly the sprites of the frames that take the sprite branch and
    whose name (base name, with the tag when there is one) is [k]: frames
    of one name and tag are grouped, whatever lies between them. *)
Theorem extract_groups_by_name (srcs : list Source) (sprites : sprites_t)
        (masks : masks_t) (k : string) :
  extract srcs = Ok (sprites, masks) ->
  sprites_get sprites k = sprites_named k (all_frames srcs).
Proof.
  intros Hrun. unfold extract in Hrun.
  apply (files_groups srcs k ([], []) (sprites, masks) Hrun).
Qed.

(** ** The packing loop *)

Lemma extract_groups_by_name_witness :
  sprites_get (fst (extracted [dot_source])) "dot"
  = sprites_named "dot" (all_frames [dot_source]).
Proof.
  apply (extract_groups_by_name [dot_source] (fst (extracted [dot_source]))
                                (snd (extracted [dot_source])) "dot").
  vm_compute. reflexivity.
Defined.

(** X10. The growth block never raises; the new sheet is larger by the
    sprite's height and width, holds every old cell at its old position
    and the all-zero cell (transparent, free) everywhere else. *)
Theorem grow_keeps_content (sheet0 : ndarray cell) (sprite : Sprite.t) :
  exists sheet',
    grow sheet0 sprite = Ok sheet'
    /\ shape0 sheet' = (shape0 sheet0 + shape0 (Sprite.image sprite))%nat
    /\ shape1 sheet' = (shape1 sheet0 + shape1 (Sprite.image sprite))%nat
    /\ forall r c, (r < shape0 sheet')%nat -> (c < shape1 sheet')%nat ->
         item sheet' r c
         = if ((r <? shape0 sheet0) && (c <? shape1 sheet0))%nat
           then item sheet0 r c else zero_cell.
Proof.
  destruct (grow_spec sheet0 sprite) as (sheet' & Hg & S0 & S1 & _ & _ & Hitem).
  exists sheet'. auto.
Qed.

(** What a pass of the loop body that returns has done, step by step. *)
Lemma pop_length {A : Type} (l : list A) (i : nat) (a : A) :
  nth_error l i = Some a -> S (length (firstn i l ++ skipn (S i) l)) = length l.
Proof.
  intros H. assert (Hi : (i < length l)%nat) by (apply nth_error_Some; congruence).
  rewrite length_app, length_firstn, length_skipn. lia.
Qed.

Lemma candidates_from (fuel : nat) (sprites : list Sprite.t) :
  forall st st',
    for_each (place fuel) sprites st = Ok st' ->
    length (tls_to_try st') = (length (tls_to_try st) + length sprites)%nat.
Proof.
  induction sprites as [|s sprites IH]; intros st st' Hrun; cbn [for_each] in Hrun.
  - inversion Hrun. subst. cbn [length]. lia.
  - destruct (place fuel st s) as [st1|e] eqn:E1; cbn [bind] in Hrun; [|discriminate].
    rewrite (IH st1 st' Hrun).
    destruct (place_steps fuel st st1 s E1) as (i & sheet1 & x & y & sheet2 & _ & Hnth & _ & ->).
    cbn [tls_to_try]. rewrite length_app. cbn [length].
    pose proof (pop_length _ _ _ Hnth). lia.
Qed.

(** X11. Every placement removes one candidate and appends two: after [n]
    sprites the candidate list has [n + 1] entries, so the scan always has
    a candidate to try. *)
Theorem candidates_count (fuel : nat) (sprites : list Sprite.t) (st : packer) :
  pack fuel sprites = Ok st ->
  length (tls_to_try st) = S (length sprites).
Proof.
  intros Hrun. unfold pack in Hrun.
  rewrite (candidates_from fuel sprites packer_init st Hrun). reflexivity.
Qed.

Lemma candidates_count_witness :
  length (tls_to_try (packed 10 two_sprites)) = S (length two_sprites).
Proof.
  apply (candidates_count 10 two_sprites (packed 10 two_sprites)).
  vm_compute. reflexivity.
Defined.

(** X12. A single sprite (and so the first sprite of every run) is placed
    at the origin on a canvas of exactly twice its height and twice its
    width: the first growth gives a canvas of the sprite's size, which the
    strict bounds test rejects.  The candidates left are the one below and
    the one to the right. *)
Theorem first_sprite_doubles_canvas (fuel : nat) (s : Sprite.t) (st : packer) :
  pack fuel [s] = Ok st ->
  placed st = [Sprite.set_tl s (0, 0)]
  /\ shape0 (sheet st) = (2 * shape0 (Sprite.image s))%nat
  /\ shape1 (sheet st) = (2 * shape1 (Sprite.image s))%nat
  /\ tls_to_try st = [(0, Sprite.h s + 1); (Sprite.w s + 1, 0)].
Proof.
  intros Hrun. unfold pack in Hrun. cbn [for_each] in Hrun.
  destruct (place fuel packer_init s) as [st1|e] eqn:E1; cbn [bind] in Hrun;
    [|discriminate].
  inversion Hrun. subst st1. clear Hrun.
  destruct (place_spec fuel packer_init st s inv_init E1)
    as (x & y & k & Hin & Hw & Hh & Hinv & Hplaced & K0 & K1 & _ & Hmin).
  destruct (place_steps fuel packer_init st s E1)
    as (i & sheet1 & x' & y' & sheet2 & _ & Hnth & _ & Hst).
  cbn [packer_init tls_to_try placed sheet zeros shape0 shape1 app] in *.
  destruct Hin as [E | []]. inversion E. subst x y.
  assert (Hi : i = 0%nat).
  { destruct i as [|i]; [reflexivity|]. destruct i; discriminate Hnth. }
  subst i. cbn [nth_error] in Hnth. inversion Hnth. subst x' y'.
  assert (Hk : k = 2%nat).
  { assert (Hfree : free_from (zeros zero_cell 0 0) 0)
      by (intros r c Hr; cbn in Hr; lia).
    specialize (Hmin 0 0 (or_introl eq_refl) Hfree).
    destruct (inv_inside st Hinv (Sprite.set_tl s (0, 0))) as (_ & _ & HW & _).
    { rewrite Hplaced. left. reflexivity. }
    unfold right_edge in HW. rewrite K1 in HW.
    change (Sprite.w (Sprite.set_tl s (0, 0))) with (Sprite.w s) in HW.
    cbn [Sprite.set_tl Sprite.tl fst] in HW.
    unfold Sprite.w, Sprite.h in *. nia. }
  subst k. split; [exact Hplaced|]. split; [lia|]. split; [lia|].
  rewrite Hst. reflexivity.
Qed.

Lemma first_sprite_doubles_canvas_witness :
  let s := sprite_of "a" 2 2 in
  let st := packed 10 [s] in
  placed st = [Sprite.set_tl s (0, 0)]
  /\ shape0 (sheet st) = (2 * shape0 (Sprite.image s))%nat
  /\ shape1 (sheet st) = (2 * shape1 (Sprite.image s))%nat
  /\ tls_to_try st = [(0, Sprite.h s + 1); (Sprite.w s + 1, 0)].
Proof.
  apply (first_sprite_doubles_canvas 10 (sprite_of "a" 2 2)
                                     (packed 10 [sprite_of "a" 2 2])).
  vm_compute. reflexivity.
Defined.

(** X13. The saved atlas [sheet[..., :-1]] holds, on the footprint of
    every placed sprite, that sprite's pixels (the pixel of its image at
    the offset from its top-left corner), and is zero, transparent black,
    at every position that no sprite covers. *)
Theorem atlas_content (fuel : nat) (sprites : list Sprite.t) (st : packer)
        (r c : nat) :
  pack fuel sprites = Ok st ->
  (r < shape0 (sheet st))%nat -> (c < shape1 (sheet st))%nat ->
  (forall s, In s (placed st) -> covers s (Z.of_nat c) (Z.of_nat r) ->
             item (amap color (sheet st)) r c = sprite_pixel s r c)
  /\ ((forall s, In s (placed st) -> ~ covers s (Z.of_nat c) (Z.of_nat r)) ->
      item (amap color (sheet st)) r c = zero_pixel).
Proof.
  intros Hrun Hr Hc.
  pose proof (content_from fuel sprites packer_init st inv_init content_init Hrun)
    as Hcontent.
  destruct (Hcontent r c Hr Hc) as [Hin Hout]. cbn [amap item]. split.
  - intros s Hs Hcov. rewrite (Hin s Hs Hcov). reflexivity.
  - intros Hno. rewrite (Hout Hno). reflexivity.
Qed.

Lemma atlas_content_witness :
  let st := packed 10 two_sprites in
  (forall s, In s (placed st) -> covers s 1 1 ->
             item (amap color (sheet st)) 1 1 = sprite_pixel s 1 1)
  /\ ((forall s, In s (placed st) -> ~ covers s 1 1) ->
      item (amap color (sheet st)) 1 1 = zero_pixel).
Proof.
  apply (atlas_content 10 two_sprites (packed 10 two_sprites) 1 1).
  - vm_compute. reflexivity.
  - vm_compute. lia.
  - vm_compute. lia.
Defined.

Lemma positive_from (fuel : nat) (sprites : list Sprite.t) :
  forall st st',
    packer_inv st -> for_each (place fuel) sprites st = Ok st' ->
    forall s, In s sprites -> 0 < Sprite.w s /\ 0 < Sprite.h s.
Proof.
  induction sprites as [|s0 sprites IH]; intros st st' Hinv Hrun s Hs; [destruct Hs|].
  cbn [for_each] in Hrun.
  destruct (place fuel st s0) as [st1|e] eqn:E1; cbn [bind] in Hrun; [|discriminate].
  destruct (place_spec fuel st st1 s0 Hinv E1) as (x & y & k & _ & Hw & Hh & Hinv1 & _).
  destruct Hs as [<- | Hs]; [split; assumption|].
  apply (IH st1 st' Hinv1 Hrun s Hs).
Qed.

(** X14. The packer returns only when every sprite has at least one row
    and one column: a sprite with an empty image is never placed, and no
    sprite after it either. *)
Theorem pack_needs_pixels (fuel : nat) (sprites : list Sprite.t) (st : packer) :
  pack fuel sprites = Ok st ->
  Forall (fun s => 0 < Sprite.w s /\ 0 < Sprite.h s) sprites.
Proof.
  intros Hrun. apply Forall_forall.
  apply (positive_from fuel sprites packer_init st inv_init Hrun).
Qed.

Lemma pack_needs_pixels_witness :
  Forall (fun s => 0 < Sprite.w s /\ 0 < Sprite.h s) two_sprites.
Proof.
  apply (pack_needs_pixels 10 two_sprites (packed 10 two_sprites)).
  vm_compute. reflexivity.
Defined.

(** ** The manifest *)

(** *** Membership in the dictionaries *)

Section DictMembers.

Context {K V : Type} (eqb : K -> K -> bool).
Hypothesis eqb_spec : forall a b, eqb a b = true <-> a = b.

Lemma dict_get_in (d : dict K V) (k : K) (v : V) :
  dict_get eqb d k = Some v -> In (k, v) d.
Proof.
  induction d as [|[a w] d IH]; cbn [dict_get]; [discriminate|].
  destruct (eqb a k) eqn:E.
  - apply eqb_spec in E. subst a. intros H. inversion H. left. reflexivity.
  - intros H. right. apply IH. exact H.
Qed.

Lemma dict_upd_in (d : dict K V) (k k' : K) (f : option V -> V) (v' : V) :
  In (k', v') (dict_upd eqb d k f) ->
  In (k', v') d \/ (k' = k /\ v' = f (dict_get eqb d k)).
Proof.
  induction d as [|[a w] d IH]; cbn [dict_upd dict_get].
  - intros [H | []]. inversion H. right. split; reflexivity.
  - destruct (eqb a k) eqn:E.
    + intros [H | H].
      * inversion H. subst. apply eqb_spec in E. right. split; [exact E | reflexivity].
      * left. right. exact H.
    + intros [H | H].
      * left. left. exact H.
      * destruct (IH H) as [Hin | Hnew]; [left; right; exact Hin | right; exact Hnew].
Qed.

Lemma dict_upd_keys (d : dict K V) (k k' : K) (f : option V -> V) :
  In k' (map fst (dict_upd eqb d k f)) -> In k' (map fst d) \/ k' = k.
Proof.
  intros H. apply in_map_iff in H as ([a v] & <- & Hin). cbn [fst].
  destruct (dict_upd_in d k a f v Hin) as [Hold | [-> _]].
  - left. apply in_map_iff. exists (a, v). split; [reflexivity | exact Hold].
  - right. reflexivity.
Qed.

Lemma dict_upd_nodup (d : dict K V) (k : K) (f : option V -> V) :
  NoDup (map fst d) -> NoDup (map fst (dict_upd eqb d k f)).
Proof.
  induction d as [|[a w] d IH]; cbn [dict_upd map fst]; intros Hnd.
  - constructor; [intros [] | constructor].
  - inversion Hnd as [|? ? Hnotin Hrest]. subst.
    destruct (eqb a k) eqn:E; cbn [map fst].
    + constructor; assumption.
    + constructor; [|apply IH; exact Hrest].
      intros Hin. destruct (dict_upd_keys d k a f Hin) as [Hold | ->].
      * exact (Hnotin Hold).
      * assert (eqb k k = true) by (apply eqb_spec; reflexivity). congruence.
Qed.

End DictMembers.

Lemma z_eqb_spec (a b : Z) : (a =? b) = true <-> a = b.
Proof. apply Z.eqb_eq. Qed.

Lemma for_each_preserves {S A : Type} (body : S -> A -> result S) (P : S -> Prop) :
  (forall st a st', body st a = Ok st' -> P st -> P st') ->
  forall l st st', for_each body l st = Ok st' -> P st -> P st'.
Proof.
  intros Hbody. induction l as [|a l IH]; intros st st' Hrun HP; cbn [for_each] in Hrun.
  - inversion Hrun. subst. exact HP.
  - destruct (body st a) as [st1|e] eqn:E1; cbn [bind] in Hrun; [|discriminate].
    apply (IH st1 st' Hrun). apply (Hbody st a st1 E1 HP).
Qed.

(** *** What extraction keeps *)

Lemma keyed_empty : keyed [].
Proof. split; [constructor | intros k l s []]. Qed.

Lemma keyed_append (sprites : sprites_t) (s : Sprite.t) :
  keyed sprites -> keyed (sprites_append sprites (Sprite.name s) s).
Proof.
  intros [Hnd Hname]. unfold sprites_append. split.
  - apply (dict_upd_nodup String.eqb string_eqb_spec). exact Hnd.
  - intros k l s' Hin Hs'.
    destruct (dict_upd_in String.eqb string_eqb_spec sprites (Sprite.name s) k _ l Hin)
      as [Hold | [-> ->]].
    + apply (Hname k l s' Hold Hs').
    + apply in_app_or in Hs' as [Hs' | [<- | []]]; [|reflexivity].
      destruct (dict_get String.eqb sprites (Sprite.name s)) as [l0|] eqn:E;
        [|destruct Hs'].
      apply (Hname _ l0 s' (dict_get_in String.eqb string_eqb_spec _ _ _ E) Hs').
Qed.

Lemma masks_keyed_empty : masks_keyed [].
Proof. intros sn layers H. discriminate H. Qed.

Lemma masks_set_keyed (masks : masks_t) (sn ln : string) (idx : Z) (m : Mask.t) :
  masks_keyed masks -> Mask.name m = sn -> Mask.frame_idx m = idx ->
  masks_keyed (masks_set masks sn ln idx m).
Proof.
  intros Hk Hn Hi sn' layers Hget ln' by_frame Hin idx' m' Hget'.
  unfold masks_set in Hget.
  rewrite (dict_get_upd String.eqb string_eqb_spec) in Hget.
  destruct (sn =? sn')%string eqn:E; [|apply (Hk sn' layers Hget ln' by_frame Hin idx' m' Hget')].
  apply String.eqb_eq in E. subst sn'. injection Hget as <-.
  destruct (dict_upd_in String.eqb string_eqb_spec _ ln ln' _ by_frame Hin)
    as [Hold | [-> ->]].
  - destruct (dict_get String.eqb masks sn) as [layers0|] eqn:E0; [|destruct Hold].
    apply (Hk sn layers0 E0 ln' by_frame Hold idx' m' Hget').
  - rewrite (dict_get_upd Z.eqb z_eqb_spec) in Hget'.
    destruct (idx =? idx') eqn:Ei.
    + apply Z.eqb_eq in Ei. subst idx'. injection Hget' as <-. split; assumption.
    + destruct (dict_get String.eqb masks sn) as [layers0|] eqn:E0; cbn [from_option] in Hget'.
      * destruct (dict_get String.eqb layers0 ln) as [bf|] eqn:E1;
          cbn [from_option] in Hget'; [|discriminate].
        apply (Hk sn layers0 E0 ln bf
                  (dict_get_in String.eqb string_eqb_spec _ _ _ E1) idx' m' Hget').
      * discriminate.
Qed.

Lemma extract_mask_fields (sheet : ndarray pixel) (name : string)
      (idx x y w h : Z) (m : Mask.t) :
  extract_mask sheet name idx x y w h = Ok (Some m) ->
  Mask.name m = name /\ Mask.frame_idx m = idx.
Proof.
  unfold extract_mask. cbv zeta.
  destruct (amax _) as [mx|e]; cbn [bind]; [|discriminate].
  destruct (mx >? 0); intros H; inversion H. split; reflexivity.
Qed.

Lemma process_frame_masks (sheet : ndarray pixel) (sprites sprites' : sprites_t)
      (masks masks' : masks_t) (frame : Frame) :
  process_frame sheet (sprites, masks) frame = Ok (sprites', masks') ->
  masks' = masks
  \/ exists ln m,
       Mask.name m = tagged_name frame /\ Mask.frame_idx m = f_frame_idx frame
       /\ masks' = masks_set masks (tagged_name frame) ln (f_frame_idx frame) m.
Proof.
  unfold process_frame, tagged_name. cbv zeta.
  destruct (prefix _MASK_LAYER_PREFIX (f_layer_name frame)).
  - cbn [bind].
    destruct (strip_mask_prefix (f_layer_name frame) =? _SPRITE_LAYER)%string.
    + intros H. inversion H. left. reflexivity.
    + destruct (extract_mask _ _ _ _ _ _ _) as [[m|]|e] eqn:Em; cbn [bind]; intros H;
        inversion H.
      * right. exists (strip_mask_prefix (f_layer_name frame)), m.
        destruct (extract_mask_fields _ _ _ _ _ _ _ _ Em) as [Hn Hi].
        split; [exact Hn|]. split; [exact Hi | reflexivity].
      * left. reflexivity.
  - destruct (negb (f_layer_name frame =? _SPRITE_LAYER)%string) eqn:En;
      cbn [bind]; [discriminate|].
    apply negb_false_iff in En. rewrite En. intros H. inversion H. left. reflexivity.
Qed.

Lemma process_frame_keyed (sheet : ndarray pixel) (st : sprites_t * masks_t)
      (frame : Frame) (st' : sprites_t * masks_t) :
  process_frame sheet st frame = Ok st' ->
  keyed (fst st) /\ masks_keyed (snd st) -> keyed (fst st') /\ masks_keyed (snd st').
Proof.
  destruct st as [sprites masks]. destruct st' as [sprites' masks'].
  cbn [fst snd]. intros Hstep [Hk Hm]. split.
  - destruct (is_sprite_frame frame) eqn:Es.
    + rewrite (process_frame_sprite sheet sprites masks frame Es) in Hstep.
      inversion Hstep. subst.
      exact (keyed_append sprites
               (extract_sprite sheet (tagged_name frame) (f_frame_idx frame)
                               (f_x frame) (f_y frame) (f_w frame) (f_h frame)) Hk).
    + rewrite (process_frame_other sheet sprites sprites' masks masks' frame Es Hstep).
      exact Hk.
  - destruct (process_frame_masks sheet sprites sprites' masks masks' frame Hstep)
      as [-> | (ln & m & Hn & Hi & ->)]; [exact Hm|].
    apply masks_set_keyed; assumption.
Qed.

Lemma extract_keyed (srcs : list Source) (sprites : sprites_t) (masks : masks_t) :
  extract srcs = Ok (sprites, masks) -> keyed sprites /\ masks_keyed masks.
Proof.
  intros Hrun. unfold extract in Hrun.
  apply (for_each_preserves process_file
           (fun st => keyed (fst st) /\ masks_keyed (snd st)))
    with (l := srcs) (st := ([], [])) (st' := (sprites, masks)).
  - intros st src st' Hfile HP. unfold process_file in Hfile.
    destruct (existsb (String.eqb _SPRITE_LAYER) (layer_names src)); [|discriminate].
    apply (for_each_preserves (process_frame (src_sheet src))
             (fun st => keyed (fst st) /\ masks_keyed (snd st)))
      with (l := frames src) (st := st) (st' := st'); [|exact Hfile|exact HP].
    intros st0 f st1. apply process_frame_keyed.
  - exact Hrun.
  - split; [exact keyed_empty | exact masks_keyed_empty].
Qed.

Lemma filter_all {A : Type} (f : A -> bool) (l : list A) :
  (forall a, In a l -> f a = true) -> filter f l = l.
Proof.
  induction l as [|a l IH]; intros H; cbn [filter]; [reflexivity|].
  rewrite (H a (or_introl eq_refl)), IH; [reflexivity|].
  intros b Hb. apply H. right. exact Hb.
Qed.

Lemma in_flatten (sprites : sprites_t) (s : Sprite.t) :
  In s (flatten_sprites sprites) -> exists k l, In (k, l) sprites /\ In s l.
Proof.
  unfold flatten_sprites. intros H.
  apply in_concat in H as (l & Hl & Hs).
  apply in_map_iff in Hl as ([k l'] & <- & Hin).
  exists k, l'. split; assumption.
Qed.

(** Under its key, and nowhere else, lie the sprites of that name. *)
Lemma keyed_get (sprites : sprites_t) (k : string) :
  keyed sprites ->
  filter (fun s => (Sprite.name s =? k)%string) (flatten_sprites sprites)
  = sprites_get sprites k.
Proof.
  unfold sprites_get, flatten_sprites.
  induction sprites as [|[k0 l0] rest IH]; intros [Hnd Hname]; [reflexivity|].
  cbn [map snd concat dict_get] in *. rewrite filter_app.
  inversion Hnd as [|? ? Hnotin Hrest]. subst.
  assert (Hk : keyed rest).
  { split; [exact Hrest|]. intros k' l s Hin Hs. apply (Hname k' l s); [right|]; assumption. }
  destruct (k0 =? k)%string eqn:E.
  - apply String.eqb_eq in E. subst k0. cbn [from_option].
    rewrite filter_all, filter_none; [apply app_nil_r| |].
    + intros s Hs. apply in_flatten in Hs as (k' & l & Hin & Hs).
      destruct (Sprite.name s =? k)%string eqn:En; [|reflexivity].
      apply String.eqb_eq in En. exfalso. apply Hnotin.
      apply in_map_iff. exists (k', l). split; [|exact Hin].
      cbn [fst]. rewrite <- En. symmetry. apply (Hname k' l s); [right|]; assumption.
    + intros s Hs. apply String.eqb_eq. apply (Hname k l0 s); [left; reflexivity | exact Hs].
  - rewrite filter_none; [apply IH; exact Hk|].
    intros s Hs. rewrite (Hname k0 l0 s (or_introl eq_refl) Hs). exact E.
Qed.

(** *** The two loops of the manifest *)

Lemma visits_snd (sprites : sprites_t) :
  map snd (visits sprites) = flatten_sprites sprites.
Proof.
  unfold visits, flatten_sprites.
  induction sprites as [|[k l] rest IH]; [reflexivity|].
  cbn [flat_map map snd concat]. rewrite map_app, IH, map_map. cbn [snd].
  rewrite map_id. reflexivity.
Qed.

Lemma visits_keyed (sprites : sprites_t) (n : string) (s : Sprite.t) :
  keyed sprites -> In (n, s) (visits sprites) -> Sprite.name s = n.
Proof.
  intros [_ Hname] Hin. unfold visits in Hin.
  apply in_flat_map in Hin as ([k l] & Hkl & Hin).
  apply in_map_iff in Hin as (x & Heq & Hx). inversion Heq. subst.
  apply (Hname n l s Hkl Hx).
Qed.

Lemma visits_regroup (sprites : sprites_t) :
  forall done,
    Forall2 placement_of (flatten_sprites sprites) done ->
    Forall2 same_visit (visits sprites) (visits (regroup sprites done)).
Proof.
  induction sprites as [|[k l] rest IH]; intros done Hall; [constructor|].
  unfold flatten_sprites in Hall. cbn [map snd concat] in Hall.
  apply Forall2_app_inv_l in Hall as (l1 & l2 & H1 & H2 & ->).
  pose proof (Forall2_length H1) as Hlen.
  unfold visits. cbn [regroup flat_map]. rewrite Hlen.
  rewrite firstn_app, Nat.sub_diag, firstn_all, firstn_O, app_nil_r.
  rewrite skipn_app, skipn_all, Nat.sub_diag. cbn [skipn app].
  apply Forall2_app.
  - clear -H1. induction H1 as [|s p l l1 Hsp _ IH1]; cbn [map]; constructor.
    + split; [reflexivity | exact Hsp].
    + exact IH1.
  - apply IH. exact H2.
Qed.

Lemma build_meta_visits (sprites : sprites_t) (masks : masks_t) :
  build_meta sprites masks = fold_left (add_frame masks) (visits sprites) [].
Proof.
  unfold build_meta, visits. generalize (@nil (string * list FrameMeta)).
  induction sprites as [|[k l] rest IH]; intros frames; [reflexivity|].
  cbn [fold_left flat_map]. rewrite fold_left_app, IH. f_equal.
  clear IH. revert frames. induction l as [|s l IHl]; intros frames; [reflexivity|].
  cbn [fold_left map]. rewrite IHl. reflexivity.
Qed.

Lemma frames_get_add (masks : masks_t) (ps : list (string * Sprite.t)) (k : string) :
  forall frames,
    frames_get (fold_left (add_frame masks) ps frames) k
    = frames_get frames k
      ++ map (frame_meta_of masks)
             (filter (fun p => (Sprite.name (snd p) =? k)%string) ps).
Proof.
  induction ps as [|p ps IH]; intros frames; cbn [fold_left filter].
  - rewrite app_nil_r. reflexivity.
  - rewrite IH. unfold frames_get at 1, add_frame.
    rewrite (dict_get_upd String.eqb string_eqb_spec).
    destruct (Sprite.name (snd p) =? k)%string eqn:E; cbn [from_option map].
    + apply String.eqb_eq in E. rewrite E. unfold frames_get.
      rewrite <- app_assoc. reflexivity.
    + reflexivity.
Qed.

Lemma filter_map_snd {A B : Type} (f : B -> bool) (l : list (A * B)) :
  map snd (filter (fun p => f (snd p)) l) = filter f (map snd l).
Proof.
  induction l as [|p l IH]; cbn [filter map]; [reflexivity|].
  destruct (f (snd p)); cbn [map]; rewrite IH; reflexivity.
Qed.

Lemma visits_keys (k : string) (vs ws : list (string * Sprite.t)) :
  Forall2 same_visit vs ws ->
  map (fun p => record_key (Sprite.to_meta (snd p)))
      (filter (fun p => (Sprite.name (snd p) =? k)%string) ws)
  = map (fun p => sprite_key (snd p))
        (filter (fun p => (Sprite.name (snd p) =? k)%string) vs).
Proof.
  induction 1 as [|[n s] [n' p] vs ws [_ [tl Hp]] _ IH]; [reflexivity|].
  cbn [snd] in Hp. subst p. cbn [filter snd Sprite.name Sprite.set_tl].
  destruct (Sprite.name s =? k)%string; cbn [map snd]; rewrite IH; [|reflexivity].
  f_equal. destruct tl as [x y]. reflexivity.
Qed.

Lemma run_steps (fuel : nat) (srcs : list Source) (out : Output) :
  run fuel srcs = Ok out ->
  exists sprites masks st,
    extract srcs = Ok (sprites, masks)
    /\ pack fuel (flatten_sprites sprites) = Ok st
    /\ out = mkOutput (amap color (sheet st))
                      (Z.of_nat (shape1 (sheet st)), Z.of_nat (shape0 (sheet st)))
                      (build_meta (regroup sprites (placed st)) masks).
Proof.
  unfold run. intros Hrun.
  destruct (extract srcs) as [[sprites masks]|e] eqn:E1; cbn [bind] in Hrun;
    [|discriminate].
  destruct (pack fuel (flatten_sprites sprites)) as [st|e] eqn:E2; cbn [bind] in Hrun;
    [|discriminate].
  exists sprites, masks, st. split; [reflexivity|]. split; [exact E2|].
  inversion Hrun. reflexivity.
Qed.

(** X15. The records filed under [k] in [meta["frames"]] are, in the
    order of the input frames, those of the frames that took the sprite
    branch under the name [k]: each carries that frame's name and frame
    index and the size of its crop less the two border pixels.  The
    packer chooses the positions only; it drops, adds and reorders
    nothing. *)
Theorem manifest_groups (fuel : nat) (srcs : list Source) (out : Output)
        (k : string) :
  run fuel srcs = Ok out ->
  map (fun fm => record_key (fm_sprite fm)) (frames_get (out_frames out) k)
  = map sprite_key (sprites_named k (all_frames srcs)).
Proof.
  intros Hrun.
  destruct (run_steps fuel srcs out Hrun) as (sprites & masks & st & Hex & Hpack & ->).
  destruct (extract_keyed srcs sprites masks Hex) as [Hk _].
  destruct (pack_spec fuel _ st Hpack) as (_ & _ & Hall).
  cbn [out_frames]. rewrite build_meta_visits, frames_get_add.
  unfold frames_get at 1. cbn [dict_get from_option app].
  rewrite map_map. unfold frame_meta_of. cbn [fm_sprite].
  rewrite (visits_keys k _ _ (visits_regroup sprites (placed st) Hall)).
  rewrite <- (map_map snd sprite_key), (filter_map_snd (fun s => (Sprite.name s =? k)%string)).
  rewrite visits_snd, (keyed_get sprites k Hk).
  unfold extract in Hex.
  f_equal. exact (files_groups srcs k ([], []) (sprites, masks) Hex).
Qed.

Lemma manifest_groups_witness :
  map (fun fm => record_key (fm_sprite fm))
      (frames_get (out_frames (output 10 [dot_source])) "dot")
  = map sprite_key (sprites_named "dot" (all_frames [dot_source])).
Proof.
  apply (manifest_groups 10 [dot_source] (output 10 [dot_source]) "dot").
  vm_compute. reflexivity.
Defined.

Lemma in_firstn {A : Type} (n : nat) (l : list A) (a : A) :
  In a (firstn n l) -> In a l.
Proof.
  intros H. rewrite <- (firstn_skipn n l). apply in_or_app. left. exact H.
Qed.

Lemma in_skipn {A : Type} (n : nat) (l : list A) (a : A) :
  In a (skipn n l) -> In a l.
Proof.
  intros H. rewrite <- (firstn_skipn n l). apply in_or_app. right. exact H.
Qed.

Lemma regroup_subset (sprites : sprites_t) :
  forall done n p, In (n, p) (visits (regroup sprites done)) -> In p done.
Proof.
  induction sprites as [|[k l] rest IH]; intros done n p Hin; [destruct Hin|].
  unfold visits in Hin. cbn [regroup flat_map] in Hin.
  apply in_app_or in Hin as [Hin | Hin].
  - apply in_map_iff in Hin as (x & Heq & Hx). inversion Heq. subst.
    apply (in_firstn _ _ _ Hx).
  - apply (in_skipn (length l)). apply (IH _ n p Hin).
Qed.

Lemma forall2_in_r {A B : Type} (R : A -> B -> Prop) (l : list A) (l' : list B) :
  Forall2 R l l' -> forall b, In b l' -> exists a, In a l /\ R a b.
Proof.
  induction 1 as [|a b l l' Hab _ IH]; intros b0 Hb; [destruct Hb|].
  destruct Hb as [<- | Hb].
  - exists a. split; [left; reflexivity | exact Hab].
  - destruct (IH b0 Hb) as (a0 & Ha0 & Hr). exists a0. split; [right|]; assumption.
Qed.

(** The record of a frame filed under [k] comes from a visit to a placed
    sprite of that name, under the key its unplaced original is filed
    under. *)
Lemma frame_origin (srcs : list Source) (sprites : sprites_t) (masks : masks_t)
      (st : packer) (fuel : nat) (k : string) (fm : FrameMeta) :
  extract srcs = Ok (sprites, masks) ->
  pack fuel (flatten_sprites sprites) = Ok st ->
  In fm (frames_get (build_meta (regroup sprites (placed st)) masks) k) ->
  exists p, In p (placed st) /\ Sprite.name p = k
            /\ fm = mkFrameMeta (Sprite.to_meta p) (masks_meta masks k p).
Proof.
  intros Hex Hpack Hin.
  destruct (extract_keyed srcs sprites masks Hex) as [Hk _].
  destruct (pack_spec fuel _ st Hpack) as (_ & _ & Hall).
  rewrite build_meta_visits, frames_get_add in Hin.
  unfold frames_get at 1 in Hin. cbn [dict_get from_option app] in Hin.
  apply in_map_iff in Hin as ([n p] & <- & Hp).
  apply filter_In in Hp as [Hp Hname]. cbn [snd] in Hname.
  apply String.eqb_eq in Hname.
  exists p. split; [apply (regroup_subset sprites (placed st) n p Hp)|].
  split; [exact Hname|].
  assert (Hn : n = k); [|subst n; reflexivity].
  destruct (forall2_in_r _ _ _ (visits_regroup sprites (placed st) Hall) _ Hp)
    as ([n0 s] & Hs & Hn0 & tl & Hset).
  cbn [fst snd] in *. subst n0 p.
  rewrite <- Hname. symmetry.
  apply (visits_keyed sprites n s Hk Hs).
Qed.

(** X16. Every sprite record of the manifest carries the name it is
    filed under and lies, with the one-pixel border it was cropped with,
    strictly inside the atlas whose size the manifest gives: [x] and [y]
    are at least 1, and [x + w + 1] and [y + h + 1] stay below the width
    and the height. *)
Theorem manifest_records_inside (fuel : nat) (srcs : list Source) (out : Output)
        (k : string) (fm : FrameMeta) :
  run fuel srcs = Ok out ->
  In fm (frames_get (out_frames out) k) ->
  record_inside out k (fm_sprite fm).
Proof.
  intros Hrun Hin.
  destruct (run_steps fuel srcs out Hrun) as (sprites & masks & st & Hex & Hpack & ->).
  cbn [out_frames] in Hin.
  destruct (frame_origin srcs sprites masks st fuel k fm Hex Hpack Hin)
    as (p & Hp & Hname & ->).
  destruct (pack_spec fuel _ st Hpack) as (Hinv & _ & _).
  destruct (inv_inside st Hinv p Hp) as (Hx & Hy & Hr & Hb).
  unfold right_edge, bottom_edge in *.
  unfold record_inside, Sprite.to_meta. cbn [fm_sprite out_size fst snd].
  destruct (Sprite.tl p) as [x y]. cbn [fst snd meta_name meta_x meta_y meta_w meta_h] in *.
  split; [exact Hname|]. lia.
Qed.

Lemma manifest_records_inside_witness :
  record_inside (output 10 [dot_source]) "dot"
    (fm_sprite (mkFrameMeta (mkMeta "dot" 1 1 2 2 0)
                            [("hit"%string, mkMeta "dot" 1 2 1 1 0)])).
Proof.
  apply (manifest_records_inside 10 [dot_source]).
  - vm_compute. reflexivity.
  - vm_compute. left. reflexivity.
Defined.

Lemma masks_meta_in (masks : masks_t) (sn : string) (sprite : Sprite.t)
      (mn : string) (m : Meta) :
  masks_keyed masks ->
  In (mn, m) (masks_meta masks sn sprite) ->
  meta_name m = sn /\ meta_frame_idx m = Sprite.frame_idx sprite.
Proof.
  intros Hk. unfold masks_meta.
  assert (Hlayers : forall ln by_frame,
             In (ln, by_frame) (from_option [] (dict_get String.eqb masks sn)) ->
             forall idx mk, dict_get Z.eqb by_frame idx = Some mk ->
                            Mask.name mk = sn /\ Mask.frame_idx mk = idx).
  { destruct (dict_get String.eqb masks sn) as [layers|] eqn:E; [|intros ln bf []].
    apply (Hk sn layers E). }
  clear Hk. revert Hlayers.
  generalize (from_option [] (dict_get String.eqb masks sn)) as layers.
  intros layers Hlayers.
  assert (Hacc : forall mn' m', In (mn', m') (@nil (string * Meta)) ->
             meta_name m' = sn /\ meta_frame_idx m' = Sprite.frame_idx sprite)
    by (intros mn' m' []).
  revert Hacc. generalize (@nil (string * Meta)) as acc. revert mn m.
  induction layers as [|[ln bf] layers IH]; intros mn m acc Hacc Hin;
    cbn [fold_left] in Hin.
  - apply (Hacc mn m Hin).
  - apply (IH (fun ln' bf' H => Hlayers ln' bf' (or_intror H)) mn m _) in Hin;
      [exact Hin|].
    intros mn' m' Hin'.
    destruct (dict_get Z.eqb bf (Sprite.frame_idx sprite)) as [mk|] eqn:E;
      [|apply (Hacc mn' m' Hin')].
    destruct (dict_upd_in String.eqb string_eqb_spec acc ln mn' _ m' Hin')
      as [Hold | [_ ->]]; [apply (Hacc mn' m' Hold)|].
    destruct (Hlayers ln bf (or_introl eq_refl) _ mk E) as [Hn Hi].
    unfold Mask.to_meta. destruct (Mask.tl mk) as [x y].
    cbn [meta_name meta_frame_idx]. split; assumption.
Qed.

(** X17. Every mask record of the manifest carries the name and the frame
    index of the sprite record it is attached to: a mask reaches the
    manifest only through a mask frame of the same sprite name, tag and
    frame index. *)
Theorem manifest_masks_match (fuel : nat) (srcs : list Source) (out : Output)
        (k mn : string) (fm : FrameMeta) (m : Meta) :
  run fuel srcs = Ok out ->
  In fm (frames_get (out_frames out) k) ->
  In (mn, m) (fm_masks fm) ->
  meta_name m = meta_name (fm_sprite fm)
  /\ meta_frame_idx m = meta_frame_idx (fm_sprite fm).
Proof.
  intros Hrun Hin Hm.
  destruct (run_steps fuel srcs out Hrun) as (sprites & masks & st & Hex & Hpack & ->).
  cbn [out_frames] in Hin.
  destruct (frame_origin srcs sprites masks st fuel k fm Hex Hpack Hin)
    as (p & Hp & Hname & ->).
  destruct (extract_keyed srcs sprites masks Hex) as [_ Hmk].
  cbn [fm_masks fm_sprite] in *.
  destruct (masks_meta_in masks k p mn m Hmk Hm) as [Hn Hi].
  unfold Sprite.to_meta. destruct (Sprite.tl p) as [x y].
  cbn [meta_name meta_frame_idx]. rewrite Hn, Hi, Hname. split; reflexivity.
Qed.

Lemma manifest_masks_match_witness :
  meta_name (mkMeta "dot" 1 2 1 1 0)
  = meta_name (fm_sprite (mkFrameMeta (mkMeta "dot" 1 1 2 2 0)
                                      [("hit"%string, mkMeta "dot" 1 2 1 1 0)]))
  /\ meta_frame_idx (mkMeta "dot" 1 2 1 1 0)
     = meta_frame_idx (fm_sprite (mkFrameMeta (mkMeta "dot" 1 1 2 2 0)
                                              [("hit"%string, mkMeta "dot" 1 2 1 1 0)])).
Proof.
  apply (manifest_masks_match 10 [dot_source] (output 10 [dot_source]) "dot" "hit").
  - vm_compute. reflexivity.
  - vm_compute. left. reflexivity.
  - left. reflexivity.
Defined.

(** *** The masks that extraction keeps *)

Lemma masks_lookup_set (masks : masks_t) (sn0 ln0 : string) (idx0 : Z) (m : Mask.t)
      (sn ln : string) (idx : Z) :
  masks_lookup (masks_set masks sn0 ln0 idx0 m) sn ln idx
  = if (sn0 =? sn)%string && (ln0 =? ln)%string && (idx0 =? idx)
    then Some m else masks_lookup masks sn ln idx.
Proof.
  unfold masks_lookup, masks_set.
  rewrite (dict_get_upd String.eqb string_eqb_spec).
  destruct (sn0 =? sn)%string eqn:Es; cbn [andb from_option]; [|reflexivity].
  apply String.eqb_eq in Es. subst sn0.
  rewrite (dict_get_upd String.eqb string_eqb_spec).
  destruct (ln0 =? ln)%string eqn:El; cbn [andb from_option]; [|reflexivity].
  apply String.eqb_eq in El. subst ln0.
  rewrite (dict_get_upd Z.eqb z_eqb_spec).
  destruct (idx0 =? idx); reflexivity.
Qed.

Lemma process_frame_lookup (sheet : ndarray pixel) (st st' : sprites_t * masks_t)
      (frame : Frame) (sn ln : string) (idx : Z) :
  process_frame sheet st frame = Ok st' ->
  masks_lookup (snd st') sn ln idx
  = later (masks_lookup (snd st) sn ln idx) (mask_at sn ln idx (sheet, frame)).
Proof.
  destruct st as [sprites masks]. destruct st' as [sprites' masks']. cbn [snd].
  unfold process_frame, mask_at, tagged_name. cbv zeta.
  destruct (prefix _MASK_LAYER_PREFIX (f_layer_name frame)); cbn [andb bind].
  - destruct (strip_mask_prefix (f_layer_name frame) =? _SPRITE_LAYER)%string;
      cbn [negb andb].
    + intros H. inversion H. reflexivity.
    + destruct (extract_mask _ _ _ _ _ _ _) as [[m|]|e]; cbn [bind]; intros H;
        inversion H.
      * rewrite masks_lookup_set. destruct (_ && _ && _); reflexivity.
      * destruct (_ && _ && _); reflexivity.
  - destruct (negb (f_layer_name frame =? _SPRITE_LAYER)%string) eqn:En;
      cbn [bind]; [discriminate|].
    apply negb_false_iff in En. rewrite En. intros H. inversion H. reflexivity.
Qed.

Lemma frames_lookup (sheet : ndarray pixel) (fs : list Frame) (sn ln : string)
      (idx : Z) :
  forall st st',
    for_each (process_frame sheet) fs st = Ok st' ->
    masks_lookup (snd st') sn ln idx
    = fold_left later (map (mask_at sn ln idx) (map (pair sheet) fs))
                (masks_lookup (snd st) sn ln idx).
Proof.
  induction fs as [|f fs IH]; intros st st' Hrun; cbn [for_each] in Hrun.
  - inversion Hrun. reflexivity.
  - destruct (process_frame sheet st f) as [st1|e] eqn:E1; cbn [bind] in Hrun;
      [|discriminate].
    cbn [map fold_left]. rewrite (IH st1 st' Hrun).
    rewrite (process_frame_lookup sheet st st1 f sn ln idx E1). reflexivity.
Qed.

Lemma files_lookup (srcs : list Source) (sn ln : string) (idx : Z) :
  forall st st',
    for_each process_file srcs st = Ok st' ->
    masks_lookup (snd st') sn ln idx
    = fold_left later (map (mask_at sn ln idx) (all_frames srcs))
                (masks_lookup (snd st) sn ln idx).
Proof.
  induction srcs as [|src srcs IH]; intros st st' Hrun; cbn [for_each] in Hrun.
  - inversion Hrun. reflexivity.
  - destruct (process_file st src) as [st1|e] eqn:E1; cbn [bind] in Hrun;
      [|discriminate].
    unfold process_file in E1.
    destruct (existsb (String.eqb _SPRITE_LAYER) (layer_names src)); [|discriminate].
    unfold all_frames. cbn [flat_map]. rewrite map_app, fold_left_app.
    rewrite (IH st1 st' Hrun).
    rewrite (frames_lookup (src_sheet src) (frames src) sn ln idx st st1 E1).
    reflexivity.
Qed.

(** X18. After extraction [masks[sn][ln]] holds at [idx] the mask of the
    last frame that took the mask branch with that sprite name, layer
    name and frame index and whose region was not all zero: a later such
    frame replaces the mask, a later frame with an all-zero region leaves
    the earlier mask in place, and without such a frame there is no
    entry. *)
Theorem masks_last_wins (srcs : list Source) (sprites : sprites_t) (masks : masks_t)
        (sn ln : string) (idx : Z) :
  extract srcs = Ok (sprites, masks) ->
  masks_lookup masks sn ln idx = last_some (map (mask_at sn ln idx) (all_frames srcs)).
Proof.
  intros Hrun. unfold extract in Hrun.
  exact (files_lookup srcs sn ln idx ([], []) (sprites, masks) Hrun).
Qed.

Lemma masks_last_wins_witness :
  masks_lookup (snd (extracted [dot_source])) "dot" "hit" 0
  = last_some (map (mask_at "dot" "hit" 0) (all_frames [dot_source])).
Proof.
  apply (masks_last_wins [dot_source] (fst (extracted [dot_source]))).
  vm_compute. reflexivity.
Defined.

(** ** When the script stops early *)

Lemma for_each_outcome {S A : Type} (body : S -> A -> result S) (ok : A -> bool) :
  (forall st a, if ok a then exists st', body st a = Ok st'
                else exists e, body st a = Err e) ->
  forall l st, (exists st', for_each body l st = Ok st') <-> forallb ok l = true.
Proof.
  intros Hbody. induction l as [|a l IH]; intros st; cbn [for_each forallb].
  - split; [reflexivity | intros _; eexists; reflexivity].
  - specialize (Hbody st a). destruct (ok a); cbn [andb].
    + destruct Hbody as [st1 E1]. rewrite E1. cbn [bind]. apply IH.
    + destruct Hbody as [e E1]. rewrite E1. cbn [bind].
      split; [intros [st' H]; discriminate H | discriminate].
Qed.

Lemma for_each_err {S A : Type} (body : S -> A -> result S) (P : error -> Prop) :
  (forall st a e, body st a = Err e -> P e) ->
  forall l st e, for_each body l st = Err e -> P e.
Proof.
  intros Hbody. induction l as [|a l IH]; intros st e Hrun; cbn [for_each] in Hrun.
  - discriminate Hrun.
  - destruct (body st a) as [st1|e1] eqn:E1; cbn [bind] in Hrun.
    + apply (IH st1 e Hrun).
    + inversion Hrun. subst. apply (Hbody st a e E1).
Qed.

Lemma process_frame_outcome (sheet : ndarray pixel) (st : sprites_t * masks_t)
      (frame : Frame) :
  if frame_ok sheet frame then exists st', process_frame sheet st frame = Ok st'
  else exists msg, process_frame sheet st frame = Err (ValueError msg).
Proof.
  destruct st as [sprites masks]. unfold frame_ok, process_frame. cbv zeta.
  destruct (prefix _MASK_LAYER_PREFIX (f_layer_name frame)); cbn [bind].
  - destruct (strip_mask_prefix (f_layer_name frame) =? _SPRITE_LAYER)%string;
      cbn [orb].
    + eexists; reflexivity.
    + unfold extract_mask. cbv zeta. unfold amax.
      destruct ((shape0 _ =? 0) || (shape1 _ =? 0))%nat; cbn [negb bind].
      * eexists; reflexivity.
      * destruct (list_max _ >? 0); cbn [bind]; eexists; reflexivity.
  - destruct (f_layer_name frame =? _SPRITE_LAYER)%string eqn:E; cbn [negb bind].
    + rewrite E. eexists; reflexivity.
    + eexists; reflexivity.
Qed.

Lemma process_file_outcome (st : sprites_t * masks_t) (src : Source) :
  if file_ok src then exists st', process_file st src = Ok st'
  else exists msg, process_file st src = Err (ValueError msg).
Proof.
  unfold file_ok, process_file.
  destruct (existsb (String.eqb _SPRITE_LAYER) (layer_names src)); cbn [andb];
    [|eexists; reflexivity].
  pose proof (for_each_outcome (process_frame (src_sheet src)) (frame_ok (src_sheet src)))
    as Hall.
  assert (Hbody : forall st0 a,
             if frame_ok (src_sheet src) a
             then exists st', process_frame (src_sheet src) st0 a = Ok st'
             else exists e, process_frame (src_sheet src) st0 a = Err e).
  { intros st0 a. pose proof (process_frame_outcome (src_sheet src) st0 a) as H.
    destruct (frame_ok (src_sheet src) a); [exact H|].
    destruct H as [msg H]. eexists. exact H. }
  specialize (Hall Hbody (frames src) st).
  destruct (forallb (frame_ok (src_sheet src)) (frames src)).
  - apply Hall. reflexivity.
  - destruct (for_each (process_frame (src_sheet src)) (frames src) st)
      as [st'|e] eqn:E.
    + assert (false = true) by (apply Hall; exists st'; reflexivity). discriminate.
    + assert (He : exists msg, e = ValueError msg).
      { apply (for_each_err (process_frame (src_sheet src))
                 (fun e => exists msg, e = ValueError msg))
          with (l := frames src) (st := st); [|exact E].
        intros st0 a e0 H0. pose proof (process_frame_outcome (src_sheet src) st0 a) as H.
        destruct (frame_ok (src_sheet src) a).
        - destruct H as [st1 H]. rewrite H in H0. discriminate H0.
        - destruct H as [msg H]. rewrite H in H0. inversion H0. exists msg. reflexivity. }
      destruct He as [msg ->]. exists msg. reflexivity.
Qed.

(** X19. Extraction returns only if every file lists a layer called
    [sprite], every frame's layer is [sprite] or carries the [mask_]
    prefix, and the region of every frame that takes the mask branch has
    at least one pixel. *)
Theorem extract_returns_only_if (srcs : list Source) (st : sprites_t * masks_t) :
  extract srcs = Ok st -> forallb file_ok srcs = true.
Proof.
  intros Hrun. unfold extract in Hrun.
  apply (for_each_outcome process_file file_ok) with (st := ([], [])).
  - intros st0 src. pose proof (process_file_outcome st0 src) as H.
    destruct (file_ok src); [exact H|].
    destruct H as [msg H]. eexists. exact H.
  - exists st. exact Hrun.
Qed.

Lemma extract_returns_only_if_witness : forallb file_ok [dot_source] = true.
Proof.
  apply (extract_returns_only_if [dot_source] (extracted [dot_source])).
  vm_compute. reflexivity.
Defined.

Lemma scan_err (sheet0 : ndarray cell) (sprite : Sprite.t) (tls : list (Z * Z)) :
  forall i e, scan sheet0 sprite tls i = Err e -> exists msg, e = ValueError msg.
Proof.
  induction tls as [|[x y] tls IH]; intros i e; cbn [scan]; [discriminate|].
  destruct (_ && _); [|apply IH].
  unfold amax. destruct (_ || _)%nat; cbn [bind].
  - intros H. inversion H. eexists. reflexivity.
  - destruct (_ =? 0); [discriminate | apply IH].
Qed.

Lemma scan_index (sheet0 : ndarray cell) (sprite : Sprite.t) (tls : list (Z * Z)) :
  forall i j, scan sheet0 sprite tls i = Ok (Some j) -> (j < i + length tls)%nat.
Proof.
  induction tls as [|[x y] tls IH]; intros i j; cbn [scan length]; [discriminate|].
  assert (Hrest : scan sheet0 sprite tls (S i) = Ok (Some j) -> (j < i + S (length tls))%nat).
  { intros H. apply IH in H. lia. }
  destruct (_ && _); [|exact Hrest].
  destruct (amax _) as [m|e]; cbn [bind]; [|discriminate].
  destruct (m =? 0); [|exact Hrest].
  intros H. inversion H. lia.
Qed.

Lemma find_tl_err (sprite : Sprite.t) (tls : list (Z * Z)) (fuel : nat) :
  forall sheet0 e, find_tl fuel sheet0 sprite tls = Err e -> stops_early e.
Proof.
  induction fuel as [|fuel IH]; intros sheet0 e; cbn [find_tl].
  - destruct (scan sheet0 sprite tls 0) as [[j|]|e0] eqn:Escan; cbn [bind]; intros H;
      inversion H; subst.
    + left. reflexivity.
    + right. apply (scan_err sheet0 sprite tls 0 e Escan).
  - destruct (scan sheet0 sprite tls 0) as [[j|]|e0] eqn:Escan; cbn [bind].
    + discriminate.
    + destruct (grow_spec sheet0 sprite) as (sheet' & Hgrow & _).
      rewrite Hgrow. cbn [bind]. apply IH.
    + intros H. inversion H. subst. right. apply (scan_err sheet0 sprite tls 0 e Escan).
Qed.

Lemma find_tl_index (sprite : Sprite.t) (tls : list (Z * Z)) (fuel : nat) :
  forall sheet0 i sheet1,
    find_tl fuel sheet0 sprite tls = Ok (i, sheet1) -> (i < length tls)%nat.
Proof.
  induction fuel as [|fuel IH]; intros sheet0 i sheet1; cbn [find_tl].
  - destruct (scan sheet0 sprite tls 0) as [[j|]|e0] eqn:Escan; cbn [bind]; intros H;
      inversion H; subst.
    apply (scan_index _ sprite tls 0 i Escan).
  - destruct (scan sheet0 sprite tls 0) as [[j|]|e0] eqn:Escan; cbn [bind].
    + intros H. inversion H. subst. apply (scan_index _ sprite tls 0 i Escan).
    + destruct (grow_spec sheet0 sprite) as (sheet' & Hgrow & _).
      rewrite Hgrow. cbn [bind]. apply IH.
    + discriminate.
Qed.

Lemma place_err (fuel : nat) (st : packer) (sprite : Sprite.t) (e : error) :
  place fuel st sprite = Err e -> stops_early e.
Proof.
  unfold place.
  destruct (find_tl fuel (sheet st) sprite (tls_to_try st)) as [[i sheet1]|e0] eqn:Efind;
    cbn [bind].
  - pose proof (find_tl_index sprite (tls_to_try st) fuel (sheet st) i sheet1 Efind)
      as Hi.
    unfold pop. destruct (nth_error (tls_to_try st) i) as [[x y]|] eqn:Enth.
    + cbn [bind]. unfold assign.
      destruct (slice_bounds _ _ _) as [r0 h]. destruct (slice_bounds _ _ _) as [c0 w].
      destruct (_ && _)%nat; cbn [bind]; [discriminate|].
      intros H. inversion H. right. eexists. reflexivity.
    + apply nth_error_None in Enth. lia.
  - intros H. inversion H. subst. apply (find_tl_err sprite _ fuel _ e Efind).
Qed.

Lemma pack_err (fuel : nat) (sprites : list Sprite.t) (e : error) :
  pack fuel sprites = Err e -> stops_early e.
Proof.
  unfold pack. apply (for_each_err (place fuel) stops_early (place_err fuel)).
Qed.

Lemma extract_err (srcs : list Source) (e : error) :
  extract srcs = Err e -> exists msg, e = ValueError msg.
Proof.
  unfold extract.
  apply (for_each_err process_file (fun e => exists msg, e = ValueError msg)).
  intros st src e0 H0. pose proof (process_file_outcome st src) as H.
  destruct (file_ok src).
  - destruct H as [st1 H]. rewrite H in H0. discriminate H0.
  - destruct H as [msg H]. rewrite H in H0. inversion H0. exists msg. reflexivity.
Qed.

(** X20. The [assert False] at the end of the frame loop is never
    reached: whatever the files hold, extraction does not stop with an
    [AssertionError].  And [tls_to_try.pop] is always given the index of a
    candidate of the list: whatever the sprites, the packing loop does not
    stop with an [IndexError]. *)
Theorem never_assert_never_pop_error :
  (forall srcs msg, extract srcs <> Err (AssertionError msg))
  /\ (forall fuel sprites msg, pack fuel sprites <> Err (IndexError msg)).
Proof.
  split.
  - intros srcs msg H. destruct (extract_err srcs _ H) as [msg' E]. discriminate E.
  - intros fuel sprites msg H.
    destruct (pack_err fuel sprites _ H) as [E | [msg' E]]; discriminate E.
Qed.
